(** * Virtual-DOM reconciliation (E4/axv230014/diff.js)

    A shallow embedding of [createTree] and [diff] over an explicit model of
    the rendering surface: a store of live nodes addressed by handles, with
    parent pointers, ordered child lists and attribute maps, and a log of
    the mutating calls the code makes on it.  Both functions run in a state
    monad whose state survives a thrown exception, as it does in JavaScript.
    What the host does to tag and attribute names (which names it rejects,
    how it folds the ones it accepts) is a parameter of the model.

    A second, smaller part embeds the pure functions of E3/e3/e3.js on
    titles and profiles ([generateIds], [highlightImportant],
    [wordFrequency], [updateUser], [removeSensitive]). *)

From Stdlib Require Import Ascii.
From stdpp Require Import gmap strings list fin_maps.

Open Scope string_scope.
Open Scope list_scope.
Open Scope nat_scope.
Set Warnings "-register-all".

(** ** Node descriptions (vNodes) *)

(** A description is a JavaScript value: a string (text), [null] or
    [undefined] (both satisfy [== null] and both throw on property access),
    or an object with the optional properties [type], [props] and
    [children].  A property that is missing is [None].  The [props] object
    is a finite map from names to strings; its own keys are enumerated in
    the order of [map_to_list], which need not be the insertion order that
    JavaScript uses: nothing below depends on that order. *)
Inductive vnode : Type :=
| VNull
| VText (s : string)
| VElem (type : option string)
        (props : option (gmap string string))
        (children : option (list vnode)).

(** [typeof v === "string"] *)
Definition is_string (v : vnode) : bool :=
  match v with VText _ => true | _ => false end.

(** [v == null] *)
Definition is_nullish (v : vnode) : bool :=
  match v with VNull => true | _ => false end.

(** [v.type] for a non-null [v]; a string has no such property. *)
Definition type_of (v : vnode) : option string :=
  match v with VElem t _ _ => t | _ => None end.

(** [v.props || {}] for a non-null [v]. *)
Definition props_of (v : vnode) : gmap string string :=
  match v with VElem _ (Some p) _ => p | _ => ∅ end.

(** [v.children || []] for a non-null [v]. *)
Definition children_of (v : vnode) : list vnode :=
  match v with VElem _ _ (Some cs) => cs | _ => [] end.

(** [a !== b] on two strings. *)
Definition text_neq (v1 v2 : vnode) : bool :=
  match v1, v2 with
  | VText a, VText b => negb (String.eqb a b)
  | _, _ => true
  end.

(** ** Property lookup on a props object

    [key in obj] and [obj[key]] consult the prototype chain: an object
    literal inherits the properties of [Object.prototype], none of which is
    enumerable, so [for ... in] and [Object.entries] list own keys only. *)
Definition object_prototype_keys : list string :=
  [ "constructor"; "hasOwnProperty"; "isPrototypeOf"; "propertyIsEnumerable";
    "toLocaleString"; "toString"; "valueOf"; "__proto__";
    "__defineGetter__"; "__defineSetter__"; "__lookupGetter__";
    "__lookupSetter__" ].

Definition is_inherited (key : string) : bool :=
  bool_decide (key ∈ object_prototype_keys).

(** [key in obj] *)
Definition js_in (key : string) (obj : gmap string string) : bool :=
  bool_decide (is_Some (obj !! key)) || is_inherited key.

Inductive js_value : Type :=
| JUndefined
| JString (s : string)
| JInherited.  (* a function or object found on Object.prototype *)

(** [obj[key]] *)
Definition js_get (obj : gmap string string) (key : string) : js_value :=
  match obj !! key with
  | Some s => JString s
  | None => if is_inherited key then JInherited else JUndefined
  end.

(** [x !== s] where [s] is a string. *)
Definition strict_neq (x : js_value) (s : string) : bool :=
  match x with
  | JString a => negb (String.eqb a s)
  | _ => true
  end.

(** ** The rendering surface *)

Inductive node_kind : Type :=
| Text (data : string)
| Element (localName : string) (attributes : gmap string string)
          (childNodes : list nat).

Record node : Type := Node { parentNode : option nat; kind : node_kind }.

(** The mutating calls of the rendering-surface interface. *)
Inductive mutation : Type :=
| SetAttribute (n : nat) (key value : string)
| RemoveAttribute (n : nat) (key : string)
| AppendChild (parent child : nat)
| ReplaceChild (parent newChild oldChild : nat)
| RemoveChild (parent child : nat)
| SetTextContent (n : nat) (text : string).

Record document : Type := Document {
  nodes : gmap nat node;      (* the live nodes, by handle *)
  next : nat;                 (* the next handle to hand out *)
  log : list mutation         (* mutating calls so far, oldest first *)
}.

Inductive fault : Type :=
| TypeError               (* property access on null or undefined *)
| HierarchyRequestError   (* a text node cannot have children *)
| NotFoundError           (* the node is not a child of this node *)
| InvalidCharacterError.  (* the host rejects a tag or attribute name *)

Inductive outcome (A : Type) : Type :=
| Ok (a : A)
| Throw (e : fault)
| Diverge.                (* a loop ran out of fuel *)
Arguments Ok {A} a.
Arguments Throw {A} e.
Arguments Diverge {A}.

(** ** The monad: state that survives exceptions *)

Definition M (A : Type) : Type := document → outcome A * document.

Definition ret {A} (a : A) : M A := λ σ, (Ok a, σ).
Definition throw {A} (e : fault) : M A := λ σ, (Throw e, σ).
Definition bind {A B} (m : M A) (f : A → M B) : M B :=
  λ σ, match m σ with
       | (Ok a, σ') => f a σ'
       | (Throw e, σ') => (Throw e, σ')
       | (Diverge, σ') => (Diverge, σ')
       end.

Notation "'let*' x ':=' m 'in' k" := (bind m (λ x, k))
  (at level 10, x binder, m at level 100, k at level 200, only parsing).
Notation "m '>>' k" := (bind m (λ _, k))
  (at level 100, k at level 200, right associativity, only parsing).

Definition get : M document := λ σ, (Ok σ, σ).
Definition put_nodes (h : gmap nat node) : M unit :=
  λ σ, (Ok (), Document h (next σ) (log σ)).
Definition record (e : mutation) : M unit :=
  λ σ, (Ok (), Document (nodes σ) (next σ) (log σ ++ [e])).
Definition alloc (n : node) : M nat :=
  λ σ, (Ok (next σ), Document (<[next σ := n]> (nodes σ)) (S (next σ)) (log σ)).

(** [for (const x of xs) body(x)], [xs.forEach(body)] *)
Definition for_each {A} (xs : list A) (body : A → M unit) : M unit :=
  (fix go (xs : list A) : M unit :=
     match xs with
     | [] => ret ()
     | x :: xs' => body x >> go xs'
     end) xs.

(** [for (let i = start; i < min(xs.length, ys.length); i++) body(i, xs[i], ys[i])],
    where [xs] and [ys] are what is left of the two arrays from [start] on. *)
Definition for_both {A B} (body : nat → A → B → M unit) : nat → list A → list B → M unit :=
  fix go (i : nat) (xs : list A) (ys : list B) : M unit :=
    match xs, ys with
    | x :: xs', y :: ys' => body i x y >> go (S i) xs' ys'
    | _, _ => ret ()
    end.

(** [while (cond) body], with a bound on the number of iterations. *)
Fixpoint while (fuel : nat) (cond : M bool) (body : M unit) : M unit :=
  match fuel with
  | 0 => λ σ, (Diverge, σ)
  | S fuel' =>
      let* c := cond in
      if c then body >> while fuel' cond body else ret ()
  end.

(** ** The host's rules for names

    [document.createElement] and [setAttribute] throw an
    InvalidCharacterError on a name the host does not accept, and store an
    accepted name as the host folds it (an HTML document lower-cases it, an
    XML document keeps it); [removeAttribute] folds the name and rejects
    none.  Which names are accepted and how they are folded is the host's
    business: both are parameters. *)
Class name_rules : Type := NameRules {
  valid_tag : string → bool;         (* [createElement] accepts the name *)
  valid_attribute : string → bool;   (* [setAttribute] accepts the name *)
  fold_name : string → string
}.

Section model.
Context {host : name_rules}.

(** ** Primitives of the rendering surface

    A handle is [Some id], or [None] for [null]/[undefined]. Dereferencing
    [None] (or a handle that names no node) is a TypeError. *)

Definition deref (r : option nat) : M (nat * node) :=
  λ σ, match r with
       | None => (Throw TypeError, σ)
       | Some id => match nodes σ !! id with
                    | Some n => (Ok (id, n), σ)
                    | None => (Throw TypeError, σ)
                    end
       end.

(** [document.createTextNode(s)] *)
Definition createTextNode (s : string) : M nat := alloc (Node None (Text s)).

(** [document.createElement(tag)] *)
Definition createElement (tag : string) : M nat :=
  if valid_tag tag then alloc (Node None (Element (fold_name tag) ∅ []))
  else throw InvalidCharacterError.

(** Conversion of the argument of [createElement] to a string. *)
Definition tag_string (t : option string) : string :=
  match t with Some s => s | None => "undefined" end.

(** [n.setAttribute(key, value)]; a text node has no such method, which
    is found out before the name is looked at. *)
Definition setAttribute (r : option nat) (key value : string) : M unit :=
  let* '(id, n) := deref r in
  match kind n with
  | Element tag attrs cs =>
      if valid_attribute key then
        let* σ := get in
        put_nodes (<[id := Node (parentNode n)
                             (Element tag (<[fold_name key := value]> attrs) cs)]> (nodes σ)) >>
        record (SetAttribute id key value)
      else throw InvalidCharacterError
  | Text _ => throw TypeError
  end.

(** [n.removeAttribute(key)]; the name is not checked. *)
Definition removeAttribute (r : option nat) (key : string) : M unit :=
  let* '(id, n) := deref r in
  match kind n with
  | Element tag attrs cs =>
      let* σ := get in
      put_nodes (<[id := Node (parentNode n)
                           (Element tag (delete (fold_name key) attrs) cs)]> (nodes σ)) >>
      record (RemoveAttribute id key)
  | Text _ => throw TypeError
  end.

(** Removing [c] from the child list of node [p] and clearing parent
    pointers, on the store. *)
Definition remove_from (c : nat) (l : list nat) : list nat :=
  filter (λ x, x ≠ c) l.

Definition set_parent (c : nat) (p : option nat) (h : gmap nat node) : gmap nat node :=
  match h !! c with
  | Some n => <[c := Node p (kind n)]> h
  | None => h
  end.

Definition set_children (p : nat) (f : list nat → list nat) (h : gmap nat node) : gmap nat node :=
  match h !! p with
  | Some (Node pp (Element tag attrs cs)) => <[p := Node pp (Element tag attrs (f cs))]> h
  | _ => h
  end.

(** A node that is inserted somewhere is first taken out of its parent. *)
Definition detach (c : nat) (h : gmap nat node) : gmap nat node :=
  match h !! c with
  | Some (Node (Some q) _) => set_parent c None (set_children q (remove_from c) h)
  | _ => h
  end.

(** [n.textContent = s]: a text node gets new data; an element loses all
    its children and gets one text child, unless [s] is empty. *)
Definition set_textContent (r : option nat) (s : string) : M unit :=
  let* '(id, n) := deref r in
  match kind n with
  | Text _ =>
      let* σ := get in
      put_nodes (<[id := Node (parentNode n) (Text s)]> (nodes σ)) >>
      record (SetTextContent id s)
  | Element tag attrs cs =>
      let* σ := get in
      put_nodes (set_children id (λ _, []) (foldr (λ c h, set_parent c None h) (nodes σ) cs)) >>
      (if String.eqb s "" then ret ()
       else let* t := alloc (Node (Some id) (Text s)) in
            let* σ' := get in
            put_nodes (set_children id (λ _, [t]) (nodes σ'))) >>
      record (SetTextContent id s)
  end.

(** [p.appendChild(c)].  The host's refusal to insert a node into its own
    subtree is not modelled: [createTree] and [diff] only append nodes that
    [createTree] has just allocated. *)
Definition appendChild (p : option nat) (c : nat) : M unit :=
  let* '(pid, pn) := deref p in
  match kind pn with
  | Text _ => throw HierarchyRequestError
  | Element _ _ _ =>
      let* _ := deref (Some c) in
      let* σ := get in
      put_nodes (set_parent c (Some pid)
                   (set_children pid (λ cs, cs ++ [c]) (detach c (nodes σ)))) >>
      record (AppendChild pid c)
  end.

(** [p.removeChild(c)] *)
Definition removeChild (p : option nat) (c : option nat) : M unit :=
  let* '(pid, pn) := deref p in
  let* '(cid, _) := deref c in
  match kind pn with
  | Element _ _ cs =>
      if bool_decide (cid ∈ cs) then
        let* σ := get in
        put_nodes (set_parent cid None (set_children pid (remove_from cid) (nodes σ))) >>
        record (RemoveChild pid cid)
      else throw NotFoundError
  | Text _ => throw NotFoundError
  end.

(** [p.replaceChild(newChild, oldChild)] *)
Definition replaceChild (p : option nat) (newChild : nat) (oldChild : option nat) : M unit :=
  let* '(pid, pn) := deref p in
  let* '(oid, _) := deref oldChild in
  match kind pn with
  | Element _ _ cs =>
      if bool_decide (oid ∈ cs) then
        let* _ := deref (Some newChild) in
        let* σ := get in
        put_nodes (set_parent oid None
                     (set_parent newChild (Some pid)
                        (set_children pid (fmap (λ x, if decide (x = oid) then newChild else x))
                           (detach newChild (nodes σ))))) >>
        record (ReplaceChild pid newChild oid)
      else throw NotFoundError
  | Text _ => throw NotFoundError
  end.

(** Read accessors. *)

(** [n.parentNode] *)
Definition get_parentNode (r : option nat) : M (option nat) :=
  let* '(_, n) := deref r in ret (parentNode n).

Definition child_list (n : node) : list nat :=
  match kind n with Element _ _ cs => cs | Text _ => [] end.

(** [n.childNodes[i]] *)
Definition childNodes_item (r : option nat) (i : nat) : M (option nat) :=
  let* '(_, n) := deref r in ret (child_list n !! i).

(** [n.childNodes.length] *)
Definition childNodes_length (r : option nat) : M nat :=
  let* '(_, n) := deref r in ret (length (child_list n)).

(** [n.lastChild] *)
Definition lastChild (r : option nat) : M (option nat) :=
  let* '(_, n) := deref r in ret (last (child_list n)).

(** ** createTree (diff.js, lines 9-27) *)

Fixpoint createTree (vNode : vnode) : M nat :=
  match vNode with
  | VText s => createTextNode s
  | VNull => throw TypeError                       (* null.type *)
  | VElem type props children =>
      let* el := createElement (tag_string type) in
      for_each (map_to_list (default ∅ props))
        (λ '(key, value), setAttribute (Some el) key value) >>
      match children with
      | Some cs =>
          for_each cs (λ child, let* c := createTree child in appendChild (Some el) c)
      | None => ret ()                              (* [].forEach *)
      end >>
      ret el
  end.

(** ** diff (diff.js, lines 35-121) *)

(** Lines 76-80: remove old attributes not in new. *)
Definition remove_old_attributes (oldVNode newVNode : vnode) (domNode : option nat) : M unit :=
  for_each (map_to_list (props_of oldVNode))
    (λ '(key, _),
       if negb (js_in key (props_of newVNode))
       then removeAttribute domNode key
       else ret ()).

(** Lines 82-86: add or update new attributes. *)
Definition update_new_attributes (oldVNode newVNode : vnode) (domNode : option nat) : M unit :=
  for_each (map_to_list (props_of newVNode))
    (λ '(key, value),
       if negb (js_in key (props_of oldVNode))
          || strict_neq (js_get (props_of oldVNode) key) value
       then setAttribute domNode key value
       else ret ()).

(** Lines 105-110: build and append the surplus new children. *)
Definition append_new_children (oldLen : nat) (newVNode : vnode) (domNode : option nat) : M unit :=
  for_each (drop oldLen (children_of newVNode))
    (λ child, let* newElement := createTree child in appendChild domNode newElement).

(** Lines 113-118: remove live children from the end.  Every iteration
    removes one child, so the child count on entry bounds the loop. *)
Definition remove_extra_children (newLen : nat) (domNode : option nat) : M unit :=
  let* len := childNodes_length domNode in
  while (S len)
    (let* n := childNodes_length domNode in ret (bool_decide (newLen < n)))
    (let* c := lastChild domNode in removeChild domNode c).

(** Lines 100-118, after the positional loop. *)
Definition adjust_tail (oldVNode newVNode : vnode) (domNode : option nat) : M unit :=
  let oldLen := length (children_of oldVNode) in
  let newLen := length (children_of newVNode) in
  (if bool_decide (oldLen < newLen) then append_new_children oldLen newVNode domNode else ret ()) >>
  (if bool_decide (newLen < oldLen) then remove_extra_children newLen domNode else ret ()).

Fixpoint diff (oldVNode newVNode : vnode) (domNode : option nat) {struct oldVNode} : M unit :=
  (* lines 89-118: the part after the chain of cases *)
  let diff_children : M unit :=
    match oldVNode with
    | VElem _ _ (Some ocs) =>
        (* for (i = 0; i < minLength; i++) diff(old[i], new[i], childNodes[i]) *)
        for_both (λ i o n, let* c := childNodes_item domNode i in diff o n c)
          0 ocs (children_of newVNode)
    | _ => ret ()                                   (* minLength = 0 *)
    end >>
    adjust_tail oldVNode newVNode domNode in
  if is_string oldVNode && is_string newVNode then
    (* Case 1 *)
    if text_neq oldVNode newVNode
    then set_textContent domNode (match newVNode with VText s => s | _ => "" end)
    else diff_children
  else if is_nullish oldVNode then
    (* Case 2 *)
    let* newDomNode := createTree newVNode in
    appendChild domNode newDomNode
  else if is_nullish newVNode then
    (* Case 3 *)
    let* parent := get_parentNode domNode in
    removeChild parent domNode
  else if negb (bool_decide (type_of oldVNode = type_of newVNode)) then
    (* Case 4 *)
    let* newDomNode := createTree newVNode in
    let* parent := get_parentNode domNode in
    replaceChild parent newDomNode domNode
  else
    (* Case 5 *)
    remove_old_attributes oldVNode newVNode domNode >>
    update_new_attributes oldVNode newVNode domNode >>
    diff_children.

(** ** Well-formed descriptions *)

(** No [null] anywhere: every node is a string or an object. *)
Fixpoint null_free (v : vnode) : bool :=
  match v with
  | VNull => false
  | VText _ => true
  | VElem _ _ (Some cs) => forallb null_free cs
  | VElem _ _ None => true
  end.

(** A description in the sense of the data model: text, or an element with
    a tag name, at every level.  [props] and [children] may be missing. *)
Fixpoint well_formed (v : vnode) : bool :=
  match v with
  | VNull => false
  | VText _ => true
  | VElem ty _ (Some cs) => bool_decide (is_Some ty) && forallb well_formed cs
  | VElem ty _ None => bool_decide (is_Some ty)
  end.

(** No attribute name, at any level, is the name of a property that object
    literals inherit. *)
Fixpoint plain_names (v : vnode) : bool :=
  match v with
  | VElem _ props cs =>
      bool_decide (map_Forall (λ k _, is_inherited k = false) (default ∅ props))
      && match cs with Some l => forallb plain_names l | None => true end
  | _ => true
  end.

(** The host accepts the name, as a tag or as an attribute name, and keeps
    it as it is. *)
Definition kept_tag (k : string) : bool :=
  valid_tag k && bool_decide (fold_name k = k).

Definition kept_attribute (k : string) : bool :=
  valid_attribute k && bool_decide (fold_name k = k).

(** Every tag and attribute name of the description, at any level, is a
    name the host accepts and keeps as it is. *)
Fixpoint host_names (v : vnode) : bool :=
  match v with
  | VElem ty props cs =>
      kept_tag (default "undefined" ty)
      && bool_decide (map_Forall (λ k _, kept_attribute k = true) (default ∅ props))
      && match cs with Some l => forallb host_names l | None => true end
  | _ => true
  end.

(** Every attribute name of the description, at any level, is in the form
    the host folds names to, as the names of a live node are. *)
Fixpoint folded_names (v : vnode) : bool :=
  match v with
  | VElem _ props cs =>
      bool_decide (map_Forall (λ k _, fold_name k = k) (default ∅ props))
      && match cs with Some l => forallb folded_names l | None => true end
  | _ => true
  end.

(** [diff] updates in place exactly when the two [type]s are equal (for two
    strings both are [undefined]), and replaces the node otherwise. *)
Definition same_type (oldVNode newVNode : vnode) : bool :=
  bool_decide (type_of oldVNode = type_of newVNode).

(** ** Live trees

    A live tree names the handles of a subtree of the store together with
    what each node holds. *)
Inductive ltree : Type :=
| LText (id : nat) (data : string)
| LElem (id : nat) (tag : string) (attrs : gmap string string) (kids : list ltree).

Definition root (t : ltree) : nat :=
  match t with LText id _ => id | LElem id _ _ _ => id end.

(** All handles of a live tree, parent first. *)
Fixpoint ids (t : ltree) : list nat :=
  match t with
  | LText id _ => [id]
  | LElem id _ _ kids => id :: mjoin (ids <$> kids)
  end.

(** The store holds the live tree [t] under the parent [par]. *)
Inductive holds (h : gmap nat node) : option nat → ltree → Prop :=
| holds_text par id s :
    h !! id = Some (Node par (Text s)) →
    holds h par (LText id s)
| holds_elem par id tag attrs kids :
    h !! id = Some (Node par (Element tag attrs (root <$> kids))) →
    Forall (holds h (Some id)) kids →
    holds h par (LElem id tag attrs kids).

(** The live tree [t] is what the description [v] describes: same text,
    same tag (the string [undefined] when the description has none),
    exactly the attributes of [props], and the children of [v] in order. *)
Inductive describes : ltree → vnode → Prop :=
| describes_text id s : describes (LText id s) (VText s)
| describes_elem id ty props cs kids :
    Forall2 describes kids (default [] cs) →
    describes (LElem id (default "undefined" ty) (default ∅ props) kids) (VElem ty props cs).

(** Every live node has a handle below [next]. *)
Definition heap_ok (σ : document) : Prop :=
  map_Forall (λ x _, x < next σ) (nodes σ).

(** The handles a logged call mentions. *)
Definition touches (e : mutation) : list nat :=
  match e with
  | SetAttribute n _ _ | RemoveAttribute n _ | SetTextContent n _ => [n]
  | AppendChild p c | RemoveChild p c => [p; c]
  | ReplaceChild p c o => [p; c; o]
  end.

(** ** Predicates and functions of the specification *)

(** The document [σ] with the store [h] and the calls [evs] added to the
    log. *)
Definition with_nodes (σ : document) (h : gmap nat node) (evs : list mutation) : document :=
  Document h (next σ) (log σ ++ evs).

(** One [setAttribute], on the attribute map. *)
Definition set_attr (x : string * string) (a : gmap string string) : gmap string string :=
  <[x.1 := x.2]> a.

(** Every call in [evs] mentions only handles from [n] on. *)
Definition only_touches_from (n : nat) (evs : list mutation) : Prop :=
  ∀ e x, e ∈ evs → x ∈ touches e → n ≤ x.

(** From [σ] to [σ'] exactly the live tree [t] was allocated, for the
    description [v], and nothing else changed. *)
Definition built (σ σ' : document) (t : ltree) (v : vnode) : Prop :=
  root t = next σ ∧
  describes t v ∧
  holds (nodes σ') None t ∧
  NoDup (ids t) ∧
  (∀ x, x ∈ ids t ↔ next σ ≤ x < next σ') ∧
  (∀ x, x < next σ → nodes σ' !! x = nodes σ !! x) ∧
  heap_ok σ' ∧
  ∃ evs, log σ' = log σ ++ evs ∧ only_touches_from (next σ) evs.

(** The state of the [forEach] over the children, after the children
    [done] have been built and appended to the element [el]. *)
Definition building (σ : document) (el : nat) (tag : string) (p : gmap string string)
    (done : list vnode) (σ' : document) : Prop :=
  ∃ kids,
    Forall2 describes kids done ∧
    nodes σ' !! el = Some (Node None (Element tag p (root <$> kids))) ∧
    Forall (holds (nodes σ') (Some el)) kids ∧
    NoDup (mjoin (ids <$> kids)) ∧
    (∀ x, x ∈ mjoin (ids <$> kids) ↔ S el ≤ x < next σ') ∧
    (∀ x, x < el → nodes σ' !! x = nodes σ !! x) ∧
    heap_ok σ' ∧
    ∃ evs, log σ' = log σ ++ evs ∧ only_touches_from el evs.

(** The store holds the tree [t] under [par], no handle occurs twice in
    it, and the store is well formed. *)
Definition live (σ : document) (par : option nat) (t : ltree) : Prop :=
  holds (nodes σ) par t ∧ NoDup (ids t) ∧ heap_ok σ.

(** Lines 89-118. *)
Definition diff_children (oldVNode newVNode : vnode) (domNode : option nat) : M unit :=
  for_both (λ i o n, let* c := childNodes_item domNode i in diff o n c) 0
    (children_of oldVNode) (children_of newVNode) >>
  adjust_tail oldVNode newVNode domNode.

(** Lines 66-67: build the new subtree, then put it in the place of the
    live node. *)
Definition rebuild_and_replace (newVNode : vnode) (domNode : option nat) : M unit :=
  let* newDomNode := createTree newVNode in
  let* parent := get_parentNode domNode in
  replaceChild parent newDomNode domNode.

(** One iteration of the loop of lines 76-80, and one of the loop of lines
    82-86, on the attribute map of the live node. *)
Definition remove_step (pn : gmap string string) (x : string * string)
    (a : gmap string string) : gmap string string :=
  if negb (js_in x.1 pn) then delete x.1 a else a.

Definition update_step (po : gmap string string) (x : string * string)
    (a : gmap string string) : gmap string string :=
  if negb (js_in x.1 po) || strict_neq (js_get po x.1) x.2 then <[x.1 := x.2]> a else a.

(** The attributes of the live node after both loops, when it started with
    the attributes [a]. *)
Definition diffed_attrs (po pn a : gmap string string) : gmap string string :=
  foldl (λ a x, update_step po x a)
        (foldl (λ a x, remove_step pn x a) a (map_to_list po))
        (map_to_list pn).

(** The calls the two loops make. *)
Definition attr_events (id : nat) (po pn : gmap string string) : list mutation :=
  mjoin ((λ x : string * string,
           if negb (js_in x.1 pn) then [RemoveAttribute id x.1] else []) <$> map_to_list po)
  ++ mjoin ((λ x : string * string,
              if negb (js_in x.1 po) || strict_neq (js_get po x.1) x.2
              then [SetAttribute id x.1 x.2] else []) <$> map_to_list pn).

(** The live node [c] is the [i]-th child of the element [par]. *)
Definition attached (σ : document) (par : option nat) (i c : nat) : Prop :=
  ∃ p pn tag attrs ks,
    par = Some p ∧ nodes σ !! p = Some (Node pn (Element tag attrs ks)) ∧
    ks !! i = Some c ∧ NoDup ks.

(** [t] is the live tree of the description [oldVNode]; when the node has
    to be replaced it sits at position [i] of a parent. *)
Definition reconcilable (oldVNode newVNode : vnode) (par : option nat) (i : nat)
    (t : ltree) (σ : document) : Prop :=
  well_formed oldVNode = true ∧
  well_formed newVNode = true ∧
  describes t oldVNode ∧
  live σ par t ∧
  (∀ p, par = Some p → p ∉ ids t) ∧
  (same_type oldVNode newVNode = false → attached σ par i (root t)).

(** After the call the live tree [t'] is at the place of [t]. *)
Definition reconciled (oldVNode newVNode : vnode) (par : option nat) (i : nat)
    (t : ltree) (σ σ' : document) (t' : ltree) : Prop :=
  live σ' par t' ∧
  (same_type oldVNode newVNode = true → root t' = root t) ∧
  (same_type oldVNode newVNode = false → next σ ≤ root t') ∧
  (∀ x, x ∈ ids t' → x ∈ ids t ∨ next σ ≤ x) ∧
  next σ ≤ next σ' ∧
  (∀ x, x < next σ → x ∉ ids t → Some x ≠ par → nodes σ' !! x = nodes σ !! x) ∧
  (∀ p pn tag attrs ks,
     par = Some p → nodes σ !! p = Some (Node pn (Element tag attrs ks)) →
     ks !! i = Some (root t) → NoDup ks →
     nodes σ' !! p = Some (Node pn (Element tag attrs (<[i := root t']> ks)))) ∧
  (plain_names oldVNode = true → describes t' newVNode).

(** [diff] does this for the old description [oldVNode], whatever the new
    one is, when the attribute names of the old one are in folded form and
    the host keeps the names of the new one. *)
Definition diff_correct (oldVNode : vnode) : Prop :=
  ∀ newVNode par i t σ,
    reconcilable oldVNode newVNode par i t σ →
    folded_names oldVNode = true → host_names newVNode = true →
    ∃ σ' t', diff oldVNode newVNode (Some (root t)) σ = (Ok (), σ') ∧
             reconciled oldVNode newVNode par i t σ σ' t'.

(** What the loop does to one child. *)
Definition child_result (σ : document) (o n : vnode) (t t' : ltree) : Prop :=
  (same_type o n = true → root t' = root t) ∧
  (same_type o n = false → next σ ≤ root t') ∧
  (plain_names o = true → describes t' n).

(** What the reconciliation does to the child list [kids] of the live
    element: the common positions are reconciled in place, surplus new
    children are freshly built at the end, surplus old children are taken
    out and left intact. *)
Definition children_reconciled (oldVNode newVNode : vnode) (kids kids' : list ltree)
    (σ σ' : document) : Prop :=
  length kids' = length (children_of newVNode) ∧
  (∀ j o n t,
     children_of oldVNode !! j = Some o → children_of newVNode !! j = Some n →
     kids !! j = Some t →
     ∃ t', kids' !! j = Some t' ∧ child_result σ o n t t') ∧
  (∀ j n,
     length (children_of oldVNode) ≤ j → children_of newVNode !! j = Some n →
     ∃ t', kids' !! j = Some t' ∧ describes t' n ∧ ∀ x, x ∈ ids t' → next σ ≤ x) ∧
  (∀ j t,
     length (children_of newVNode) ≤ j → kids !! j = Some t →
     holds (nodes σ') None t).

(** The number of nodes of a description. *)
Fixpoint node_count (v : vnode) : nat :=
  match v with
  | VNull => 0
  | VText _ => 1
  | VElem _ _ (Some cs) => S (list_sum (map node_count cs))
  | VElem _ _ None => 1
  end.

(** [createTree] can build the description: it holds no [null] and the
    host accepts every tag and attribute name in it. *)
Fixpoint buildable (v : vnode) : bool :=
  match v with
  | VNull => false
  | VText _ => true
  | VElem ty props cs =>
      valid_tag (default "undefined" ty)
      && bool_decide (map_Forall (λ k _, valid_attribute k = true) (default ∅ props))
      && match cs with Some l => forallb buildable l | None => true end
  end.

(** The store holds at [id] a tree of the shape of [v], whatever its tags
    and attributes, made of handles from [lo] on. *)
Inductive mirrors (lo : nat) (h : gmap nat node) : nat → vnode → Prop :=
| mirrors_text id par s :
    lo ≤ id → h !! id = Some (Node par (Text s)) → mirrors lo h id (VText s)
| mirrors_elem id par tag attrs ks ty props cs :
    lo ≤ id → h !! id = Some (Node par (Element tag attrs ks)) →
    Forall2 (mirrors lo h) ks (default [] cs) →
    mirrors lo h id (VElem ty props cs).

(** What [createTree] does on any description. *)
Definition createTree_outcome (v : vnode) : Prop :=
  ∀ σ, heap_ok σ →
    ∃ r σ', createTree v σ = (r, σ') ∧
            heap_ok σ' ∧ next σ ≤ next σ' ∧
            (∀ x, x < next σ → nodes σ' !! x = nodes σ !! x) ∧
            match r with
            | Ok n => buildable v = true ∧ n = next σ ∧
                      (∃ k, nodes σ' !! n = Some (Node None k)) ∧
                      mirrors (next σ) (nodes σ') n v
            | Throw e => buildable v = false ∧ (e = TypeError ∨ e = InvalidCharacterError)
            | Diverge => False
            end.

(** The node whose attributes or text a logged call writes. *)
Definition written (e : mutation) : option nat :=
  match e with
  | SetAttribute n _ _ | RemoveAttribute n _ | SetTextContent n _ => Some n
  | _ => None
  end.

(** The calls [evs] write only on nodes of [l] or on nodes from [n] on. *)
Definition writes_within (l : list nat) (n : nat) (evs : list mutation) : Prop :=
  ∀ e x, e ∈ evs → written e = Some x → x ∈ l ∨ n ≤ x.

(** A handle of [l], or one from [n0] on. *)
Definition within (l : list nat) (n0 x : nat) : Prop := x ∈ l ∨ n0 ≤ x.

(** The children of the nodes within are within. *)
Definition closed (l : list nat) (n0 : nat) (h : gmap nat node) : Prop :=
  ∀ x n c, within l n0 x → h !! x = Some n → c ∈ child_list n → within l n0 c.

(** Since [σ0] no handle was taken back, the nodes within have kept their
    children within, and every write was on a node within. *)
Definition contained (l : list nat) (σ0 σ : document) : Prop :=
  next σ0 ≤ next σ ∧ closed l (next σ0) (nodes σ) ∧
  ∃ evs, log σ = log σ0 ++ evs ∧ writes_within l (next σ0) evs.

(** Whatever its outcome, [m] keeps the document contained; when it
    returns, the result satisfies [P]. *)
Definition stays {A} (l : list nat) (σ0 : document) (m : M A) (P : A → Prop) : Prop :=
  ∀ σ, contained l σ0 σ → contained l σ0 (m σ).2 ∧ ∀ a, (m σ).1 = Ok a → P a.

(** ** Concrete descriptions and documents *)

Definition empty_document : document := Document ∅ 0 [].

(** The document in which [createTree v] has just run. *)
Definition document_of (v : vnode) : document := (createTree v empty_document).2.

Definition div_hi : vnode :=
  VElem (Some "div") (Some {["class" := "a"]}) (Some [VText "hi"]).
Definition div_bye : vnode :=
  VElem (Some "div") (Some {["class" := "b"]}) (Some [VText "bye"]).

Definition p_empty : vnode := VElem (Some "p") None None.

Definition ul_abc : vnode := VElem (Some "ul") None (Some [VText "a"; VText "b"; VText "c"]).

(** The attributes of the live node [id], when it is an element. *)
Definition attributes_of (σ : document) (id : nat) : option (gmap string string) :=
  match nodes σ !! id with
  | Some (Node _ (Element _ attrs _)) => Some attrs
  | _ => None
  end.

(** The children of the live node [id]. *)
Definition children_at (σ : document) (id : nat) : list nat :=
  match nodes σ !! id with
  | Some n => child_list n
  | None => []
  end.

Definition section_div : vnode :=
  VElem (Some "section") None (Some [VElem (Some "div") (Some {["a" := "1"]}) None]).
Definition div_a1 : vnode := VElem (Some "div") (Some {["a" := "1"]}) None.
Definition span_empty : vnode := VElem (Some "span") None None.

Definition div_constructor : vnode :=
  VElem (Some "div") (Some {["constructor" := "x"]}) None.
Definition div_no_attributes : vnode := VElem (Some "div") (Some ∅) None.

Definition div_bare : vnode := VElem (Some "div") None None.

(** Names that an HTML document rejects, or does not keep as they are. *)
Definition bad_name : vnode := VElem (Some "bad name") None None.
Definition ul_li_bad : vnode :=
  VElem (Some "ul") None (Some [VElem (Some "li") None None; bad_name]).
Definition div_Class : vnode := VElem (Some "div") (Some {["Class" := "a"]}) None.

Definition untagged_a1 : vnode := VElem None (Some {["a" := "1"]}) None.
Definition untagged_a2 : vnode := VElem None (Some {["a" := "2"]}) None.

End model.

(** * Titles and profiles (E3/e3/e3.js) *)

(** ** Strings

    A string is the sequence of its UTF-8 bytes; [' '] and ['-'] are one
    byte each and occur in no other character's encoding, so [split(' ')]
    and [join('-')] act on bytes as they act on characters. [toLowerCase]
    is the host's function and is left open. *)

(** [s.split(sep)] for a separator of one character. *)
Fixpoint split (sep : Ascii.ascii) (s : string) : list string :=
  match s with
  | EmptyString => [""]
  | String c s' =>
      if Ascii.eqb c sep then "" :: split sep s'
      else match split sep s' with
           | w :: ws => String c w :: ws
           | [] => [String c ""]
           end
  end.

(** [l.join(sep)] *)
Fixpoint join (sep : string) (l : list string) : string :=
  match l with
  | [] => ""
  | w :: ws => match ws with
               | [] => w
               | _ :: _ => w +:+ sep +:+ join sep ws
               end
  end.

(** [s.startsWith(p)] *)
Fixpoint startsWith (p s : string) : bool :=
  match p, s with
  | EmptyString, _ => true
  | String a p', String b s' => Ascii.eqb a b && startsWith p' s'
  | String _ _, EmptyString => false
  end.

(** [s.includes(sub)] *)
Fixpoint includes (sub s : string) : bool :=
  startsWith sub s ||
  match s with
  | EmptyString => false
  | String _ s' => includes sub s'
  end.

(** ** Word counts

    The accumulator of [wordFrequency] starts as the object literal [{}]:
    reading [wc[word]] finds the properties of [Object.prototype] too. A
    stored value is a number or, once [+ 1] has been applied to a function,
    an object or a string, a string. *)
Inductive tally : Type :=
| Count (n : nat)
| Concatenated.

(** [wc[word]]: [None] is [undefined]. *)
Definition read_tally (wc : gmap string tally) (word : string) : option tally :=
  match wc !! word with
  | Some v => Some v
  | None => if is_inherited word then Some Concatenated else None
  end.

(** [(x || 0) + 1] *)
Definition or_zero_plus_one (x : option tally) : tally :=
  match x with
  | None => Count 1
  | Some (Count n) => Count (n + 1)
  | Some Concatenated => Concatenated
  end.

(** [wc[word] = v] for a [v] that is no object: the setter of [__proto__]
    ignores it and no own property is made. *)
Definition write_tally (wc : gmap string tally) (word : string) (v : tally)
    : gmap string tally :=
  if String.eqb word "__proto__" then wc else <[word := v]> wc.

Section E3.
Variable toLowerCase : string → string.

(** The callback of lines 15, 28 and 139. *)
Definition slug (title : string) : string :=
  join "-" (split " "%char (toLowerCase title)).

(** Lines 12-17. *)
Definition generateIds (titles : list string) : list string :=
  slug <$> titles.

(** Lines 25-29. *)
Definition highlightImportant (titles : list string) : list string :=
  slug <$> filter (λ title, includes "Important" title = true) titles.

(** Lines 37-45. *)
Definition wordFrequency (titles : list string) : gmap string tally :=
  let words := titles ≫= (λ title, split " "%char (toLowerCase title)) in
  foldl (λ wc word, write_tally wc word (or_zero_plus_one (read_tally wc word)))
        ∅ words.
End E3.

Section Profiles.
Context {value : Type}.

(** Lines 95-99: [{ ...user, ...updates }]; spreading [null] or
    [undefined] ([None]) copies nothing. *)
Definition updateUser (user updates : option (gmap string value))
    : gmap string value :=
  default ∅ updates ∪ default ∅ user.

(** Lines 107-112: destructuring [null] or [undefined] throws. *)
Definition removeSensitive (user : option (gmap string value))
    : outcome (gmap string value) :=
  match user with
  | None => Throw TypeError
  | Some u => Ok (delete "password" u)
  end.
End Profiles.

(** The specification's view of [generateIds]: each space becomes a hyphen. *)
Fixpoint replace_char (a b : Ascii.ascii) (s : string) : string :=
  match s with
  | EmptyString => EmptyString
  | String c s' => String (if Ascii.eqb c a then b else c) (replace_char a b s')
  end.

(** The number of times [word] occurs among the words of the titles. *)
Definition occurrences (toLowerCase : string → string) (word : string)
    (titles : list string) : nat :=
  length (filter (λ w, w = word) (titles ≫= (λ title, split " "%char (toLowerCase title)))).

(** The stored value after [n] occurrences of a word that [{}] does not
    inherit. *)
Definition counted (n : nat) : option tally :=
  match n with
  | 0 => None
  | S _ => Some (Count n)
  end.

(** [toLowerCase] on a string of ASCII characters. *)
Definition ascii_lower (c : Ascii.ascii) : Ascii.ascii :=
  let n := Ascii.nat_of_ascii c in
  if (65 <=? n) && (n <=? 90) then Ascii.ascii_of_nat (n + 32) else c.

Fixpoint ascii_toLowerCase (s : string) : string :=
  match s with
  | EmptyString => EmptyString
  | String c s' => String (ascii_lower c) (ascii_toLowerCase s')
  end.

(** ** An HTML document

    For names of ASCII characters: a name is accepted when it is a letter,
    [_] or [:] followed by letters, digits, [-], [.], [_] and [:] (the Name
    production of XML on ASCII), and it is lower-cased.  The concrete runs
    below are on this host. *)
Definition name_start (c : Ascii.ascii) : bool :=
  let n := Ascii.nat_of_ascii c in
  ((65 <=? n) && (n <=? 90)) || ((97 <=? n) && (n <=? 122)) || (n =? 95) || (n =? 58).

Definition name_char (c : Ascii.ascii) : bool :=
  let n := Ascii.nat_of_ascii c in
  name_start c || ((48 <=? n) && (n <=? 57)) || (n =? 45) || (n =? 46).

Fixpoint name_chars (s : string) : bool :=
  match s with
  | EmptyString => true
  | String c s' => name_char c && name_chars s'
  end.

Definition ascii_name (s : string) : bool :=
  match s with
  | EmptyString => false
  | String c s' => name_start c && name_chars s'
  end.

Definition html_names : name_rules := NameRules ascii_name ascii_name ascii_toLowerCase.
#[global] Existing Instance html_names.

(** * Properties of createTree and diff *)

Section reconciliation.
Context {host : name_rules}.

(** ** Induction principles for the nested types *)

Lemma vnode_nested_ind (P : vnode → Prop) :
  P VNull →
  (∀ s, P (VText s)) →
  (∀ ty props cs, Forall P (default [] cs) → P (VElem ty props cs)) →
  ∀ v, P v.
Proof.
  intros HN HT HE. fix IH 1. intros [| s | ty props cs].
  - exact HN.
  - apply HT.
  - apply HE. destruct cs as [l|]; simpl; [|constructor].
    induction l as [|c l IHl]; constructor; [apply IH | exact IHl].
Qed.

Lemma ltree_nested_ind (P : ltree → Prop) :
  (∀ id s, P (LText id s)) →
  (∀ id tag attrs kids, Forall P kids → P (LElem id tag attrs kids)) →
  ∀ t, P t.
Proof.
  intros HT HE. fix IH 1. intros [id s | id tag attrs kids].
  - apply HT.
  - apply HE. induction kids as [|k kids IHk]; constructor; [apply IH | exact IHk].
Qed.

(** ** Running the monad *)

Lemma bind_ok {A B} (m : M A) (f : A → M B) σ a σ' :
  m σ = (Ok a, σ') → bind m f σ = f a σ'.
Proof. intros H. unfold bind. by rewrite H. Qed.

Lemma for_each_cons {A} (x : A) (xs : list A) (body : A → M unit) :
  for_each (x :: xs) body = bind (body x) (λ _, for_each xs body).
Proof. reflexivity. Qed.

Lemma for_both_cons {A B} (body : nat → A → B → M unit) i x xs y ys :
  for_both body i (x :: xs) (y :: ys)
  = bind (body i x y) (λ _, for_both body (S i) xs ys).
Proof. reflexivity. Qed.

Lemma for_both_nil_r {A B} (body : nat → A → B → M unit) i xs :
  for_both body i xs [] = ret ().
Proof. by destruct xs. Qed.

(** A loop whose body keeps an invariant, indexed by the elements already
    processed, runs to completion and establishes it for the whole list. *)
Lemma for_each_inv {A} (I : list A → document → Prop) (l : list A)
    (body : A → M unit) :
  (∀ done x rest σ, l = done ++ x :: rest → I done σ →
     ∃ σ', body x σ = (Ok (), σ') ∧ I (done ++ [x]) σ') →
  ∀ σ, I [] σ → ∃ σ', for_each l body σ = (Ok (), σ') ∧ I l σ'.
Proof.
  intros Hbody.
  cut (∀ rest done σ, l = done ++ rest → I done σ →
         ∃ σ', for_each rest body σ = (Ok (), σ') ∧ I l σ').
  { intros H σ HI. by apply (H l [] σ). }
  induction rest as [|x rest IH]; intros done σ Hl HI.
  - exists σ. rewrite app_nil_r in Hl. by subst.
  - destruct (Hbody done x rest σ Hl HI) as (σ1 & Hx & HI1).
    destruct (IH (done ++ [x]) σ1) as (σ' & Hrest & HI'); [by rewrite <- app_assoc | done |].
    exists σ'. split; [|done].
    rewrite for_each_cons. by rewrite (bind_ok _ _ _ _ _ Hx).
Qed.

Lemma for_each_skip {A} (l : list A) (body : A → M unit) σ :
  (∀ x, x ∈ l → body x σ = (Ok (), σ)) →
  for_each l body σ = (Ok (), σ).
Proof.
  induction l as [|x l IH]; intros H; [done|].
  rewrite for_each_cons, (bind_ok _ _ σ () σ).
  - apply IH. intros y Hy. apply H. by right.
  - apply H. by left.
Qed.

(** ** What the primitives do on a store of the expected shape *)

Lemma with_nodes_id σ : with_nodes σ (nodes σ) [] = σ.
Proof. destruct σ. unfold with_nodes. simpl. by rewrite app_nil_r. Qed.

Lemma kept_tag_valid k : kept_tag k = true → valid_tag k = true.
Proof. unfold kept_tag. by intros [? _]%andb_true_iff. Qed.

Lemma kept_tag_folded k : kept_tag k = true → fold_name k = k.
Proof. unfold kept_tag. by intros [_ ?%bool_decide_eq_true]%andb_true_iff. Qed.

Lemma kept_attribute_valid k : kept_attribute k = true → valid_attribute k = true.
Proof. unfold kept_attribute. by intros [? _]%andb_true_iff. Qed.

Lemma kept_attribute_folded k : kept_attribute k = true → fold_name k = k.
Proof. unfold kept_attribute. by intros [_ ?%bool_decide_eq_true]%andb_true_iff. Qed.

Lemma createElement_run σ tag :
  kept_tag tag = true →
  createElement tag σ
  = (Ok (next σ), Document (<[next σ := Node None (Element tag ∅ [])]> (nodes σ))
                    (S (next σ)) (log σ)).
Proof.
  intros Hk. unfold createElement.
  by rewrite (kept_tag_valid _ Hk), (kept_tag_folded _ Hk).
Qed.

Lemma createElement_invalid σ tag :
  valid_tag tag = false → createElement tag σ = (Throw InvalidCharacterError, σ).
Proof. intros Hk. unfold createElement. by rewrite Hk. Qed.

Lemma setAttribute_run σ id par tag attrs cs key value :
  nodes σ !! id = Some (Node par (Element tag attrs cs)) →
  kept_attribute key = true →
  setAttribute (Some id) key value σ
  = (Ok (), with_nodes σ (<[id := Node par (Element tag (<[key := value]> attrs) cs)]> (nodes σ))
              [SetAttribute id key value]).
Proof.
  intros Hid Hk. unfold setAttribute, bind, deref. rewrite Hid. cbn [kind].
  rewrite (kept_attribute_valid _ Hk), (kept_attribute_folded _ Hk). reflexivity.
Qed.

Lemma setAttribute_invalid σ id par tag attrs cs key value :
  nodes σ !! id = Some (Node par (Element tag attrs cs)) →
  valid_attribute key = false →
  setAttribute (Some id) key value σ = (Throw InvalidCharacterError, σ).
Proof.
  intros Hid Hk. unfold setAttribute, bind, deref. rewrite Hid. cbn [kind].
  by rewrite Hk.
Qed.

Lemma removeAttribute_run σ id par tag attrs cs key :
  nodes σ !! id = Some (Node par (Element tag attrs cs)) →
  fold_name key = key →
  removeAttribute (Some id) key σ
  = (Ok (), with_nodes σ (<[id := Node par (Element tag (delete key attrs) cs)]> (nodes σ))
              [RemoveAttribute id key]).
Proof.
  intros Hid Hk. unfold removeAttribute, bind, deref. rewrite Hid, Hk. reflexivity.
Qed.

Lemma set_textContent_run σ id par s s' :
  nodes σ !! id = Some (Node par (Text s)) →
  set_textContent (Some id) s' σ
  = (Ok (), with_nodes σ (<[id := Node par (Text s')]> (nodes σ)) [SetTextContent id s']).
Proof.
  intros H. unfold set_textContent, bind, deref. rewrite H. reflexivity.
Qed.

Lemma appendChild_run σ p pp tag attrs cs c k :
  nodes σ !! p = Some (Node pp (Element tag attrs cs)) →
  nodes σ !! c = Some (Node None k) →
  c ≠ p →
  appendChild (Some p) c σ
  = (Ok (), with_nodes σ (<[c := Node (Some p) k]>
                           (<[p := Node pp (Element tag attrs (cs ++ [c]))]> (nodes σ)))
              [AppendChild p c]).
Proof.
  intros Hp Hc Hne. unfold appendChild, bind, deref. rewrite Hp. simpl. rewrite Hc. simpl.
  unfold with_nodes, detach, set_children, set_parent. rewrite Hc, Hp.
  rewrite lookup_insert_ne by done. rewrite Hc. reflexivity.
Qed.

Lemma remove_from_last (l : list nat) c :
  NoDup (l ++ [c]) → remove_from c (l ++ [c]) = l.
Proof.
  intros [Hl [Hc _]]%NoDup_app. unfold remove_from.
  rewrite filter_app. rewrite filter_cons_False, filter_nil, app_nil_r by (intros ?; done).
  induction l as [|x l IH]; [done|].
  rewrite filter_cons_True.
  - f_equal. apply IH; [by inversion Hl|]. intros y Hy. apply Hc. by right.
  - intros ->. apply (Hc c); [by left | by left].
Qed.

Lemma removeChild_last_run σ p pp tag attrs cs c cpar k :
  nodes σ !! p = Some (Node pp (Element tag attrs (cs ++ [c]))) →
  nodes σ !! c = Some (Node cpar k) →
  NoDup (cs ++ [c]) →
  c ≠ p →
  removeChild (Some p) (Some c) σ
  = (Ok (), with_nodes σ (<[c := Node None k]>
                           (<[p := Node pp (Element tag attrs cs)]> (nodes σ)))
              [RemoveChild p c]).
Proof.
  intros Hp Hc Hnd Hne. unfold removeChild, bind, deref. rewrite Hp. simpl. rewrite Hc. simpl.
  rewrite bool_decide_eq_true_2 by (apply elem_of_app; right; by left).
  unfold with_nodes, set_children, set_parent. simpl. rewrite Hp.
  rewrite lookup_insert_ne by done. rewrite Hc. simpl.
  by rewrite remove_from_last.
Qed.

Lemma replace_in_list (l : list nat) i o c :
  l !! i = Some o → NoDup l →
  (λ x, if decide (x = o) then c else x) <$> l = <[i := c]> l.
Proof.
  revert i. induction l as [|x l IH]; intros i Hi Hnd; [done|].
  inversion Hnd as [|? ? Hx Hl]; subst. destruct i as [|i]; simpl in *.
  - simplify_eq. rewrite decide_True by done. f_equal.
    clear IH Hnd Hl. induction l as [|y l IH]; [done|]. simpl.
    rewrite decide_False.
    + f_equal. apply IH. intros ?. apply Hx. by right.
    + intros ->. apply Hx. by left.
  - rewrite decide_False.
    + f_equal. by apply IH.
    + intros ->. apply Hx. by eapply list_elem_of_lookup_2.
Qed.

Lemma replaceChild_run σ p pp tag attrs cs i o opar ko c kc :
  nodes σ !! p = Some (Node pp (Element tag attrs cs)) →
  cs !! i = Some o →
  NoDup cs →
  nodes σ !! o = Some (Node opar ko) →
  nodes σ !! c = Some (Node None kc) →
  c ≠ p → c ≠ o → o ≠ p →
  replaceChild (Some p) c (Some o) σ
  = (Ok (), with_nodes σ (<[o := Node None ko]>
                           (<[c := Node (Some p) kc]>
                              (<[p := Node pp (Element tag attrs (<[i := c]> cs))]> (nodes σ))))
              [ReplaceChild p c o]).
Proof.
  intros Hp Hi Hnd Ho Hc Hcp Hco Hop.
  unfold replaceChild, bind, deref. rewrite Hp. simpl. rewrite Ho. simpl.
  rewrite bool_decide_eq_true_2 by (by eapply list_elem_of_lookup_2).
  rewrite Hc. simpl.
  unfold with_nodes, detach, set_children, set_parent. rewrite Hc, Hp.
  rewrite lookup_insert_ne by done. rewrite Hc.
  rewrite lookup_insert_ne by done. rewrite lookup_insert_ne by done. rewrite Ho. simpl.
  by rewrite (replace_in_list cs i o c).
Qed.

Lemma get_parentNode_run σ id n :
  nodes σ !! id = Some n →
  get_parentNode (Some id) σ = (Ok (parentNode n), σ).
Proof. intros H. unfold get_parentNode, bind, deref. by rewrite H. Qed.

Lemma childNodes_item_run σ id n i :
  nodes σ !! id = Some n →
  childNodes_item (Some id) i σ = (Ok (child_list n !! i), σ).
Proof. intros H. unfold childNodes_item, bind, deref. by rewrite H. Qed.

Lemma childNodes_length_run σ id n :
  nodes σ !! id = Some n →
  childNodes_length (Some id) σ = (Ok (length (child_list n)), σ).
Proof. intros H. unfold childNodes_length, bind, deref. by rewrite H. Qed.

Lemma lastChild_run σ id n :
  nodes σ !! id = Some n →
  lastChild (Some id) σ = (Ok (last (child_list n)), σ).
Proof. intros H. unfold lastChild, bind, deref. by rewrite H. Qed.

(** ** Live trees in the store *)

Lemma root_in_ids t : root t ∈ ids t.
Proof. destruct t; simpl; by left. Qed.

Lemma ids_kid (kids : list ltree) k x :
  k ∈ kids → x ∈ ids k → x ∈ mjoin (ids <$> kids).
Proof.
  intros Hk Hx. apply list_elem_of_join. exists (ids k). split; [done|].
  by apply list_elem_of_fmap_2.
Qed.

Lemma holds_root h par t :
  holds h par t → ∃ k, h !! root t = Some (Node par k).
Proof. inversion 1; subst; simpl; eauto. Qed.

(** [holds] only looks at the handles of the tree. *)
Lemma holds_agree h h' par t :
  holds h par t → (∀ x, x ∈ ids t → h' !! x = h !! x) → holds h' par t.
Proof.
  revert par. induction t as [id s | id tag attrs kids IH] using ltree_nested_ind;
    intros par Hh Hag; inversion Hh; subst.
  - constructor. rewrite Hag; [done | by left].
  - constructor.
    + rewrite Hag; [done | by left].
    + rewrite Forall_forall in IH. apply Forall_forall. intros k Hk.
      apply IH; [done | by eapply Forall_forall in H5 |].
      intros x Hx. apply Hag. simpl. right. by eapply ids_kid.
Qed.

Lemma holds_lt σ par t x :
  heap_ok σ → holds (nodes σ) par t → x ∈ ids t → x < next σ.
Proof.
  intros Hok. revert par x.
  induction t as [id s | id tag attrs kids IH] using ltree_nested_ind;
    intros par x Hh Hx; inversion Hh; subst; simpl in Hx.
  - apply list_elem_of_singleton in Hx as ->. by eapply Hok.
  - apply elem_of_cons in Hx as [-> | Hx]; [by eapply Hok|].
    apply list_elem_of_join in Hx as (l & Hx & Hl).
    apply list_elem_of_fmap in Hl as (k & -> & Hk).
    rewrite Forall_forall in IH. eapply IH; [done | | done].
    by eapply Forall_forall in H5.
Qed.

(** Giving the root of a tree a new parent. *)
Lemma holds_reparent h par par' t k :
  holds h par t → NoDup (ids t) → h !! root t = Some (Node par k) →
  holds (<[root t := Node par' k]> h) par' t.
Proof.
  intros Hh Hnd Hr. inversion Hh; subst; simpl in *.
  - constructor. rewrite lookup_insert_eq. by simplify_eq.
  - constructor.
    + rewrite lookup_insert_eq. by simplify_eq.
    + apply Forall_forall. intros c Hc. eapply holds_agree.
      * by eapply Forall_forall in H0.
      * intros x Hx. rewrite lookup_insert_ne; [done|].
        intros <-. apply NoDup_cons in Hnd as [Hid _]. apply Hid.
        by eapply ids_kid.
Qed.

Lemma roots_in_ids (kids : list ltree) x :
  x ∈ root <$> kids → x ∈ mjoin (ids <$> kids).
Proof.
  intros (k & -> & Hk)%list_elem_of_fmap. eapply ids_kid; [done | apply root_in_ids].
Qed.

Lemma NoDup_roots (kids : list ltree) :
  NoDup (mjoin (ids <$> kids)) → NoDup (root <$> kids).
Proof.
  induction kids as [|k kids IH]; simpl; [constructor|].
  intros (Hk & Hdisj & Hrest)%NoDup_app. constructor; [|by apply IH].
  intros Hin. apply (Hdisj (root k)); [apply root_in_ids | by apply roots_in_ids].
Qed.

(** ** Attribute loops *)

Lemma with_nodes_with_nodes σ h1 e1 h2 e2 :
  with_nodes (with_nodes σ h1 e1) h2 e2 = with_nodes σ h2 (e1 ++ e2).
Proof. unfold with_nodes. simpl. by rewrite app_assoc. Qed.

(** A loop whose body edits the attributes of one element, or does
    nothing, edits them by the fold of the edits. *)
Lemma attr_loop_run {A} id par tag cs (g : A → gmap string string → gmap string string)
    (ev : A → list mutation) (body : A → M unit) (l : list A) :
  (∀ x a σ, x ∈ l → nodes σ !! id = Some (Node par (Element tag a cs)) →
     body x σ = (Ok (), with_nodes σ (<[id := Node par (Element tag (g x a) cs)]> (nodes σ)) (ev x))) →
  ∀ a σ, nodes σ !! id = Some (Node par (Element tag a cs)) →
  for_each l body σ
  = (Ok (), with_nodes σ (<[id := Node par (Element tag (foldl (λ a x, g x a) a l) cs)]> (nodes σ))
              (mjoin (ev <$> l))).
Proof.
  induction l as [|x l IH]; intros Hbody a σ Hid.
  - simpl. rewrite insert_id by done. by rewrite with_nodes_id.
  - rewrite for_each_cons, (bind_ok _ _ _ _ _ (Hbody x a σ ltac:(by left) Hid)).
    rewrite (IH (λ y b τ Hy, Hbody y b τ ltac:(by right)) (g x a))
      by (simpl; apply lookup_insert_eq).
    rewrite with_nodes_with_nodes. simpl. by rewrite insert_insert_eq.
Qed.

Lemma foldl_set_attr (l : list (string * string)) (a : gmap string string) :
  NoDup l.*1 → foldl (λ a x, set_attr x a) a l = list_to_map l ∪ a.
Proof.
  revert a. induction l as [|[k v] l IH]; intros a Hnd; simpl.
  - by rewrite (left_id_L ∅ (∪)).
  - apply NoDup_cons in Hnd as [Hk Hnd]. rewrite IH by done. unfold set_attr. simpl.
    rewrite <- insert_union_l. rewrite <- insert_union_r; [done|].
    by apply not_elem_of_list_to_map_1.
Qed.

Lemma foldl_set_attr_all (p : gmap string string) :
  foldl (λ a x, set_attr x a) ∅ (map_to_list p) = p.
Proof.
  rewrite foldl_set_attr by apply NoDup_fst_map_to_list.
  by rewrite list_to_map_to_list, (right_id_L ∅ (∪)).
Qed.

Lemma join_singletons {A B} (f : A → B) (l : list A) :
  mjoin ((λ x, [f x]) <$> l) = f <$> l.
Proof. induction l as [|x l IH]; [done|]. simpl. by f_equal. Qed.

(** Lines 17-19 of [createTree]. *)
Lemma set_attributes_run σ el par tag cs (p : gmap string string) :
  nodes σ !! el = Some (Node par (Element tag ∅ cs)) →
  map_Forall (λ k _, kept_attribute k = true) p →
  for_each (map_to_list p) (λ '(key, value), setAttribute (Some el) key value) σ
  = (Ok (), with_nodes σ (<[el := Node par (Element tag p cs)]> (nodes σ))
              ((λ x, SetAttribute el x.1 x.2) <$> map_to_list p)).
Proof.
  intros Hel Hp.
  erewrite (attr_loop_run el par tag cs set_attr (λ x, [SetAttribute el x.1 x.2])); [| |done].
  - by rewrite foldl_set_attr_all, join_singletons.
  - intros [k v] a σ1 Hkv%elem_of_map_to_list H1.
    apply setAttribute_run; [done|]. by eapply Hp.
Qed.

(** ** createTree builds one fresh subtree *)

Lemma createTree_elem ty props cs :
  createTree (VElem ty props cs)
  = (let* el := createElement (tag_string ty) in
     for_each (map_to_list (default ∅ props))
       (λ '(key, value), setAttribute (Some el) key value) >>
     for_each (default [] cs)
       (λ child, let* c := createTree child in appendChild (Some el) c) >>
     ret el).
Proof. by destruct cs. Qed.

Lemma build_child_step σ el tag p done σ1 x :
  building σ el tag p done σ1 →
  (∃ t σ2, createTree x σ1 = (Ok (next σ1), σ2) ∧ built σ1 σ2 t x) →
  ∃ σ3, (let* c := createTree x in appendChild (Some el) c) σ1 = (Ok (), σ3) ∧
        building σ el tag p (done ++ [x]) σ3.
Proof.
  intros (kids & Hdesc & Hel & Hkids & Hnd & Hrange & Hframe & Hok & evs & Hlog & Hevs)
         (t & σ2 & Hrun & Hroot & Hdt & Hht & Hndt & Hranget & Hframet & Hok2 & evs2 & Hlog2 & Hevs2).
  assert (Hel1 : el < next σ1) by (by eapply Hok).
  destruct (holds_root _ _ _ Hht) as [k Hk]. rewrite Hroot in Hk.
  assert (Hel2 : nodes σ2 !! el = Some (Node None (Element tag p (root <$> kids))))
    by (by rewrite Hframet).
  assert (Hlt2 : next σ1 < next σ2).
  { apply (Hranget (next σ1)). rewrite <- Hroot. apply root_in_ids. }
  eexists. split.
  { rewrite (bind_ok _ _ _ _ _ Hrun). apply (appendChild_run _ _ _ _ _ _ _ _ Hel2 Hk). lia. }
  assert (Hjoin : mjoin (ids <$> kids ++ [t]) = mjoin (ids <$> kids) ++ ids t).
  { rewrite fmap_app, join_app. simpl. by rewrite app_nil_r. }
  exists (kids ++ [t]). rewrite Hjoin. unfold with_nodes. cbn [nodes next log]. split_and!.
  - apply Forall2_app; [done | by constructor].
  - rewrite lookup_insert_ne by lia. rewrite lookup_insert_eq.
    by rewrite fmap_app, <- Hroot.
  - apply Forall_app. split.
    + apply Forall_forall. intros c Hc. eapply holds_agree; [by eapply Forall_forall in Hkids|].
      intros y Hy. assert (S el ≤ y < next σ1) by (apply Hrange; by eapply ids_kid).
      rewrite !lookup_insert_ne by lia. apply Hframet. lia.
    + constructor; [|constructor].
      assert (Hrep : holds (<[next σ1 := Node (Some el) k]> (nodes σ2)) (Some el) t).
      { rewrite <- Hroot. apply holds_reparent with None; [done | done | by rewrite Hroot]. }
      eapply holds_agree; [exact Hrep|].
      intros y Hy. apply Hranget in Hy.
      destruct (decide (y = next σ1)) as [->|Hne].
      * by rewrite !lookup_insert_eq.
      * by rewrite !lookup_insert_ne by lia.
  - apply NoDup_app. split_and!; [done| |done].
    intros y Hy Hy'. apply Hrange in Hy. apply Hranget in Hy'. lia.
  - intros y. rewrite elem_of_app, Hrange, Hranget. simpl. lia.
  - intros y Hy. rewrite !lookup_insert_ne by lia. rewrite Hframet by lia. by apply Hframe.
  - intros y n. simpl. intros Hy.
    destruct (decide (y = next σ1)) as [->|?]; [lia|].
    destruct (decide (y = el)) as [->|?]; [lia|].
    rewrite !lookup_insert_ne in Hy by done. by eapply Hok2.
  - exists (evs ++ evs2 ++ [AppendChild el (next σ1)]). split.
    + simpl. rewrite Hlog2, Hlog. by rewrite <- !app_assoc.
    + intros e y [He|[He|He]%elem_of_app]%elem_of_app Hy.
      * by eapply Hevs.
      * assert (next σ1 ≤ y) by (by eapply Hevs2). lia.
      * apply list_elem_of_singleton in He as ->. simpl in Hy.
        apply elem_of_cons in Hy as [->|Hy]; [lia|].
        apply list_elem_of_singleton in Hy as ->. lia.
Qed.

Lemma null_free_children ty props cs :
  null_free (VElem ty props cs) = true → Forall (λ c, null_free c = true) (default [] cs).
Proof.
  destruct cs as [l|]; simpl; [|constructor].
  intros H. apply Forall_forall. intros c Hc.
  rewrite forallb_forall in H. apply H. by apply list_elem_of_In.
Qed.

Lemma host_names_tag ty props cs :
  host_names (VElem ty props cs) = true → kept_tag (tag_string ty) = true.
Proof. simpl. by intros [[? _]%andb_true_iff _]%andb_true_iff. Qed.

Lemma host_names_props ty props cs :
  host_names (VElem ty props cs) = true →
  map_Forall (λ k _, kept_attribute k = true) (default ∅ props).
Proof. simpl. by intros [[_ ?%bool_decide_eq_true]%andb_true_iff _]%andb_true_iff. Qed.

Lemma host_names_props_of v :
  host_names v = true → map_Forall (λ k _, kept_attribute k = true) (props_of v).
Proof.
  destruct v as [| |ty props cs]; simpl; try (intros _ k x; by rewrite lookup_empty).
  by intros [[_ ?%bool_decide_eq_true]%andb_true_iff _]%andb_true_iff.
Qed.

Lemma host_names_children v :
  host_names v = true → Forall (λ c, host_names c = true) (children_of v).
Proof.
  destruct v as [| |ty props [l|]]; simpl; try constructor.
  intros [_ H]%andb_true_iff. apply Forall_forall. intros c Hc.
  rewrite forallb_forall in H. apply H. by apply list_elem_of_In.
Qed.

Lemma host_names_folded v : host_names v = true → folded_names v = true.
Proof.
  induction v as [| s | ty props cs IH] using vnode_nested_ind; [done | done |].
  intros Hv. pose proof (host_names_props _ _ _ Hv) as Hp.
  pose proof (host_names_children _ Hv) as Hc. simpl. apply andb_true_iff. split.
  - apply bool_decide_eq_true. intros k x Hk. apply kept_attribute_folded. by eapply Hp.
  - destruct cs as [l|]; [|done]. simpl in IH, Hc. apply forallb_forall. intros c Hin.
    apply list_elem_of_In in Hin. rewrite Forall_forall in IH, Hc. by apply IH; [|apply Hc].
Qed.

Lemma folded_names_props v :
  folded_names v = true → map_Forall (λ k _, fold_name k = k) (props_of v).
Proof.
  destruct v as [| |ty props cs]; simpl; try (intros _ k x; by rewrite lookup_empty).
  by intros [?%bool_decide_eq_true _]%andb_true_iff.
Qed.

Lemma folded_names_children v :
  folded_names v = true → Forall (λ c, folded_names c = true) (children_of v).
Proof.
  destruct v as [| |ty props [l|]]; simpl; try constructor.
  intros [_ H]%andb_true_iff. apply Forall_forall. intros c Hc.
  rewrite forallb_forall in H. apply H. by apply list_elem_of_In.
Qed.

Lemma createTree_spec v :
  null_free v = true → host_names v = true →
  ∀ σ, heap_ok σ → ∃ t σ', createTree v σ = (Ok (next σ), σ') ∧ built σ σ' t v.
Proof.
  induction v as [| s | ty props cs IH] using vnode_nested_ind; intros Hnf Hhn σ Hok.
  - done.
  - exists (LText (next σ) s), (Document (<[next σ := Node None (Text s)]> (nodes σ)) (S (next σ)) (log σ)).
    split; [done|]. unfold built. cbn [nodes next log root ids]. split_and!.
    + done.
    + constructor.
    + constructor. apply lookup_insert_eq.
    + apply NoDup_singleton.
    + intros x. rewrite list_elem_of_singleton. lia.
    + intros x Hx. apply lookup_insert_ne. lia.
    + intros x n. cbn [nodes next]. destruct (decide (x = next σ)) as [->|?]; [intros _; lia|].
      rewrite lookup_insert_ne by done. intros H. apply Hok in H. lia.
    + exists []. split; [by rewrite app_nil_r|]. intros e x He. by apply elem_of_nil in He.
  - apply null_free_children in Hnf. rewrite createTree_elem.
    pose proof (host_names_tag _ _ _ Hhn) as Htag.
    pose proof (host_names_props _ _ _ Hhn) as Hprops.
    apply host_names_children in Hhn. cbn [children_of] in Hhn.
    replace (match cs with Some l => l | None => [] end) with (default [] cs) in Hhn
      by (by destruct cs).
    set (el := next σ). set (tag := tag_string ty) in *. set (p := default ∅ props) in *.
    set (σ1 := Document (<[el := Node None (Element tag ∅ [])]> (nodes σ)) (S el) (log σ)).
    assert (H1 : createElement tag σ = (Ok el, σ1)) by (by apply createElement_run).
    rewrite (bind_ok _ _ _ _ _ H1).
    assert (Hel1 : nodes σ1 !! el = Some (Node None (Element tag ∅ []))) by apply lookup_insert_eq.
    rewrite (bind_ok _ _ _ _ _ (set_attributes_run σ1 el None tag [] p Hel1 Hprops)).
    set (σ2 := with_nodes σ1 _ _).
    assert (Hinit : building σ el tag p [] σ2).
    { exists []. unfold σ2, σ1, with_nodes. cbn [nodes next log fmap list_fmap mjoin list_join]. split_and!.
      - constructor.
      - apply lookup_insert_eq.
      - constructor.
      - constructor.
      - intros x. rewrite elem_of_nil. lia.
      - intros x Hx. rewrite !lookup_insert_ne by lia. done.
      - intros x n. cbn [nodes next]. destruct (decide (x = el)) as [->|?]; [intros _; lia|].
        rewrite !lookup_insert_ne by done. intros H. apply Hok in H. fold el in H. lia.
      - eexists. split; [done|].
        intros e x (kv & -> & _)%list_elem_of_fmap Hx. simpl in Hx.
        apply list_elem_of_singleton in Hx as ->. done. }
    destruct (for_each_inv (building σ el tag p) (default [] cs)
                (λ child, let* c := createTree child in appendChild (Some el) c)) with (σ := σ2)
      as (σ3 & Hloop & kids & Hdesc & Hel & Hkids & Hnd & Hrange & Hframe & Hok3 & evs & Hlog & Hevs);
      [|exact Hinit|].
    { intros done x rest σ' Hcs Hb. apply (build_child_step _ _ _ _ _ _ _ Hb).
      assert (Hx : x ∈ default [] cs) by (rewrite Hcs; apply elem_of_app; right; by left).
      rewrite Forall_forall in IH, Hnf, Hhn. apply IH; [done | by apply Hnf | by apply Hhn |].
      by destruct Hb as (? & ? & ? & ? & ? & ? & ? & ? & ?). }
    rewrite (bind_ok _ _ _ _ _ Hloop).
    assert (Hlt : el < next σ3) by (by eapply Hok3).
    exists (LElem el tag p kids), σ3. split; [done|]. unfold built. cbn [root ids]. split_and!.
    + done.
    + by constructor.
    + by constructor.
    + constructor; [|done]. intros H. apply Hrange in H. lia.
    + intros x. rewrite elem_of_cons, Hrange. fold el. lia.
    + done.
    + done.
    + exists evs. split; [done|done].
Qed.

(** ** Live elements and their children *)

Lemma ids_app (a b : list ltree) :
  mjoin (ids <$> (a ++ b)) = mjoin (ids <$> a) ++ mjoin (ids <$> b).
Proof. by rewrite fmap_app, join_app. Qed.

Lemma ids_snoc (a : list ltree) t :
  mjoin (ids <$> (a ++ [t])) = mjoin (ids <$> a) ++ ids t.
Proof. rewrite ids_app. simpl. by rewrite app_nil_r. Qed.

Lemma live_elem_inv σ par id tag attrs kids :
  live σ par (LElem id tag attrs kids) →
  nodes σ !! id = Some (Node par (Element tag attrs (root <$> kids))) ∧
  Forall (holds (nodes σ) (Some id)) kids ∧
  (id ∉ mjoin (ids <$> kids)) ∧
  NoDup (mjoin (ids <$> kids)) ∧
  id < next σ.
Proof.
  intros (Hh & Hnd & Hok). inversion Hh; subst. simpl in Hnd.
  apply NoDup_cons in Hnd as [? ?]. split_and!; try done. by eapply Hok.
Qed.

Lemma live_kid σ par id tag attrs kids k :
  live σ par (LElem id tag attrs kids) → k ∈ kids → live σ (Some id) k.
Proof.
  intros Hl Hk. destruct (live_elem_inv _ _ _ _ _ _ Hl) as (_ & Hkids & _ & Hnd & _).
  split_and!; [by eapply Forall_forall in Hkids | | by destruct Hl as (_ & _ & ?)].
  apply list_elem_of_split in Hk as (a & b & ->).
  rewrite ids_app in Hnd. simpl in Hnd.
  apply NoDup_app in Hnd as (_ & _ & Hnd). by apply NoDup_app in Hnd as (? & _ & _).
Qed.

(** Building a child and appending it to a live element (lines 107-108,
    and line 52 when the element is the parent). *)
Lemma append_built_child σ par id tag attrs kids x t σ1 :
  live σ par (LElem id tag attrs kids) →
  createTree x σ = (Ok (next σ), σ1) →
  built σ σ1 t x →
  ∃ σ2, (let* c := createTree x in appendChild (Some id) c) σ = (Ok (), σ2) ∧
        live σ2 par (LElem id tag attrs (kids ++ [t])) ∧
        next σ ≤ next σ2 ∧
        (∀ y, y < next σ → y ≠ id → nodes σ2 !! y = nodes σ !! y) ∧
        log σ2 = log σ1 ++ [AppendChild id (next σ)].
Proof.
  intros Hl Hrun (Hroot & Hdt & Hht & Hndt & Hranget & Hframet & Hok1 & evs & Hlog & Hevs).
  destruct (live_elem_inv _ _ _ _ _ _ Hl) as (Hid & Hkids & Hnotin & Hnd & Hlt).
  destruct Hl as (_ & _ & Hok).
  destruct (holds_root _ _ _ Hht) as [k Hk]. rewrite Hroot in Hk.
  assert (Hid1 : nodes σ1 !! id = Some (Node par (Element tag attrs (root <$> kids))))
    by (by rewrite Hframet).
  assert (Hlt1 : next σ < next σ1).
  { apply (Hranget (next σ)). rewrite <- Hroot. apply root_in_ids. }
  assert (Hold : ∀ y, y ∈ mjoin (ids <$> kids) → y < next σ).
  { intros y (l & Hy & (c & -> & Hc)%list_elem_of_fmap)%list_elem_of_join.
    eapply holds_lt; [done | by eapply Forall_forall in Hkids | done]. }
  eexists. split.
  { rewrite (bind_ok _ _ _ _ _ Hrun). apply (appendChild_run _ _ _ _ _ _ _ _ Hid1 Hk). lia. }
  unfold live, with_nodes. cbn [nodes next log]. split_and!.
  - constructor.
    + rewrite lookup_insert_ne by lia. rewrite lookup_insert_eq. by rewrite fmap_app, <- Hroot.
    + apply Forall_app. split.
      * apply Forall_forall. intros c Hc. eapply holds_agree; [by eapply Forall_forall in Hkids|].
        intros y Hy. assert (y < next σ) by (eapply Hold, ids_kid; done).
        assert (y ≠ id) by (intros ->; eapply Hnotin, ids_kid; done).
        rewrite !lookup_insert_ne by lia. by apply Hframet.
      * constructor; [|constructor].
        assert (Hrep : holds (<[next σ := Node (Some id) k]> (nodes σ1)) (Some id) t).
        { rewrite <- Hroot. apply holds_reparent with None; [done | done | by rewrite Hroot]. }
        eapply holds_agree; [exact Hrep|].
        intros y Hy. apply Hranget in Hy.
        destruct (decide (y = next σ)) as [->|Hne].
        -- by rewrite !lookup_insert_eq.
        -- by rewrite !lookup_insert_ne by lia.
  - cbn [ids]. rewrite ids_snoc. constructor.
    + intros [Hy|Hy]%elem_of_app; [done|]. apply Hranget in Hy. lia.
    + apply NoDup_app. split_and!; [done| |done].
      intros y Hy Hy'. apply Hold in Hy. apply Hranget in Hy'. lia.
  - intros y n. cbn [nodes next].
    destruct (decide (y = next σ)) as [->|?]; [intros _; lia|].
    destruct (decide (y = id)) as [->|?]; [intros _; lia|].
    rewrite !lookup_insert_ne by done. apply Hok1.
  - lia.
  - intros y Hy Hne. rewrite !lookup_insert_ne by lia. by apply Hframet.
  - done.
Qed.

(** Taking the last child of a live element out (line 115). *)
Lemma remove_last_child σ par id tag attrs kids e :
  live σ par (LElem id tag attrs (kids ++ [e])) →
  ∃ σ1, (let* c := lastChild (Some id) in removeChild (Some id) c) σ = (Ok (), σ1) ∧
        live σ1 par (LElem id tag attrs kids) ∧
        next σ1 = next σ ∧
        (∀ y, y ≠ id → y ≠ root e → nodes σ1 !! y = nodes σ !! y) ∧
        holds (nodes σ1) None e ∧
        log σ1 = log σ ++ [RemoveChild id (root e)].
Proof.
  intros Hl. destruct (live_elem_inv _ _ _ _ _ _ Hl) as (Hid & Hkids & Hnotin & Hnd & Hlt).
  destruct Hl as (_ & _ & Hok).
  apply Forall_app in Hkids as [Hkids He]. apply Forall_inv in He.
  destruct (holds_root _ _ _ He) as [k Hk].
  rewrite fmap_app in Hid. simpl in Hid.
  assert (Hne : root e ≠ id).
  { intros Heq. apply Hnotin. rewrite <- Heq. apply roots_in_ids, list_elem_of_fmap_2.
    apply elem_of_app. right. by left. }
  assert (Hndr : NoDup ((root <$> kids) ++ [root e])).
  { apply NoDup_roots in Hnd. by rewrite fmap_app in Hnd. }
  eexists. split.
  { rewrite (bind_ok _ _ _ _ _ (lastChild_run _ _ _ Hid)). unfold child_list. simpl.
    rewrite last_snoc. by apply (removeChild_last_run _ _ _ _ _ _ _ _ _ Hid Hk). }
  rewrite ids_snoc in Hnd, Hnotin. apply NoDup_app in Hnd as (Hnd & Hdisj & Hnde).
  unfold live, with_nodes. cbn [nodes next log]. split_and!.
  - constructor.
    + rewrite lookup_insert_ne by done. by rewrite lookup_insert_eq.
    + apply Forall_forall. intros c Hc. eapply holds_agree; [by eapply Forall_forall in Hkids|].
      intros y Hy. assert (Hy' : y ∈ mjoin (ids <$> kids)) by (by eapply ids_kid).
      rewrite !lookup_insert_ne; [done | |].
      * intros <-. apply Hnotin, elem_of_app. by left.
      * intros <-. apply (Hdisj (root e)); [done | apply root_in_ids].
  - cbn [ids]. constructor; [|done]. intros Hin. apply Hnotin, elem_of_app. by left.
  - intros y n. cbn [nodes next].
    destruct (decide (y = root e)) as [->|?]; [intros _; by eapply Hok|].
    destruct (decide (y = id)) as [->|?]; [intros _; lia|].
    rewrite !lookup_insert_ne by done. apply Hok.
  - done.
  - intros y ? ?. by rewrite !lookup_insert_ne.
  - assert (Hide : id ∉ ids e) by (intros ?; apply Hnotin, elem_of_app; by right).
    apply holds_reparent with (Some id); [| done |].
    + eapply holds_agree; [exact He|]. intros y Hy. rewrite lookup_insert_ne; [done|].
      by intros <-.
    + by rewrite lookup_insert_ne.
  - done.
Qed.

(** Lines 113-118: the loop takes the children beyond [newLen] out, last
    one first, and stops. *)
Lemma remove_extra_children_spec σ par id tag attrs keep extra :
  live σ par (LElem id tag attrs (keep ++ extra)) →
  ∃ σ', remove_extra_children (length keep) (Some id) σ = (Ok (), σ') ∧
        live σ' par (LElem id tag attrs keep) ∧
        next σ' = next σ ∧
        (∀ y, y ≠ id → y ∉ root <$> extra → nodes σ' !! y = nodes σ !! y) ∧
        Forall (holds (nodes σ') None) extra ∧
        log σ' = log σ ++ (RemoveChild id <$> reverse (root <$> extra)).
Proof.
  intros Hl. unfold remove_extra_children.
  destruct (live_elem_inv _ _ _ _ _ _ Hl) as (Hid & _).
  rewrite (bind_ok _ _ _ _ _ (childNodes_length_run _ _ _ Hid)).
  unfold child_list. cbn [kind]. rewrite length_fmap, length_app.
  assert (Hfuel : length extra < S (length keep + length extra)) by lia.
  revert Hfuel Hl. clear Hid. generalize (S (length keep + length extra)) as fuel.
  revert σ. induction extra as [|e extra IH] using rev_ind; intros σ fuel Hfuel Hl.
  - rewrite app_nil_r in Hl. destruct (live_elem_inv _ _ _ _ _ _ Hl) as (Hid & _).
    destruct fuel as [|fuel]; [simpl in Hfuel; lia|]. exists σ. cbn [while].
    rewrite (bind_ok _ _ σ false σ).
    2:{ rewrite (bind_ok _ _ _ _ _ (childNodes_length_run _ _ _ Hid)).
        unfold child_list, ret. cbn [kind]. rewrite length_fmap.
        by rewrite bool_decide_eq_false_2 by lia. }
    split_and!; try done.
    simpl. by rewrite app_nil_r.
  - rewrite app_assoc in Hl. destruct (live_elem_inv _ _ _ _ _ _ Hl) as (Hid & _).
    rewrite length_app in Hfuel. simpl in Hfuel.
    destruct fuel as [|fuel]; [lia|]. cbn [while].
    rewrite (bind_ok _ _ σ true σ).
    2:{ rewrite (bind_ok _ _ _ _ _ (childNodes_length_run _ _ _ Hid)).
        unfold child_list, ret. cbn [kind]. rewrite length_fmap, !length_app.
        rewrite bool_decide_eq_true_2; [done | simpl; lia]. }
    destruct (remove_last_child _ _ _ _ _ _ _ Hl) as (σ1 & Hrun & Hl1 & Hnext & Hframe & Hgone & Hlog).
    rewrite (bind_ok _ _ _ _ _ Hrun).
    destruct (IH σ1 fuel) as (σ' & Hrun' & Hl' & Hnext' & Hframe' & Hgone' & Hlog'); [lia | done |].
    exists σ'. split_and!; try done.
    + congruence.
    + intros y Hy Hnin. rewrite fmap_app in Hnin. rewrite Hframe'.
      * apply Hframe; [done|]. intros ->. apply Hnin, elem_of_app. right. by left.
      * done.
      * intros ?. apply Hnin, elem_of_app. by left.
    + apply Forall_app. split; [done|]. constructor; [|constructor].
      destruct (live_elem_inv _ _ _ _ _ _ Hl) as (_ & _ & Hnotin & Hnd & _).
      rewrite ids_snoc in Hnotin, Hnd. rewrite ids_app in Hnd.
      eapply holds_agree; [exact Hgone|]. intros y Hy. apply Hframe'.
      * intros ->. apply Hnotin, elem_of_app. by right.
      * intros Hin%roots_in_ids. apply NoDup_app in Hnd as (_ & Hdisj & _).
        apply (Hdisj y); [|done]. apply elem_of_app. by right.
    + rewrite Hlog', Hlog, fmap_app, reverse_app. simpl. by rewrite <- app_assoc.
Qed.

(** ** Unfolding diff *)

Lemma diff_unfold oldVNode newVNode domNode :
  diff oldVNode newVNode domNode =
  if is_string oldVNode && is_string newVNode then
    if text_neq oldVNode newVNode
    then set_textContent domNode (match newVNode with VText s => s | _ => "" end)
    else diff_children oldVNode newVNode domNode
  else if is_nullish oldVNode then
    let* newDomNode := createTree newVNode in
    appendChild domNode newDomNode
  else if is_nullish newVNode then
    let* parent := get_parentNode domNode in
    removeChild parent domNode
  else if negb (bool_decide (type_of oldVNode = type_of newVNode)) then
    rebuild_and_replace newVNode domNode
  else
    remove_old_attributes oldVNode newVNode domNode >>
    update_new_attributes oldVNode newVNode domNode >>
    diff_children oldVNode newVNode domNode.
Proof. by destruct oldVNode as [| s | ty p [cs|]]. Qed.

Lemma well_formed_null_free v : well_formed v = true → null_free v = true.
Proof.
  induction v as [| s | ty props cs IH] using vnode_nested_ind; [done | done |].
  destruct cs as [l|]; simpl in *; [|done].
  intros [_ H]%andb_prop. rewrite forallb_forall in H. apply forallb_forall.
  intros c Hc. rewrite Forall_forall in IH. apply IH; [by apply list_elem_of_In | by apply H].
Qed.

Lemma well_formed_not_null v : well_formed v = true → is_nullish v = false.
Proof. by destruct v. Qed.

Lemma well_formed_children v :
  well_formed v = true → Forall (λ c, well_formed c = true) (children_of v).
Proof.
  destruct v as [| s | ty props [l|]]; simpl; try (intros; constructor).
  intros [_ H]%andb_prop. rewrite forallb_forall in H. apply Forall_forall.
  intros c Hc. by apply H, list_elem_of_In.
Qed.

Lemma plain_names_children v :
  plain_names v = true → Forall (λ c, plain_names c = true) (children_of v).
Proof.
  destruct v as [| s | ty props [l|]]; simpl; try (intros; constructor).
  intros [_ H]%andb_prop. rewrite forallb_forall in H. apply Forall_forall.
  intros c Hc. by apply H, list_elem_of_In.
Qed.

Lemma plain_names_props v k s :
  plain_names v = true → props_of v !! k = Some s → is_inherited k = false.
Proof.
  destruct v as [| ? | ty [p|] cs]; simpl; try done.
  intros [H _]%andb_prop Hk. apply bool_decide_eq_true in H. by apply (H k s).
Qed.

(** When the two [type]s differ, [diff] is case 4. *)
Lemma diff_other_type oldVNode newVNode domNode :
  well_formed oldVNode = true → well_formed newVNode = true →
  same_type oldVNode newVNode = false →
  diff oldVNode newVNode domNode = rebuild_and_replace newVNode domNode.
Proof.
  intros Ho Hn Hty. rewrite diff_unfold.
  rewrite (well_formed_not_null _ Ho), (well_formed_not_null _ Hn).
  unfold same_type in Hty. rewrite Hty. simpl.
  destruct oldVNode, newVNode; try done.
Qed.

(** Case 4 on a live node [o] that is the [i]-th child of [p]. *)
Lemma rebuild_and_replace_spec newVNode σ o p ko pn tag attrs ks i :
  null_free newVNode = true → host_names newVNode = true →
  heap_ok σ →
  nodes σ !! o = Some (Node (Some p) ko) →
  nodes σ !! p = Some (Node pn (Element tag attrs ks)) →
  ks !! i = Some o → NoDup ks → o ≠ p →
  ∃ σ1 tn kn,
    createTree newVNode σ = (Ok (next σ), σ1) ∧ built σ σ1 tn newVNode ∧
    nodes σ1 !! next σ = Some (Node None kn) ∧
    rebuild_and_replace newVNode (Some o) σ
    = (Ok (), with_nodes σ1
                (<[o := Node None ko]>
                   (<[next σ := Node (Some p) kn]>
                      (<[p := Node pn (Element tag attrs (<[i := next σ]> ks))]> (nodes σ1))))
                [ReplaceChild p (next σ) o]).
Proof.
  intros Hnf Hhn Hok Ho Hp Hi Hnd Hne.
  destruct (createTree_spec _ Hnf Hhn σ Hok) as (tn & σ1 & Hrun & Hb).
  pose proof Hb as (Hroot & Hdt & Hht & Hndt & Hranget & Hframet & Hok1 & evs & Hlog & Hevs).
  destruct (holds_root _ _ _ Hht) as [kn Hkn]. rewrite Hroot in Hkn.
  assert (o < next σ) by (by eapply Hok). assert (p < next σ) by (by eapply Hok).
  exists σ1, tn, kn. split_and!; try done.
  unfold rebuild_and_replace. rewrite (bind_ok _ _ _ _ _ Hrun).
  assert (Ho1 : nodes σ1 !! o = Some (Node (Some p) ko)) by (by rewrite Hframet).
  assert (Hp1 : nodes σ1 !! p = Some (Node pn (Element tag attrs ks))) by (by rewrite Hframet).
  rewrite (bind_ok _ _ _ _ _ (get_parentNode_run _ _ _ Ho1)). cbn [parentNode].
  apply (replaceChild_run _ _ _ _ _ _ _ _ _ _ _ _ Hp1 Hi Hnd Ho1 Hkn); lia.
Qed.

(** ** The attribute diff (lines 72-87), as a function on attribute maps *)

Lemma lookup_remove_fold pn (l : list (string * string)) a k :
  foldl (λ a x, remove_step pn x a) a l !! k
  = if bool_decide (k ∈ l.*1) && negb (js_in k pn) then None else a !! k.
Proof.
  revert a. induction l as [|[k' v'] l IH]; intros a; [done|].
  rewrite fmap_cons. cbn [foldl fst]. rewrite IH. unfold remove_step. cbn [fst].
  destruct (decide (k = k')) as [->|Hne].
  - rewrite (bool_decide_eq_true_2 (k' ∈ k' :: l.*1)) by (by left).
    destruct (negb (js_in k' pn)) eqn:Hin; simpl.
    + rewrite lookup_delete_eq. by destruct (bool_decide _).
    + by rewrite andb_false_r.
  - assert (Heq : bool_decide (k ∈ k' :: l.*1) = bool_decide (k ∈ l.*1)).
    { apply bool_decide_ext. rewrite elem_of_cons. split; [by intros [?|?] | by right]. }
    rewrite Heq. destruct (negb (js_in k' pn)); [|done].
    by rewrite lookup_delete_ne.
Qed.

Lemma lookup_update_fold po (l : list (string * string)) a k :
  NoDup l.*1 →
  foldl (λ a x, update_step po x a) a l !! k
  = match (list_to_map l : gmap string string) !! k with
    | Some v =>
        if negb (js_in k po) || strict_neq (js_get po k) v then Some v else a !! k
    | None => a !! k
    end.
Proof.
  revert a. induction l as [|[k' v'] l IH]; intros a Hnd; [done|].
  apply NoDup_cons in Hnd as [Hk' Hnd]. simpl. rewrite IH by done.
  unfold update_step. simpl. destruct (decide (k = k')) as [->|Hne].
  - rewrite lookup_insert_eq. rewrite (not_elem_of_list_to_map_1 _ _ Hk').
    destruct (negb (js_in k' po) || strict_neq (js_get po k') v'); [|done].
    by rewrite lookup_insert_eq.
  - rewrite lookup_insert_ne by done.
    assert (Hstep : ∀ b : bool, (if b then <[k':=v']> a else a) !! k = a !! k)
      by (intros []; [by rewrite lookup_insert_ne | done]).
    by rewrite Hstep.
Qed.

Lemma elem_of_map_to_list_keys (m : gmap string string) k :
  k ∈ (map_to_list m).*1 ↔ is_Some (m !! k).
Proof.
  rewrite list_elem_of_fmap. split.
  - intros ([k' v] & -> & H). apply elem_of_map_to_list in H. by exists v.
  - intros [v H]. exists (k, v). split; [done|]. by apply elem_of_map_to_list.
Qed.

(** Starting from the old attributes, the two loops leave the new
    attributes, and every old attribute that the new props lack but whose
    name [in] finds on the prototype. *)
Lemma diffed_attrs_lookup po pn k :
  diffed_attrs po pn po !! k
  = match pn !! k with
    | Some v => Some v
    | None => if is_inherited k then po !! k else None
    end.
Proof.
  unfold diffed_attrs.
  rewrite lookup_update_fold by apply NoDup_fst_map_to_list.
  rewrite list_to_map_to_list, lookup_remove_fold.
  unfold js_in, js_get, strict_neq.
  destruct (pn !! k) as [v|] eqn:Hn; destruct (po !! k) as [v'|] eqn:Ho; simpl.
  - destruct (String.eqb_spec v' v) as [->|?]; simpl; [|done].
    by rewrite andb_false_r.
  - by destruct (is_inherited k).
  - rewrite (bool_decide_eq_true_2 (k ∈ (map_to_list po).*1))
      by (apply elem_of_map_to_list_keys; rewrite Ho; eauto). simpl.
    by destruct (is_inherited k).
  - rewrite (bool_decide_eq_false_2 (k ∈ (map_to_list po).*1))
      by (rewrite elem_of_map_to_list_keys, Ho; by intros [? ?]). simpl.
    by destruct (is_inherited k).
Qed.

Lemma diffed_attrs_plain po pn :
  (∀ k s, po !! k = Some s → is_inherited k = false) →
  diffed_attrs po pn po = pn.
Proof.
  intros Hplain. apply map_eq. intros k. rewrite diffed_attrs_lookup.
  destruct (pn !! k) as [v|]; [done|].
  destruct (po !! k) as [v'|] eqn:Ho; [|by destruct (is_inherited k)].
  by rewrite (Hplain k v' Ho).
Qed.

Lemma diff_attributes_run oldVNode newVNode σ id par tag a cs :
  nodes σ !! id = Some (Node par (Element tag a cs)) →
  map_Forall (λ k _, fold_name k = k) (props_of oldVNode) →
  map_Forall (λ k _, kept_attribute k = true) (props_of newVNode) →
  (remove_old_attributes oldVNode newVNode (Some id) >>
   update_new_attributes oldVNode newVNode (Some id)) σ
  = (Ok (), with_nodes σ
              (<[id := Node par (Element tag (diffed_attrs (props_of oldVNode) (props_of newVNode) a) cs)]>
                 (nodes σ))
              (attr_events id (props_of oldVNode) (props_of newVNode))).
Proof.
  intros Hid Hpo Hpn. unfold remove_old_attributes, update_new_attributes.
  erewrite bind_ok; cycle 1.
  { eapply (attr_loop_run id par tag cs (remove_step (props_of newVNode))
              (λ x, if negb (js_in x.1 (props_of newVNode)) then [RemoveAttribute id x.1] else []));
      [|exact Hid].
    intros [k v] a' σ1 Hkv%elem_of_map_to_list H1. unfold remove_step. simpl.
    destruct (negb (js_in k (props_of newVNode))).
    - apply removeAttribute_run; [done|]. by eapply Hpo.
    - rewrite insert_id by done. by rewrite with_nodes_id. }
  erewrite (attr_loop_run id par tag cs (update_step (props_of oldVNode))
              (λ x, if negb (js_in x.1 (props_of oldVNode))
                       || strict_neq (js_get (props_of oldVNode) x.1) x.2
                    then [SetAttribute id x.1 x.2] else [])); cycle 1.
  { intros [k v] a' σ1 Hkv%elem_of_map_to_list H1. unfold update_step. simpl.
    destruct (negb (js_in k (props_of oldVNode)) || strict_neq (js_get (props_of oldVNode) k) v).
    - apply setAttribute_run; [done|]. by eapply Hpn.
    - rewrite insert_id by done. by rewrite with_nodes_id. }
  { cbn [nodes with_nodes]. apply lookup_insert_eq. }
  rewrite with_nodes_with_nodes. cbn [nodes with_nodes]. by rewrite insert_insert_eq.
Qed.

(** ** What diff needs and what it establishes *)

(** Case 4. *)
Lemma diff_replace_correct oldVNode newVNode par i t σ :
  reconcilable oldVNode newVNode par i t σ →
  host_names newVNode = true →
  same_type oldVNode newVNode = false →
  ∃ σ' t', diff oldVNode newVNode (Some (root t)) σ = (Ok (), σ') ∧
           reconciled oldVNode newVNode par i t σ σ' t'.
Proof.
  intros (Hwo & Hwn & Hdesc & (Hh & Hnd & Hok) & Hpar & Hatt) Hhn Hty.
  destruct (Hatt Hty) as (p & pn & tag & attrs & ks & -> & Hp & Hi & Hndks).
  destruct (holds_root _ _ _ Hh) as [ko Hko].
  assert (Hne : root t ≠ p).
  { intros Heq. apply (Hpar p eq_refl). rewrite <- Heq. apply root_in_ids. }
  destruct (rebuild_and_replace_spec newVNode σ (root t) p ko pn tag attrs ks i)
    as (σ1 & tn & kn & Hrun & Hb & Hkn & Hrr); try done.
  { by apply well_formed_null_free. }
  destruct Hb as (Hroot & Hdt & Hht & Hndt & Hranget & Hframet & Hok1 & evs & Hlog & Hevs).
  assert (root t < next σ) by (by eapply Hok). assert (p < next σ) by (by eapply Hok).
  assert (Hlt1 : next σ < next σ1).
  { apply (Hranget (next σ)). rewrite <- Hroot. apply root_in_ids. }
  eexists _, tn. split; [by rewrite diff_other_type|].
  unfold reconciled, live, with_nodes. cbn [nodes next log]. split_and!.
  - assert (Hrep : holds (<[next σ := Node (Some p) kn]> (nodes σ1)) (Some p) tn).
    { rewrite <- Hroot. apply holds_reparent with None; [done | done | by rewrite Hroot]. }
    eapply holds_agree; [exact Hrep|].
    intros y Hy. apply Hranget in Hy.
    rewrite (lookup_insert_ne _ (root t)) by lia.
    destruct (decide (y = next σ)) as [->|?].
    + by rewrite !lookup_insert_eq.
    + by rewrite !lookup_insert_ne by lia.
  - done.
  - intros y n. cbn [nodes next].
    destruct (decide (y = root t)) as [->|?]; [intros _; lia|].
    destruct (decide (y = next σ)) as [->|?]; [intros _; lia|].
    destruct (decide (y = p)) as [->|?]; [intros _; lia|].
    rewrite !lookup_insert_ne by done. apply Hok1.
  - by rewrite Hty.
  - intros _. by rewrite Hroot.
  - intros y Hy. right. apply Hranget in Hy. lia.
  - lia.
  - intros y Hy Hnin Hnp.
    assert (y ≠ root t) by (intros ->; apply Hnin, root_in_ids).
    assert (y ≠ p) by (by intros ->).
    rewrite !lookup_insert_ne by lia. by apply Hframet.
  - intros p' pn' tag' attrs' ks' [= <-] Hp' _ _. rewrite Hp in Hp'. simplify_eq.
    rewrite !lookup_insert_ne by lia. by rewrite lookup_insert_eq, Hroot.
  - done.
Qed.

(** Cases 1 and 2 of the specification: two strings. *)
Lemma diff_text_correct s1 : diff_correct (VText s1).
Proof.
  intros newVNode par i t σ Hpre Hfo Hhn.
  destruct (same_type (VText s1) newVNode) eqn:Hty; [|by apply diff_replace_correct].
  destruct Hpre as (_ & Hwn & Hdesc & (Hh & Hnd & Hok) & Hpar & _).
  destruct newVNode as [| s2 | ty2 p2 cs2]; [done | |].
  2:{ unfold same_type in Hty. apply bool_decide_eq_true in Hty. simpl in Hty, Hwn.
      destruct ty2; [done|]. by destruct cs2. }
  inversion Hdesc; subst. inversion Hh; subst. cbn [root ids] in *.
  rewrite diff_unfold. cbn [is_string andb text_neq].
  destruct (String.eqb_spec s1 s2) as [->|Hne]; cbn [negb].
  - exists σ, (LText id s2). split; [done|].
    unfold reconciled, live. split_and!; try done.
    + intros y Hy. by left.
    + intros p pn tag attrs ks -> Hp Hi _. by rewrite list_insert_id.
  - eexists _, (LText id s2). split; [by eapply set_textContent_run|].
    unfold reconciled, live, with_nodes. cbn [nodes next log root ids]. split_and!; try done.
    + constructor. apply lookup_insert_eq.
    + intros y n. cbn [nodes next].
      destruct (decide (y = id)) as [->|?]; [intros _; by eapply Hok|].
      rewrite lookup_insert_ne by done. apply Hok.
    + intros y Hy. by left.
    + intros y _ Hy _. rewrite lookup_insert_ne; [done|]. intros ->. apply Hy. by left.
    + intros p pn tag attrs ks -> Hp Hi _. rewrite list_insert_id by done.
      rewrite lookup_insert_ne; [done|]. intros ->. apply (Hpar p eq_refl). by left.
    + intros _. constructor.
Qed.

(** ** The positional loop over the children (lines 96-98) *)

Lemma NoDup_replace (a b b' c : list nat) :
  NoDup (a ++ b ++ c) → NoDup b' →
  (∀ x, x ∈ b' → x ∈ b ∨ ((x ∉ a) ∧ (x ∉ c))) →
  NoDup (a ++ b' ++ c).
Proof.
  intros (Ha & Habc & Hbc)%NoDup_app Hb' Hsub.
  apply NoDup_app in Hbc as (Hb & Hbc & Hc).
  apply NoDup_app. split_and!; [done | |].
  - intros x Hx [Hx'|Hx']%elem_of_app.
    + destruct (Hsub x Hx') as [?|[? _]]; [|done].
      apply (Habc x Hx), elem_of_app. by left.
    + apply (Habc x Hx), elem_of_app. by right.
  - apply NoDup_app. split_and!; [done | | done].
    intros x Hx Hx'. destruct (Hsub x Hx) as [?|[_ ?]]; [|done]. by apply (Hbc x).
Qed.

Lemma insert_middle {A} (a b : list A) x y :
  <[length a := y]> (a ++ x :: b) = a ++ y :: b.
Proof.
  replace (length a) with (length a + 0) by lia. by rewrite insert_app_r.
Qed.

Lemma lookup_middle {A} (a b : list A) x :
  (a ++ x :: b) !! length a = Some x.
Proof. by rewrite list_lookup_middle. Qed.

Lemma live_lt σ par t x : live σ par t → x ∈ ids t → x < next σ.
Proof. intros (Hh & _ & Hok) Hx. by eapply holds_lt. Qed.

Lemma ids_middle (a b : list ltree) t :
  mjoin (ids <$> (a ++ t :: b)) = mjoin (ids <$> a) ++ ids t ++ mjoin (ids <$> b).
Proof. by rewrite ids_app. Qed.

(** Reconciling the child at position [length done] keeps the parent a
    live element, with the reconciled child at that position. *)
Lemma diff_child_step par id tag attrs done t todo o n σ σ1 t1 :
  live σ par (LElem id tag attrs (done ++ t :: todo)) →
  reconciled o n (Some id) (length done) t σ σ1 t1 →
  live σ1 par (LElem id tag attrs (done ++ t1 :: todo)).
Proof.
  intros Hl ((Hh1 & Hnd1 & Hok1) & Hsame & Hfresh & Hids1 & Hnext1 & Hframe1 & Hparent1 & _).
  destruct (live_elem_inv _ _ _ _ _ _ Hl) as (Hid & Hkids & Hnotin & Hnd & Hlt).
  assert (Hall : ∀ x, x ∈ mjoin (ids <$> (done ++ t :: todo)) → x < next σ).
  { intros x Hx. apply (live_lt _ _ _ _ Hl). simpl. by right. }
  rewrite ids_middle in Hnd, Hnotin, Hall.
  assert (Hkeep : ∀ c, c ∈ done ++ todo → holds (nodes σ1) (Some id) c).
  { intros c Hc. eapply holds_agree.
    - eapply Forall_forall in Hkids; [done|].
      apply elem_of_app in Hc as [?|?]; apply elem_of_app; [by left | right; by right].
    - intros x Hx. apply Hframe1.
      + apply Hall. apply elem_of_app in Hc as [?|?].
        * apply elem_of_app. left. by eapply ids_kid.
        * apply elem_of_app. right. apply elem_of_app. right. by eapply ids_kid.
      + intros Hxt. apply NoDup_app in Hnd as (_ & Hd1 & Hnd).
        apply NoDup_app in Hnd as (_ & Hd2 & _).
        apply elem_of_app in Hc as [?|?].
        * apply (Hd1 x); [by eapply ids_kid | apply elem_of_app; by left].
        * apply (Hd2 x); [done | by eapply ids_kid].
      + intros [= ->]. apply Hnotin. apply elem_of_app in Hc as [?|?].
        * apply elem_of_app. left. by eapply ids_kid.
        * apply elem_of_app. right. apply elem_of_app. right. by eapply ids_kid. }
  split_and!; [|cbn [ids]; rewrite ids_middle|done].
  - constructor.
    + rewrite fmap_app, fmap_cons.
      rewrite <- (insert_middle (root <$> done) (root <$> todo) (root t)).
      rewrite length_fmap. apply Hparent1; [done | | |].
      * by rewrite fmap_app, fmap_cons in Hid.
      * rewrite <- (length_fmap root done). apply lookup_middle.
      * rewrite <- fmap_cons, <- fmap_app. apply NoDup_roots. by rewrite ids_middle.
    + apply Forall_app. split; [|constructor].
      * apply Forall_forall. intros c Hc. apply Hkeep, elem_of_app. by left.
      * done.
      * apply Forall_forall. intros c Hc. apply Hkeep, elem_of_app. by right.
  - change (NoDup (([id] ++ mjoin (ids <$> done)) ++ ids t1 ++ mjoin (ids <$> todo))).
    apply NoDup_replace with (ids t); [| done |].
    + simpl. constructor; [done|done].
    + intros x Hx. destruct (Hids1 x Hx) as [?|Hge]; [by left|]. right.
      split.
      * intros [->%list_elem_of_singleton|Hin]%elem_of_app; [lia|].
        assert (x < next σ) by (apply Hall, elem_of_app; by left). lia.
      * intros Hin.
        assert (x < next σ) by (apply Hall, elem_of_app; right; apply elem_of_app; by right). lia.
Qed.

Lemma diff_loop_spec par id tag attrs os :
  Forall diff_correct os →
  ∀ ns todo done σ,
    Forall (λ o, well_formed o = true) os →
    Forall (λ n, well_formed n = true) ns →
    Forall (λ o, folded_names o = true) os →
    Forall (λ n, host_names n = true) ns →
    Forall2 describes todo os →
    live σ par (LElem id tag attrs (done ++ todo)) →
    ∃ σ' done',
      for_both (λ i o n, let* c := childNodes_item (Some id) i in diff o n c)
        (length done) os ns σ = (Ok (), σ') ∧
      length done' = min (length os) (length ns) ∧
      live σ' par (LElem id tag attrs (done ++ done' ++ drop (length done') todo)) ∧
      next σ ≤ next σ' ∧
      (∀ x, x ∈ mjoin (ids <$> done') → x ∈ mjoin (ids <$> todo) ∨ next σ ≤ x) ∧
      (∀ x, x < next σ → x ∉ mjoin (ids <$> todo) → x ≠ id →
            nodes σ' !! x = nodes σ !! x) ∧
      (∀ j o n t, os !! j = Some o → ns !! j = Some n → todo !! j = Some t →
            ∃ t', done' !! j = Some t' ∧ child_result σ o n t t').
Proof.
  induction 1 as [|o os Ho Hos IH]; intros ns todo done σ Hwo Hwn Hfo Hhn Hdesc Hl.
  { apply Forall2_nil_inv_r in Hdesc as ->. exists σ, []. split_and!; try done.
    intros x Hx. by apply elem_of_nil in Hx. }
  destruct ns as [|n ns].
  { exists σ, []. rewrite for_both_nil_r. split_and!; try done.
    intros x Hx. by apply elem_of_nil in Hx. }
  apply Forall2_cons_inv_r in Hdesc as (t & todo' & Hdt & Hdesc & ->).
  apply Forall_cons in Hwo as [Hwo1 Hwo]. apply Forall_cons in Hwn as [Hwn1 Hwn].
  apply Forall_cons in Hfo as [Hfo1 Hfo]. apply Forall_cons in Hhn as [Hhn1 Hhn].
  destruct (live_elem_inv _ _ _ _ _ _ Hl) as (Hid & Hkids & Hnotin & Hnd & Hlt).
  assert (Hin : t ∈ done ++ t :: todo') by (apply elem_of_app; right; by left).
  destruct (Ho n (Some id) (length done) t σ) as (σ1 & t1 & Hrun1 & Hrec); [|done|done|].
  { split_and!; try done.
    - by eapply live_kid.
    - intros p [= <-] Hp. apply Hnotin. by eapply ids_kid.
    - intros _. exists id, par, tag, attrs, (root <$> (done ++ t :: todo')).
      split_and!; [done | done | | by apply NoDup_roots].
      rewrite fmap_app, fmap_cons, <- (length_fmap root done). apply lookup_middle. }
  pose proof (diff_child_step _ _ _ _ _ _ _ _ _ _ _ _ Hl Hrec) as Hl1.
  destruct Hrec as (Hlt1 & Hsame & Hfresh & Hids1 & Hnext1 & Hframe1 & Hparent1 & Hdesc1).
  destruct (IH ns todo' (done ++ [t1]) σ1)
    as (σ' & done' & Hrun & Hlen & Hl' & Hnext & Hids & Hframe & Hpoint); try done.
  { by rewrite <- app_assoc. }
  exists σ', (t1 :: done'). split_and!.
  - rewrite for_both_cons.
    rewrite (bind_ok _ _ σ () σ1).
    + rewrite length_app in Hrun. simpl in Hrun. by rewrite Nat.add_1_r in Hrun.
    + rewrite (bind_ok _ _ _ _ _ (childNodes_item_run _ _ _ _ Hid)).
      unfold child_list. cbn [kind].
      rewrite fmap_app, fmap_cons, <- (length_fmap root done), lookup_middle. done.
  - simpl. by rewrite Hlen.
  - by rewrite <- app_assoc in Hl'.
  - lia.
  - intros x Hx. simpl in Hx. apply elem_of_app in Hx as [Hx|Hx].
    + destruct (Hids1 x Hx) as [?|?]; [left | by right]. simpl. apply elem_of_app. by left.
    + destruct (Hids x Hx) as [?|?]; [left | right; lia]. simpl. apply elem_of_app. by right.
  - intros x Hx Hnin Hne. simpl in Hnin. rewrite Hframe.
    + apply Hframe1; [done | | by intros [= ->]].
      intros ?. apply Hnin, elem_of_app. by left.
    + lia.
    + intros ?. apply Hnin, elem_of_app. by right.
    + done.
  - intros [|j] o' n' t' Ho' Hn' Ht'; simpl in *.
    + simplify_eq. exists t1. split; [done|]. by split_and!.
    + destruct (Hpoint j o' n' t' Ho' Hn' Ht') as (t'' & Hj & Hs & Hf & Hd).
      exists t''. split; [done|]. split_and!; [done | | done].
      intros ?. specialize (Hf ltac:(done)). lia.
Qed.

(** ** The tail of the child list (lines 100-118) *)

Lemma append_new_children_run σ par id tag attrs kids (added : list vnode) :
  Forall (λ c, null_free c = true) added →
  Forall (λ c, host_names c = true) added →
  live σ par (LElem id tag attrs kids) →
  ∃ σ' extra,
    for_each added
      (λ child, let* newElement := createTree child in appendChild (Some id) newElement) σ
    = (Ok (), σ') ∧
    live σ' par (LElem id tag attrs (kids ++ extra)) ∧
    Forall2 describes extra added ∧
    next σ ≤ next σ' ∧
    (∀ x, x ∈ mjoin (ids <$> extra) → next σ ≤ x) ∧
    (∀ y, y < next σ → y ≠ id → nodes σ' !! y = nodes σ !! y).
Proof.
  intros Hnf. revert σ kids. induction Hnf as [|c added Hc Hnf IH]; intros σ kids Hhn Hl.
  { exists σ, []. rewrite app_nil_r. split_and!; try done.
    intros x Hx. by apply elem_of_nil in Hx. }
  apply Forall_cons in Hhn as [Hhc Hhn].
  pose proof Hl as (_ & _ & Hok).
  destruct (createTree_spec c Hc Hhc σ Hok) as (t & σ1 & Hrun & Hb).
  destruct (append_built_child _ _ _ _ _ _ _ _ _ Hl Hrun Hb)
    as (σ2 & Hrun2 & Hl2 & Hnext2 & Hframe2 & _).
  destruct (IH σ2 (kids ++ [t]) Hhn Hl2)
    as (σ' & extra & Hrun' & Hl' & Hdesc & Hnext & Hids & Hframe).
  destruct Hb as (_ & Hdt & _ & _ & Hranget & _).
  exists σ', (t :: extra). split_and!.
  - rewrite for_each_cons. by rewrite (bind_ok _ _ _ _ _ Hrun2).
  - by rewrite <- app_assoc in Hl'.
  - by constructor.
  - lia.
  - intros x Hx. simpl in Hx. apply elem_of_app in Hx as [Hx|Hx].
    + apply Hranget in Hx. lia.
    + apply Hids in Hx. lia.
  - intros y Hy Hne. rewrite Hframe by (done || lia). by apply Hframe2.
Qed.

Lemma children_of_null_free v :
  well_formed v = true → Forall (λ c, null_free c = true) (children_of v).
Proof.
  intros H. eapply Forall_impl; [by apply well_formed_children|].
  intros c. apply well_formed_null_free.
Qed.

(** After the positional loop the element has the reconciled children
    [front] and the old children [rest] beyond the common length. *)
Lemma adjust_tail_spec oldVNode newVNode σ par id tag attrs front rest :
  well_formed newVNode = true → host_names newVNode = true →
  live σ par (LElem id tag attrs (front ++ rest)) →
  length front = min (length (children_of oldVNode)) (length (children_of newVNode)) →
  length (front ++ rest) = length (children_of oldVNode) →
  ∃ σ' extra,
    adjust_tail oldVNode newVNode (Some id) σ = (Ok (), σ') ∧
    live σ' par (LElem id tag attrs (front ++ extra)) ∧
    Forall2 describes extra (drop (length (children_of oldVNode)) (children_of newVNode)) ∧
    next σ ≤ next σ' ∧
    (∀ x, x ∈ mjoin (ids <$> extra) → next σ ≤ x) ∧
    (∀ y, y < next σ → y ≠ id → y ∉ root <$> rest → nodes σ' !! y = nodes σ !! y) ∧
    Forall (holds (nodes σ') None) rest.
Proof.
  intros Hwn Hhn Hl Hfront Hlen. unfold adjust_tail. rewrite length_app in Hlen.
  set (oldLen := length (children_of oldVNode)) in *.
  set (newLen := length (children_of newVNode)) in *.
  destruct (decide (oldLen < newLen)) as [Hgrow|Hngrow].
  - rewrite bool_decide_eq_true_2 by done.
    rewrite (bool_decide_eq_false_2 (newLen < oldLen)) by lia.
    assert (rest = []) as -> by (apply length_zero_iff_nil; lia).
    rewrite app_nil_r in Hl.
    destruct (append_new_children_run σ par id tag attrs front (drop oldLen (children_of newVNode)))
      as (σ' & extra & Hrun & Hl' & Hdesc & Hnext & Hids & Hframe).
    { apply Forall_drop. by apply children_of_null_free. }
    { apply Forall_drop. by apply host_names_children. }
    { done. }
    exists σ', extra. split_and!; try done.
    + unfold append_new_children. by rewrite (bind_ok _ _ _ _ _ Hrun).
    + intros y Hy Hne _. by apply Hframe.
  - rewrite bool_decide_eq_false_2 by done.
    rewrite (bind_ok _ _ σ () σ) by done.
    destruct (decide (newLen < oldLen)) as [Hshrink|Hnshrink].
    + rewrite bool_decide_eq_true_2 by done.
      assert (Hnl : newLen = length front) by lia. rewrite Hnl.
      destruct (remove_extra_children_spec _ _ _ _ _ _ _ Hl)
        as (σ' & Hrun & Hl' & Hnext & Hframe & Hgone & _).
      exists σ', []. rewrite app_nil_r, drop_ge by lia. split_and!; try done.
      * lia.
      * intros x Hx. by apply elem_of_nil in Hx.
      * intros y _ Hne Hnin. by apply Hframe.
    + rewrite bool_decide_eq_false_2 by done.
      assert (rest = []) as -> by (apply length_zero_iff_nil; lia).
      exists σ, []. rewrite drop_ge by lia. split_and!; try done.
      intros x Hx. by apply elem_of_nil in Hx.
Qed.

(** ** Case 5: two elements of the same type *)

Lemma bind_assoc {A B C} (m : M A) (f : A → M B) (g : B → M C) σ :
  bind (bind m f) g σ = bind m (λ x, bind (f x) g) σ.
Proof. unfold bind. by destruct (m σ) as [[a|e|] σ']. Qed.

Lemma live_set_attrs σ par id tag a a' kids evs :
  live σ par (LElem id tag a kids) →
  live (with_nodes σ (<[id := Node par (Element tag a' (root <$> kids))]> (nodes σ)) evs)
       par (LElem id tag a' kids).
Proof.
  intros Hl. destruct (live_elem_inv _ _ _ _ _ _ Hl) as (Hid & Hkids & Hnotin & Hnd & Hlt).
  destruct Hl as (_ & Hndt & Hok). unfold live, with_nodes. cbn [nodes next]. split_and!.
  - constructor; [apply lookup_insert_eq|].
    apply Forall_forall. intros c Hc. eapply holds_agree; [by eapply Forall_forall in Hkids|].
    intros x Hx. rewrite lookup_insert_ne; [done|]. intros <-.
    apply Hnotin. by eapply ids_kid.
  - done.
  - intros y n. cbn [nodes next]. destruct (decide (y = id)) as [->|?]; [done|].
    rewrite lookup_insert_ne by done. apply Hok.
Qed.

Lemma diff_elem_spec oldVNode newVNode par id tag attrs kids σ :
  Forall diff_correct (children_of oldVNode) →
  well_formed oldVNode = true → well_formed newVNode = true →
  folded_names oldVNode = true → host_names newVNode = true →
  is_string oldVNode = false →
  same_type oldVNode newVNode = true →
  describes (LElem id tag attrs kids) oldVNode →
  live σ par (LElem id tag attrs kids) →
  ∃ σ' kids',
    diff oldVNode newVNode (Some id) σ = (Ok (), σ') ∧
    live σ' par (LElem id tag (diffed_attrs (props_of oldVNode) (props_of newVNode) attrs) kids') ∧
    next σ ≤ next σ' ∧
    (∀ x, x ∈ mjoin (ids <$> kids') → x ∈ mjoin (ids <$> kids) ∨ next σ ≤ x) ∧
    (∀ x, x < next σ → x ∉ mjoin (ids <$> kids) → x ≠ id → nodes σ' !! x = nodes σ !! x) ∧
    children_reconciled oldVNode newVNode kids kids' σ σ'.
Proof.
  intros HIH Hwo Hwn Hfo Hhn Hstr Hty Hdesc Hl.
  assert (Hkids : Forall2 describes kids (children_of oldVNode)).
  { inversion Hdesc; subst. by destruct cs. }
  pose proof (Forall2_length _ _ _ Hkids) as Hlen.
  destruct (live_elem_inv _ _ _ _ _ _ Hl) as (Hid & _ & Hnotin & Hnd & Hlt).
  rewrite diff_unfold. rewrite Hstr. cbn [andb].
  rewrite (well_formed_not_null _ Hwo), (well_formed_not_null _ Hwn).
  unfold same_type in Hty. rewrite Hty. cbn [negb].
  rewrite <- bind_assoc.
  rewrite (bind_ok _ _ _ _ _ (diff_attributes_run oldVNode newVNode _ _ _ _ _ _ Hid
                                (folded_names_props _ Hfo) (host_names_props_of _ Hhn))).
  set (attrs' := diffed_attrs _ _ _).
  pose proof (live_set_attrs _ _ _ _ _ attrs' _
                (attr_events id (props_of oldVNode) (props_of newVNode)) Hl) as Hla.
  set (σa := with_nodes σ _ _) in *.
  unfold diff_children.
  destruct (diff_loop_spec par id tag attrs' (children_of oldVNode) HIH
              (children_of newVNode) kids [] σa)
    as (σl & front & Hrunl & Hlenf & Hll & Hnextl & Hidsl & Hframel & Hpoint);
    [by apply well_formed_children | by apply well_formed_children
     | by apply folded_names_children | by apply host_names_children | done | done |].
  cbn [app length] in Hrunl, Hll. rewrite (bind_ok _ _ _ _ _ Hrunl).
  destruct (adjust_tail_spec oldVNode newVNode σl par id tag attrs' front (drop (length front) kids))
    as (σ' & extra & Hrun & Hl' & Hextra & Hnext & Hidse & Hframe & Hgone); try done.
  { rewrite length_app, length_drop. lia. }
  assert (Hnexta : next σa = next σ) by done.
  assert (Hrest : ∀ y, y ∈ root <$> drop (length front) kids → y ∈ mjoin (ids <$> kids)).
  { intros y Hy. apply roots_in_ids. apply list_elem_of_fmap in Hy as (c & -> & Hc).
    apply list_elem_of_fmap_2. rewrite <- (take_drop (length front) kids).
    apply elem_of_app. by right. }
  exists σ', (front ++ extra). split_and!; try done.
  - lia.
  - intros x. rewrite ids_app. intros [Hx|Hx]%elem_of_app.
    + destruct (Hidsl x Hx) as [?|?]; [by left | right; lia].
    + apply Hidse in Hx. right. lia.
  - intros x Hx Hnin Hne. rewrite Hframe; [| lia | done | by intros ?%Hrest].
    rewrite Hframel; [| lia | done | done].
    unfold σa, with_nodes. cbn [nodes]. by rewrite lookup_insert_ne.
  - unfold children_reconciled. split_and!.
    + rewrite length_app. rewrite (Forall2_length _ _ _ Hextra), length_drop. lia.
    + intros j o n t Ho Hn Ht. destruct (Hpoint j o n t Ho Hn Ht) as (t' & Hj & Hres).
      exists t'. split; [by rewrite lookup_app_l by (by eapply lookup_lt_Some)|].
      destruct Hres as (? & Hf & ?). by split_and!.
    + intros j n Hj Hn.
      assert (j < length (children_of newVNode)) by (by eapply lookup_lt_Some).
      assert (Hn' : drop (length (children_of oldVNode)) (children_of newVNode)
                      !! (j - length (children_of oldVNode)) = Some n).
      { rewrite lookup_drop. rewrite <- Hn. f_equal. lia. }
      destruct (Forall2_lookup_r _ _ _ _ _ Hextra Hn') as (t' & Ht' & Hdt').
      exists t'. split_and!.
      * rewrite lookup_app_r by lia. rewrite <- Ht'. f_equal. lia.
      * done.
      * intros x Hx. assert (next σl ≤ x); [|lia].
        apply Hidse. eapply ids_kid; [|done]. by eapply list_elem_of_lookup_2.
    + intros j t Hj Ht. eapply Forall_forall in Hgone; [done|].
      apply list_elem_of_lookup. exists (j - length front).
      rewrite lookup_drop. rewrite <- Ht. f_equal. lia.
Qed.

(** ** diff is correct on every well-formed pair *)

Lemma children_described oldVNode newVNode kids kids' σ σ' :
  plain_names oldVNode = true →
  length kids = length (children_of oldVNode) →
  children_reconciled oldVNode newVNode kids kids' σ σ' →
  Forall2 describes kids' (children_of newVNode).
Proof.
  intros Hplain Hlen (Hlen' & Hpoint & Hsurplus & _).
  apply Forall2_same_length_lookup_2; [done|].
  intros j t' n Ht' Hn.
  destruct (decide (j < length (children_of oldVNode))) as [Hj|Hj].
  - destruct (lookup_lt_is_Some_2 (children_of oldVNode) j Hj) as [o Ho].
    destruct (lookup_lt_is_Some_2 kids j) as [t Ht]; [lia|].
    destruct (Hpoint j o n t Ho Hn Ht) as (t'' & Ht'' & _ & _ & Hd).
    simplify_eq. apply Hd.
    pose proof (plain_names_children _ Hplain) as Hall.
    rewrite Forall_forall in Hall. apply Hall. by eapply list_elem_of_lookup_2.
  - destruct (Hsurplus j n) as (t'' & Ht'' & Hd & _); [lia | done |]. by simplify_eq.
Qed.

Theorem diff_spec oldVNode : diff_correct oldVNode.
Proof.
  induction oldVNode as [| s | ty po co IH] using vnode_nested_ind.
  - by intros newVNode par i t σ (? & _).
  - apply diff_text_correct.
  - intros newVNode par i t σ Hpre Hfo Hhn.
    destruct (same_type (VElem ty po co) newVNode) eqn:Hty; [|by apply diff_replace_correct].
    destruct Hpre as (Hwo & Hwn & Hdesc & Hl & Hpar & _).
    assert (Hchildren : children_of (VElem ty po co) = default [] co) by (by destruct co).
    inversion Hdesc as [|id ty' po' co' kids Hkids]; subst.
    destruct (diff_elem_spec (VElem ty po co) newVNode par id (tag_string ty) (default ∅ po) kids σ)
      as (σ' & kids' & Hrun & Hl' & Hnext & Hids & Hframe & Hch); try done.
    exists σ', (LElem id (tag_string ty)
                  (diffed_attrs (props_of (VElem ty po co)) (props_of newVNode) (default ∅ po)) kids').
    split; [done|]. unfold reconciled. cbn [root ids]. split_and!; try done.
    + intros ?. congruence.
    + intros x [->|Hx]%elem_of_cons; [left; by left|].
      destruct (Hids x Hx) as [?|?]; [left; by right | by right].
    + intros x Hx Hnin _. apply Hframe; [done | |].
      * intros ?. apply Hnin. by right.
      * intros ->. apply Hnin. by left.
    + intros p pn tag attrs ks -> Hp Hi _. rewrite list_insert_id by done.
      rewrite Hframe; [done | | |].
      * destruct Hl as (_ & _ & Hok). by eapply Hok.
      * intros ?. apply (Hpar p eq_refl). by right.
      * intros ->. apply (Hpar id eq_refl). by left.
    + intros Hplain.
      assert (Hkids' : Forall2 describes kids' (children_of newVNode)).
      { eapply children_described; [done | | done].
        rewrite Hchildren. by eapply Forall2_length. }
      unfold same_type in Hty. apply bool_decide_eq_true in Hty. cbn [type_of] in Hty.
      destruct newVNode as [| s2 | ty2 p2 cs2]; [done | |].
      { simpl in Hty, Hwo. subst. by destruct co. }
      cbn [type_of] in Hty. subst ty2.
      rewrite diffed_attrs_plain.
      * replace (props_of (VElem ty p2 cs2)) with (default ∅ p2) by (by destruct p2).
        constructor. by destruct cs2.
      * intros k v Hk. eapply (plain_names_props (VElem ty po co)); [done|].
        replace (props_of (VElem ty po co)) with (default ∅ po) by (by destruct po). done.
Qed.

(** ** Reconciling a description with itself *)

Lemma for_both_same par id tag attrs (cs : list vnode) :
  Forall (λ c, ∀ t par σ, describes t c → holds (nodes σ) par t →
                 diff c c (Some (root t)) σ = (Ok (), σ)) cs →
  ∀ kids before σ,
    Forall2 describes kids cs →
    nodes σ !! id = Some (Node par (Element tag attrs (root <$> (before ++ kids)))) →
    Forall (holds (nodes σ) (Some id)) kids →
    for_both (λ i o n, let* c := childNodes_item (Some id) i in diff o n c)
      (length before) cs cs σ = (Ok (), σ).
Proof.
  induction 1 as [|c cs Hc Hcs IH]; intros kids before σ Hdesc Hid Hkids; [done|].
  apply Forall2_cons_inv_r in Hdesc as (t & kids' & Hdt & Hdesc & ->).
  apply Forall_cons in Hkids as [Ht Hkids].
  rewrite for_both_cons. rewrite (bind_ok _ _ σ () σ).
  - replace (S (length before)) with (length (before ++ [t])) by (rewrite length_app; simpl; lia).
    apply (IH kids'); [done | by rewrite <- app_assoc | done].
  - rewrite (bind_ok _ _ _ _ _ (childNodes_item_run _ _ _ _ Hid)).
    unfold child_list. cbn [kind].
    rewrite fmap_app, fmap_cons, <- (length_fmap root before), lookup_middle.
    by eapply Hc.
Qed.

Lemma diff_same d :
  null_free d = true →
  ∀ t par σ, describes t d → holds (nodes σ) par t →
             diff d d (Some (root t)) σ = (Ok (), σ).
Proof.
  induction d as [| s | ty props cs IH] using vnode_nested_ind; intros Hnf t par σ Hdesc Hh.
  - done.
  - rewrite diff_unfold. cbn [is_string andb text_neq].
    by rewrite String.eqb_refl.
  - inversion Hdesc as [|id ty' po' co' kids Hkids]; subst. inversion Hh; subst.
    rewrite diff_unfold. cbn [is_string andb is_nullish type_of root].
    rewrite bool_decide_eq_true_2 by done. cbn [negb].
    unfold remove_old_attributes, update_new_attributes.
    rewrite (bind_ok _ _ σ () σ); cycle 1.
    { apply for_each_skip. intros [k v] Hkv%elem_of_map_to_list.
      unfold js_in. rewrite Hkv. by rewrite bool_decide_eq_true_2 by eauto. }
    rewrite (bind_ok _ _ σ () σ); cycle 1.
    { apply for_each_skip. intros [k v] Hkv%elem_of_map_to_list.
      unfold js_in, js_get. rewrite Hkv. rewrite bool_decide_eq_true_2 by eauto.
      simpl. by rewrite String.eqb_refl. }
    unfold diff_children.
    replace (children_of (VElem ty props cs)) with (default [] cs) by (by destruct cs).
    rewrite (bind_ok _ _ σ () σ); cycle 1.
    { apply (for_both_same par id (tag_string ty) (default ∅ props) (default [] cs))
        with (kids := kids) (before := []); try done.
      pose proof (null_free_children _ _ _ Hnf) as Hnfc.
      rewrite Forall_forall in IH, Hnfc. apply Forall_forall.
      intros c Hc t' par' σ'. by apply IH; [|apply Hnfc]. }
    unfold adjust_tail.
    replace (children_of (VElem ty props cs)) with (default [] cs) by (by destruct cs).
    by rewrite !bool_decide_eq_false_2 by lia.
Qed.

(** ** The calls of the attribute diff *)

Lemma elem_of_join_fmap {A B} (f : A → list B) (l : list A) (e : B) :
  e ∈ mjoin (f <$> l) ↔ ∃ x, x ∈ l ∧ e ∈ f x.
Proof.
  rewrite list_elem_of_join. split.
  - intros (k & He & (x & -> & Hx)%list_elem_of_fmap). by exists x.
  - intros (x & Hx & He). exists (f x). split; [done|]. by apply list_elem_of_fmap_2.
Qed.

(** Line 83 holds exactly when the old mapping does not have this value
    under this key. *)
Lemma update_condition po k v :
  negb (js_in k po) || strict_neq (js_get po k) v = true ↔ po !! k ≠ Some v.
Proof.
  unfold js_in, js_get, strict_neq. destruct (po !! k) as [v'|] eqn:Hk.
  - rewrite bool_decide_eq_true_2 by eauto. simpl.
    destruct (String.eqb_spec v' v) as [->|Hne]; simpl; split; try done.
    intros _ [= ?]. done.
  - rewrite bool_decide_eq_false_2 by (by intros [? ?]). simpl.
    by destruct (is_inherited k).
Qed.

(** [removeAttribute] is called for the old keys that [in] does not find
    in the new mapping. *)
Lemma remove_call_iff id po pn k :
  RemoveAttribute id k ∈ attr_events id po pn
  ↔ is_Some (po !! k) ∧ js_in k pn = false.
Proof.
  unfold attr_events. rewrite elem_of_app, !elem_of_join_fmap. split.
  - intros [([k' v'] & Hx & He) | ([k' v'] & Hx & He)]; simpl in He.
    + destruct (js_in k' pn) eqn:Hin; simpl in He; [by apply elem_of_nil in He|].
      apply list_elem_of_singleton in He. simplify_eq.
      apply elem_of_map_to_list in Hx. eauto.
    + destruct (negb (js_in k' po) || strict_neq (js_get po k') v');
        [by apply list_elem_of_singleton in He | by apply elem_of_nil in He].
  - intros [[v Hv] Hin]. left. exists (k, v). split; [by apply elem_of_map_to_list|].
    simpl. rewrite Hin. simpl. by left.
Qed.

(** [setAttribute] is called for the new entries that the old mapping does
    not have with that value, and for no other: an attribute that is the
    same in both mappings gets no write. *)
Lemma set_call_iff id po pn k v :
  SetAttribute id k v ∈ attr_events id po pn
  ↔ pn !! k = Some v ∧ po !! k ≠ Some v.
Proof.
  unfold attr_events. rewrite elem_of_app, !elem_of_join_fmap. split.
  - intros [([k' v'] & Hx & He) | ([k' v'] & Hx & He)]; simpl in He.
    + destruct (negb (js_in k' pn));
        [by apply list_elem_of_singleton in He | by apply elem_of_nil in He].
    + destruct (negb (js_in k' po) || strict_neq (js_get po k') v') eqn:Hc;
        [|by apply elem_of_nil in He].
      apply list_elem_of_singleton in He. simplify_eq.
      apply elem_of_map_to_list in Hx. split; [done|]. by apply update_condition.
  - intros [Hv Hne]. right. exists (k, v). split; [by apply elem_of_map_to_list|].
    simpl. apply update_condition in Hne. rewrite Hne. by left.
Qed.

(** X9. On two same-type elements, when the attribute names of the old
    description are in folded form and the host keeps the names of the new
    one, the attributes of the live node after [diff] are those of the new
    description, plus the old attributes that the new description lacks
    and whose names are inherited. *)
Lemma same_type_attributes oldVNode newVNode par id tag attrs kids σ :
  well_formed oldVNode = true → well_formed newVNode = true →
  folded_names oldVNode = true → host_names newVNode = true →
  same_type oldVNode newVNode = true →
  describes (LElem id tag attrs kids) oldVNode →
  live σ par (LElem id tag attrs kids) →
  ∃ σ' attrs',
    diff oldVNode newVNode (Some id) σ = (Ok (), σ') ∧
    (∃ n, nodes σ' !! id = Some n ∧ parentNode n = par ∧
          ∃ cs, kind n = Element tag attrs' cs) ∧
    ∀ k, attrs' !! k
         = match props_of newVNode !! k with
           | Some v => Some v
           | None => if is_inherited k then props_of oldVNode !! k else None
           end.
Proof.
  intros Hwo Hwn Hfo Hhn Hty Hdesc Hl.
  destruct (diff_elem_spec oldVNode newVNode par id tag attrs kids σ)
    as (σ' & kids' & Hrun & Hl' & _); try done.
  { apply Forall_forall. intros c _. apply diff_spec. }
  { by inversion Hdesc. }
  destruct (live_elem_inv _ _ _ _ _ _ Hl') as (Hid & _).
  eexists σ', _. split_and!; [done | by eauto | ].
  intros k. inversion Hdesc; subst.
  replace (default ∅ props) with (props_of (VElem ty props cs)) by (by destruct props).
  apply diffed_attrs_lookup.
Qed.

(** ** There and back *)

Lemma elem_of_insert_inv (l : list nat) i x y :
  y ∈ <[i := x]> l → y = x ∨ y ∈ l.
Proof.
  revert i. induction l as [|a l IH]; intros [|i]; simpl; try (by right).
  - intros [->|?]%elem_of_cons; [by left | right; by right].
  - intros [->|Hy]%elem_of_cons; [right; by left|].
    destruct (IH i Hy) as [?|?]; [by left | right; by right].
Qed.

Lemma NoDup_insert_fresh (l : list nat) i x :
  NoDup l → x ∉ l → NoDup (<[i := x]> l).
Proof.
  revert i. induction l as [|a l IH]; intros [|i] Hnd Hx; simpl; try done.
  - apply NoDup_cons in Hnd as [_ Hnd]. constructor; [|done].
    intros ?. apply Hx. by right.
  - apply NoDup_cons in Hnd as [Ha Hnd]. constructor.
    + intros [->|?]%elem_of_insert_inv; [|done]. apply Hx. by left.
    + apply IH; [done|]. intros ?. apply Hx. by right.
Qed.

Lemma same_type_sym a b : same_type a b = same_type b a.
Proof. unfold same_type. apply bool_decide_ext. split; congruence. Qed.

(** X7. When no attribute name of either description is an inherited one
    and the host keeps the names of both, reconciling [a] to [b] and then
    [b] back to [a] at the same place leaves there a live tree that [a]
    describes, as [createTree a] would build.  The parent, if any, has
    live children only. *)
Lemma round_trip_plain_names a b par i t σ :
  plain_names a = true → plain_names b = true →
  host_names a = true → host_names b = true →
  reconcilable a b par i t σ →
  (∀ p, par = Some p →
        ∃ n, nodes σ !! p = Some n ∧ ∀ c, c ∈ child_list n → c < next σ) →
  ∃ σ1 t1 σ2 t2,
    diff a b (Some (root t)) σ = (Ok (), σ1) ∧ live σ1 par t1 ∧ describes t1 b ∧
    diff b a (Some (root t1)) σ1 = (Ok (), σ2) ∧ live σ2 par t2 ∧ describes t2 a ∧
    (same_type a b = true → root t2 = root t).
Proof.
  intros Hpa Hpb Hha Hhb Hpre Hclosed.
  destruct (diff_spec a b par i t σ Hpre (host_names_folded _ Hha) Hhb)
    as (σ1 & t1 & Hrun1 & Hl1 & Hsame1 & Hfresh1 & Hids1 & Hnext1 & _ & Hparent1 & Hdesc1).
  specialize (Hdesc1 Hpa).
  destruct Hpre as (Hwa & Hwb & _ & (_ & _ & Hok) & Hpar & Hatt).
  assert (Hpre2 : reconcilable b a par i t1 σ1).
  { split_and!; try done.
    - intros p Hp Hin. destruct (Hclosed p Hp) as (n & Hn & _).
      destruct (Hids1 _ Hin) as [?|?]; [by eapply Hpar|].
      assert (p < next σ) by (by eapply Hok). lia.
    - rewrite same_type_sym. intros Hty.
      destruct (Hatt Hty) as (p & pn & tag & attrs & ks & -> & Hp & Hi & Hnd).
      exists p, pn, tag, attrs, (<[i := root t1]> ks). split_and!.
      + done.
      + by apply Hparent1.
      + apply list_lookup_insert_eq. by eapply lookup_lt_Some.
      + apply NoDup_insert_fresh; [done|]. intros Hin.
        destruct (Hclosed p eq_refl) as (n & Hn & Hlive). rewrite Hp in Hn. simplify_eq.
        specialize (Hlive _ Hin). specialize (Hfresh1 Hty). lia. }
  destruct (diff_spec b a par i t1 σ1 Hpre2 (host_names_folded _ Hhb) Hha)
    as (σ2 & t2 & Hrun2 & Hl2 & Hsame2 & _ & _ & _ & _ & _ & Hdesc2).
  exists σ1, t1, σ2, t2. split_and!; try done.
  - by apply Hdesc2.
  - intros Hty. rewrite Hsame2 by (by rewrite same_type_sym). by apply Hsame1.
Qed.

(** ** createTree on any description *)

Lemma bind_throw {A B} (m : M A) (f : A → M B) σ e σ' :
  m σ = (Throw e, σ') → bind m f σ = (Throw e, σ').
Proof. intros H. unfold bind. by rewrite H. Qed.

Lemma mirrors_ind' (lo : nat) (h : gmap nat node) (P : nat → vnode → Prop) :
  (∀ id par s, lo ≤ id → h !! id = Some (Node par (Text s)) → P id (VText s)) →
  (∀ id par tag attrs ks ty props cs,
     lo ≤ id → h !! id = Some (Node par (Element tag attrs ks)) →
     Forall2 (mirrors lo h) ks (default [] cs) →
     Forall2 P ks (default [] cs) →
     P id (VElem ty props cs)) →
  ∀ id v, mirrors lo h id v → P id v.
Proof.
  intros HT HE. fix IH 3. intros id v [id' par s Hlo Hid | id' par tag attrs ks ty props cs Hlo Hid Hks].
  - by eapply HT.
  - assert (HP : Forall2 P ks (default [] cs)); [|by eapply HE].
    clear Hid. revert Hks. generalize (default [] cs). intros l Hks.
    induction Hks as [|k c ks' l' Hk Hks IHks]; [constructor|].
    constructor; [by apply IH | done].
Qed.

(** A store that keeps the kind of every node from [lo'] on keeps the
    shape. *)
Lemma mirrors_stable lo lo' h h' id v :
  mirrors lo h id v → lo' ≤ lo →
  (∀ x n, lo ≤ x → h !! x = Some n → ∃ p, h' !! x = Some (Node p (kind n))) →
  mirrors lo' h' id v.
Proof.
  intros Hm Hlo Hkeep. induction Hm as [id par s Hid Hn | id par tag attrs ks ty props cs Hid Hn _ IH]
    using mirrors_ind'.
  - destruct (Hkeep _ _ Hid Hn) as [p Hp]. eapply mirrors_text; [lia | exact Hp].
  - destruct (Hkeep _ _ Hid Hn) as [p Hp]. eapply mirrors_elem; [lia | exact Hp | done].
Qed.

(** The attribute loop of lines 17-19 on any names. *)
Lemma set_attributes_any el par tag cs (l : list (string * string)) :
  ∀ a σ, nodes σ !! el = Some (Node par (Element tag a cs)) →
  ∃ r a' evs,
    for_each l (λ '(key, value), setAttribute (Some el) key value) σ
    = (r, with_nodes σ (<[el := Node par (Element tag a' cs)]> (nodes σ)) evs) ∧
    (if forallb (λ x, valid_attribute x.1) l then r = Ok ()
     else r = Throw InvalidCharacterError).
Proof.
  induction l as [|[k v] l IH]; intros a σ Hel.
  - exists (Ok ()), a, []. split; [|done]. simpl.
    rewrite insert_id by done. by rewrite with_nodes_id.
  - rewrite for_each_cons. cbn [forallb fst].
    destruct (valid_attribute k) eqn:Hk.
    + assert (Hset : setAttribute (Some el) k v σ
                     = (Ok (), with_nodes σ
                                 (<[el := Node par (Element tag (<[fold_name k := v]> a) cs)]>
                                    (nodes σ)) [SetAttribute el k v])).
      { unfold setAttribute, bind, deref. rewrite Hel. cbn [kind]. by rewrite Hk. }
      rewrite (bind_ok _ _ _ _ _ Hset).
      destruct (IH (<[fold_name k := v]> a) (with_nodes σ
                  (<[el := Node par (Element tag (<[fold_name k := v]> a) cs)]> (nodes σ))
                  [SetAttribute el k v])) as (r & a' & evs & Hrun & Hr).
      { cbn [nodes with_nodes]. apply lookup_insert_eq. }
      exists r, a', ([SetAttribute el k v] ++ evs). split; [|done].
      rewrite Hrun, with_nodes_with_nodes. cbn [nodes with_nodes].
      by rewrite insert_insert_eq.
    + exists (Throw InvalidCharacterError), a, []. split; [|done].
      rewrite insert_id by done. rewrite with_nodes_id.
      apply bind_throw. by eapply setAttribute_invalid.
Qed.

Lemma build_children_any σ0 el tag p (cs : list vnode) :
  Forall createTree_outcome cs →
  ∀ σ ks (before : list vnode),
    heap_ok σ → el < next σ → next σ0 ≤ next σ →
    (∀ x, x < el → nodes σ !! x = nodes σ0 !! x) →
    nodes σ !! el = Some (Node None (Element tag p ks)) →
    Forall2 (mirrors (S el) (nodes σ)) ks before →
    ∃ r σ',
      for_each cs (λ child, let* c := createTree child in appendChild (Some el) c) σ = (r, σ') ∧
      heap_ok σ' ∧ el < next σ' ∧ next σ0 ≤ next σ' ∧
      (∀ x, x < el → nodes σ' !! x = nodes σ0 !! x) ∧
      match r with
      | Ok _ => forallb buildable cs = true ∧
                ∃ ks', nodes σ' !! el = Some (Node None (Element tag p ks')) ∧
                       Forall2 (mirrors (S el) (nodes σ')) ks' (before ++ cs)
      | Throw e => forallb buildable cs = false ∧ (e = TypeError ∨ e = InvalidCharacterError)
      | Diverge => False
      end.
Proof.
  induction 1 as [|c cs Hc Hcs IH]; intros σ ks before Hok Hlt Hnext Hframe Hel Hks.
  { exists (Ok ()), σ. split_and!; try done. exists ks. by rewrite app_nil_r. }
  rewrite for_each_cons. cbn [forallb].
  destruct (Hc σ Hok) as (r & σ1 & Hrun & Hok1 & Hnext1 & Hframe1 & Hr).
  destruct r as [n|e|]; [| |done].
  - destruct Hr as (Hbc & -> & [k Hk] & Hm).
    assert (Hel1 : nodes σ1 !! el = Some (Node None (Element tag p ks)))
      by (by rewrite Hframe1).
    assert (Hne : next σ ≠ el) by lia.
    pose proof (appendChild_run σ1 el None tag p ks (next σ) k Hel1 Hk Hne) as Happ.
    set (σ2 := with_nodes σ1 _ _) in Happ.
    assert (Hlt1 : next σ < next σ1).
    { pose proof (Hok1 _ _ Hk) as Hx. simpl in Hx. lia. }
    destruct (IH σ2 (ks ++ [next σ]) (before ++ [c]))
      as (r & σ' & Hrest & Hok' & Hlt' & Hnext' & Hframe' & Hr').
    + intros y n. unfold σ2, with_nodes. cbn [nodes next].
      destruct (decide (y = next σ)) as [->|?]; [intros _; lia|].
      destruct (decide (y = el)) as [->|?]; [intros _; lia|].
      rewrite !lookup_insert_ne by done. apply Hok1.
    + unfold σ2, with_nodes. cbn [next]. lia.
    + unfold σ2, with_nodes. cbn [next]. lia.
    + intros x Hx. unfold σ2, with_nodes. cbn [nodes].
      rewrite !lookup_insert_ne by lia. rewrite Hframe1 by lia. by apply Hframe.
    + unfold σ2, with_nodes. cbn [nodes].
      rewrite lookup_insert_ne by lia. apply lookup_insert_eq.
    + assert (Hkeep : ∀ x n, S el ≤ x → nodes σ1 !! x = Some n →
                        ∃ q, nodes σ2 !! x = Some (Node q (kind n))).
      { intros x n Hx Hn. unfold σ2, with_nodes. cbn [nodes].
        destruct (decide (x = next σ)) as [->|?].
        - rewrite lookup_insert_eq. rewrite Hk in Hn. simplify_eq. by eexists.
        - rewrite !lookup_insert_ne by lia. destruct n. by eexists. }
      apply Forall2_app.
      * eapply Forall2_impl; [exact Hks|]. intros x v Hxv.
        eapply mirrors_stable; [exact Hxv | done |].
        intros y n Hy Hn. apply Hkeep; [done|].
        destruct (decide (y < next σ)); [by rewrite Hframe1|].
        pose proof (Hok _ _ Hn) as Hy'. simpl in Hy'. lia.
      * constructor; [|constructor].
        eapply mirrors_stable; [exact Hm | lia |].
        intros y n Hy Hn. apply Hkeep; [lia | done].
    + exists r, σ'. split_and!; try done.
      * rewrite (bind_ok _ _ σ () σ2); [done|]. by rewrite (bind_ok _ _ _ _ _ Hrun).
      * rewrite Hbc. cbn [andb]. destruct r as [[]|e|]; [|done|done].
        destruct Hr' as (? & ks' & ? & Hall). split; [done|]. exists ks'.
        by rewrite <- app_assoc in Hall.
  - destruct Hr as (Hbc & He).
    exists (Throw e), σ1. split_and!; try done.
    + apply bind_throw. by apply bind_throw.
    + lia.
    + lia.
    + intros x Hx. rewrite Hframe1 by lia. by apply Hframe.
    + by rewrite Hbc.
Qed.

Lemma createTree_outcome_all v : createTree_outcome v.
Proof.
  induction v as [| s | ty props cs IH] using vnode_nested_ind; intros σ Hok.
  - exists (Throw TypeError), σ. split_and!; try done. by left.
  - eexists (Ok (next σ)), _. split; [done|]. cbn [nodes next]. split_and!.
    + intros x n. cbn [nodes next]. destruct (decide (x = next σ)) as [->|?]; [intros _; lia|].
      rewrite lookup_insert_ne by done. intros H. apply Hok in H. lia.
    + lia.
    + intros x Hx. apply lookup_insert_ne. lia.
    + done.
    + done.
    + eexists. apply lookup_insert_eq.
    + eapply mirrors_text; [done | apply lookup_insert_eq].
  - rewrite createTree_elem. cbn [buildable].
    change (default "undefined" ty) with (tag_string ty).
    destruct (valid_tag (tag_string ty)) eqn:Htag; cycle 1.
    { exists (Throw InvalidCharacterError), σ. split_and!; try done.
      - apply bind_throw. by apply createElement_invalid.
      - by right. }
    set (el := next σ). set (tag := fold_name (tag_string ty)).
    set (σ1 := Document (<[el := Node None (Element tag ∅ [])]> (nodes σ)) (S el) (log σ)).
    assert (H1 : createElement (tag_string ty) σ = (Ok el, σ1)).
    { unfold createElement. by rewrite Htag. }
    rewrite (bind_ok _ _ _ _ _ H1).
    assert (Hel1 : nodes σ1 !! el = Some (Node None (Element tag ∅ []))) by apply lookup_insert_eq.
    destruct (set_attributes_any el None tag [] (map_to_list (default ∅ props)) ∅ σ1 Hel1)
      as (r & a' & evs & Hattrs & Hr).
    set (σ2 := with_nodes σ1 _ evs) in Hattrs.
    assert (Hok2 : heap_ok σ2).
    { intros x n. unfold σ2, σ1, with_nodes. cbn [nodes next].
      destruct (decide (x = el)) as [->|?]; [intros _; lia|].
      rewrite !lookup_insert_ne by done. intros H. apply Hok in H. fold el in H. lia. }
    assert (Hframe2 : ∀ x, x < el → nodes σ2 !! x = nodes σ !! x).
    { intros x Hx. unfold σ2, σ1, with_nodes. cbn [nodes]. by rewrite !lookup_insert_ne by lia. }
    assert (Hvalid : forallb (λ x : string * string, valid_attribute x.1) (map_to_list (default ∅ props))
                     = bool_decide (map_Forall (λ k _, valid_attribute k = true) (default ∅ props))).
    { apply eq_true_iff_eq. rewrite forallb_forall, bool_decide_eq_true. split.
      - intros H k x Hk. apply (H (k, x)). apply list_elem_of_In. by apply elem_of_map_to_list.
      - intros H [k x] Hin%list_elem_of_In%elem_of_map_to_list. by eapply H. }
    rewrite Hvalid in Hr. cbn [andb].
    destruct (bool_decide (map_Forall (λ k _, valid_attribute k = true) (default ∅ props))); cycle 1.
    { subst r. exists (Throw InvalidCharacterError), σ2. split_and!; try done.
      - by apply bind_throw.
      - unfold σ2, σ1, with_nodes. cbn [next]. lia.
      - by right. }
    subst r. rewrite (bind_ok _ _ _ _ _ Hattrs). cbn [andb].
    destruct (build_children_any σ el tag a' (default [] cs) IH σ2 [] [])
      as (r & σ3 & Hloop & Hok3 & Hlt3 & Hnext3 & Hframe3 & Hr); try done.
    { unfold σ2, σ1, with_nodes. cbn [next]. lia. }
    { unfold σ2, σ1, with_nodes. cbn [next]. lia. }
    { unfold σ2, with_nodes. cbn [nodes]. apply lookup_insert_eq. }
    assert (Hcs : match cs with Some l => forallb buildable l | None => true end
                  = forallb buildable (default [] cs)) by (by destruct cs).
    rewrite Hcs.
    destruct r as [[]|e|]; [| |done].
    + destruct Hr as (Hb & ks' & Hel3 & Hall). cbn [app] in Hall.
      exists (Ok el), σ3. split_and!; try done.
      * rewrite (bind_ok _ _ _ _ _ Hloop). done.
      * by eexists.
      * eapply mirrors_elem; [done | exact Hel3 |].
        eapply Forall2_impl; [exact Hall|]. intros x v Hxv.
        eapply mirrors_stable; [exact Hxv | unfold el; lia |].
        intros y [q kd] _ Hn. by exists q.
    + destruct Hr as (Hb & He). exists (Throw e), σ3. split_and!; try done.
      by apply bind_throw.
Qed.

(** ** Reconciling a description with itself, on any node of its shape *)

Lemma for_both_mirrors lo par id tag attrs (cs : list vnode) :
  Forall (λ c, ∀ id σ, mirrors lo (nodes σ) id c →
                 diff c c (Some id) σ = (Ok (), σ)) cs →
  ∀ ks before σ,
    Forall2 (mirrors lo (nodes σ)) ks cs →
    nodes σ !! id = Some (Node par (Element tag attrs (before ++ ks))) →
    for_both (λ i o n, let* c := childNodes_item (Some id) i in diff o n c)
      (length before) cs cs σ = (Ok (), σ).
Proof.
  induction 1 as [|c cs Hc Hcs IH]; intros ks before σ Hm Hid; [done|].
  apply Forall2_cons_inv_r in Hm as (k & ks' & Hk & Hm & ->).
  rewrite for_both_cons. rewrite (bind_ok _ _ σ () σ).
  - replace (S (length before)) with (length (before ++ [k])) by (rewrite length_app; simpl; lia).
    apply (IH ks'); [done | by rewrite <- app_assoc].
  - rewrite (bind_ok _ _ _ _ _ (childNodes_item_run _ _ _ _ Hid)).
    unfold child_list. cbn [kind]. rewrite lookup_middle. by apply Hc.
Qed.

Lemma diff_same_mirrors d :
  ∀ lo id σ, mirrors lo (nodes σ) id d → diff d d (Some id) σ = (Ok (), σ).
Proof.
  induction d as [| s | ty props cs IH] using vnode_nested_ind; intros lo id σ Hm.
  - inversion Hm.
  - rewrite diff_unfold. cbn [is_string andb text_neq]. by rewrite String.eqb_refl.
  - inversion Hm as [|id' par tag attrs ks ty' props' cs' Hlo Hid Hks]; subst.
    rewrite diff_unfold. cbn [is_string andb is_nullish type_of].
    rewrite bool_decide_eq_true_2 by done. cbn [negb].
    unfold remove_old_attributes, update_new_attributes.
    rewrite (bind_ok _ _ σ () σ); cycle 1.
    { apply for_each_skip. intros [k v] Hkv%elem_of_map_to_list.
      unfold js_in. rewrite Hkv. by rewrite bool_decide_eq_true_2 by eauto. }
    rewrite (bind_ok _ _ σ () σ); cycle 1.
    { apply for_each_skip. intros [k v] Hkv%elem_of_map_to_list.
      unfold js_in, js_get. rewrite Hkv. rewrite bool_decide_eq_true_2 by eauto.
      simpl. by rewrite String.eqb_refl. }
    unfold diff_children.
    replace (children_of (VElem ty props cs)) with (default [] cs) by (by destruct cs).
    rewrite (bind_ok _ _ σ () σ); cycle 1.
    { apply (for_both_mirrors lo par id tag attrs (default [] cs)) with (ks := ks) (before := []);
        try done.
      rewrite Forall_forall in IH. apply Forall_forall.
      intros c Hc id' σ'. by apply IH. }
    unfold adjust_tail.
    replace (children_of (VElem ty props cs)) with (default [] cs) by (by destruct cs).
    by rewrite !bool_decide_eq_false_2 by lia.
Qed.

End reconciliation.

(** ** What diff writes, however it ends *)

Section footprint.
Context {host : name_rules}.
Variable l : list nat.
Variable σ0 : document.

Lemma stays_ret {A} (a : A) (P : A → Prop) : P a → stays l σ0 (ret a) P.
Proof. intros HP σ Hσ. split; [done|]. by intros a' [= <-]. Qed.

Lemma stays_throw {A} e (P : A → Prop) : stays l σ0 (throw e) P.
Proof. intros σ Hσ. by split. Qed.

Lemma stays_bind {A B} (m : M A) (f : A → M B) (P : A → Prop) (Q : B → Prop) :
  stays l σ0 m P → (∀ a, P a → stays l σ0 (f a) Q) → stays l σ0 (bind m f) Q.
Proof.
  intros Hm Hf σ Hσ. destruct (Hm σ Hσ) as [Hc HP]. unfold bind.
  destruct (m σ) as [[a|e|] σ']; cbn [fst snd] in *.
  - by apply Hf; [apply HP|].
  - by split.
  - by split.
Qed.

Lemma stays_seq {A B} (m : M A) (k : A → M B) (Q : B → Prop) :
  stays l σ0 m (λ _, True) → (∀ a, stays l σ0 (k a) Q) → stays l σ0 (bind m k) Q.
Proof. intros Hm Hk. eapply stays_bind; [exact Hm|]. intros a _. apply Hk. Qed.

Lemma stays_weaken {A} (m : M A) (P Q : A → Prop) :
  stays l σ0 m P → (∀ a, P a → Q a) → stays l σ0 m Q.
Proof. intros Hm HPQ σ Hσ. destruct (Hm σ Hσ) as [? HP]. split; [done|]. eauto. Qed.

Lemma stays_for_each {A} (xs : list A) (body : A → M unit) :
  (∀ x, x ∈ xs → stays l σ0 (body x) (λ _, True)) →
  stays l σ0 (for_each xs body) (λ _, True).
Proof.
  induction xs as [|x xs IH]; intros Hbody; [by apply stays_ret|].
  rewrite for_each_cons.
  eapply stays_bind; [apply Hbody; by left|]. intros _ _. apply IH.
  intros y Hy. apply Hbody. by right.
Qed.

Lemma stays_for_both {A B} (body : nat → A → B → M unit) (xs : list A) :
  ∀ i (ys : list B),
    (∀ j x y, x ∈ xs → stays l σ0 (body j x y) (λ _, True)) →
    stays l σ0 (for_both body i xs ys) (λ _, True).
Proof.
  induction xs as [|x xs IH]; intros i ys Hbody; [by apply stays_ret|].
  destruct ys as [|y ys]; [by apply stays_ret|].
  rewrite for_both_cons.
  eapply stays_bind; [apply Hbody; by left|]. intros _ _. apply IH.
  intros j x' y' Hx'. apply Hbody. by right.
Qed.

Lemma stays_while fuel (cond : M bool) (body : M unit) :
  stays l σ0 cond (λ _, True) → stays l σ0 body (λ _, True) →
  stays l σ0 (while fuel cond body) (λ _, True).
Proof.
  intros Hcond Hbody. induction fuel as [|fuel IH]; [by intros σ Hσ|].
  cbn [while]. eapply stays_bind; [exact Hcond|]. intros [|] _.
  - eapply stays_bind; [exact Hbody|]. by intros _ _.
  - by apply stays_ret.
Qed.

(** *** The state accessors *)

Lemma stays_get : stays l σ0 get (λ σ, closed l (next σ0) (nodes σ)).
Proof. intros σ Hσ. split; [done|]. intros a [= <-]. by destruct Hσ as (_ & ? & _). Qed.

Lemma stays_put_nodes h :
  closed l (next σ0) h → stays l σ0 (put_nodes h) (λ _, True).
Proof. intros Hh σ (Hn & _ & Hlog). by split. Qed.

Lemma stays_record e :
  (∀ x, written e = Some x → within l (next σ0) x) →
  stays l σ0 (record e) (λ _, True).
Proof.
  intros He σ (Hn & Hc & evs & Hlog & Hw). split; [|done].
  split_and!; [done | done |]. exists (evs ++ [e]). cbn [snd record log]. split.
  - by rewrite Hlog, app_assoc.
  - intros e' x [?|He'%list_elem_of_singleton]%elem_of_app Hx; [by eapply Hw|].
    subst e'. by apply He.
Qed.

Lemma stays_alloc n :
  child_list n = [] → stays l σ0 (alloc n) (within l (next σ0)).
Proof.
  intros Hn σ (Hnext & Hc & Hlog). split.
  - cbn [snd alloc]. split_and!; [cbn [next]; lia | | done].
    intros x m c Hx. cbn [nodes]. destruct (decide (x = next σ)) as [->|?].
    + rewrite lookup_insert_eq. intros [= <-]. rewrite Hn. by intros ?%elem_of_nil.
    + rewrite lookup_insert_ne by done. by apply Hc.
  - intros a [= <-]. by right.
Qed.

Lemma stays_deref r :
  stays l σ0 (deref r)
    (λ '(id, n), r = Some id ∧
                 (within l (next σ0) id → ∀ c, c ∈ child_list n → within l (next σ0) c)).
Proof.
  intros σ Hσ. unfold deref. destruct r as [id|]; [|by split].
  destruct (nodes σ !! id) as [n|] eqn:Hid; [|by split].
  split; [done|]. intros a [= <-]. split; [done|].
  intros Hin c Hc. destruct Hσ as (_ & Hcl & _). by eapply Hcl.
Qed.

(** *** Edits of the store *)

Lemma closed_insert h x n :
  closed l (next σ0) h →
  (within l (next σ0) x → ∀ c, c ∈ child_list n → within l (next σ0) c) →
  closed l (next σ0) (<[x := n]> h).
Proof.
  intros Hh Hn y m c Hy. destruct (decide (y = x)) as [->|?].
  - rewrite lookup_insert_eq. intros [= <-]. by apply Hn.
  - rewrite lookup_insert_ne by done. by apply Hh.
Qed.

Lemma closed_set_parent h c p :
  closed l (next σ0) h → closed l (next σ0) (set_parent c p h).
Proof.
  intros Hh. unfold set_parent. destruct (h !! c) as [n|] eqn:Hc; [|done].
  apply closed_insert; [done|]. intros Hin c' Hc'. by eapply (Hh c n).
Qed.

Lemma closed_set_children h p (f : list nat → list nat) :
  closed l (next σ0) h →
  (∀ cs c, c ∈ f cs → c ∈ cs ∨ within l (next σ0) c) →
  closed l (next σ0) (set_children p f h).
Proof.
  intros Hh Hf. unfold set_children.
  destruct (h !! p) as [[pp [s|tag attrs cs]]|] eqn:Hp; try done.
  apply closed_insert; [done|]. intros Hin c Hc. unfold child_list in Hc. cbn [kind] in Hc.
  destruct (Hf cs c Hc) as [?|?]; [|done]. by eapply (Hh p).
Qed.

Lemma closed_detach h c :
  closed l (next σ0) h → closed l (next σ0) (detach c h).
Proof.
  intros Hh. unfold detach. destruct (h !! c) as [[[q|] k]|]; try done.
  apply closed_set_parent, closed_set_children; [done|].
  intros cs c' [_ ?]%list_elem_of_filter. by left.
Qed.

Lemma closed_orphans h (cs : list nat) :
  closed l (next σ0) h →
  closed l (next σ0) (foldr (λ c h, set_parent c None h) h cs).
Proof.
  intros Hh. induction cs as [|c cs IH]; [done|]. cbn [foldr]. by apply closed_set_parent.
Qed.

(** *** The primitives *)

Lemma stays_setAttribute r key value :
  (∀ d, r = Some d → within l (next σ0) d) →
  stays l σ0 (setAttribute r key value) (λ _, True).
Proof.
  intros Hr. unfold setAttribute. eapply stays_bind; [apply stays_deref|].
  intros [id n] [-> Hn]. destruct (kind n) as [s|tag attrs cs] eqn:Hk; [apply stays_throw|].
  destruct (valid_attribute key); [|apply stays_throw].
  eapply stays_bind; [apply stays_get|]. intros σ Hσ.
  apply stays_seq.
  - apply stays_put_nodes, closed_insert; [done|].
    intros Hin c Hc. apply Hn; [done|]. unfold child_list in *. by rewrite Hk.
  - intros _. apply stays_record. intros x [= <-]. by apply Hr.
Qed.

Lemma stays_removeAttribute r key :
  (∀ d, r = Some d → within l (next σ0) d) →
  stays l σ0 (removeAttribute r key) (λ _, True).
Proof.
  intros Hr. unfold removeAttribute. eapply stays_bind; [apply stays_deref|].
  intros [id n] [-> Hn]. destruct (kind n) as [s|tag attrs cs] eqn:Hk; [apply stays_throw|].
  eapply stays_bind; [apply stays_get|]. intros σ Hσ.
  apply stays_seq.
  - apply stays_put_nodes, closed_insert; [done|].
    intros Hin c Hc. apply Hn; [done|]. unfold child_list in *. by rewrite Hk.
  - intros _. apply stays_record. intros x [= <-]. by apply Hr.
Qed.

Lemma stays_set_textContent r s :
  (∀ d, r = Some d → within l (next σ0) d) →
  stays l σ0 (set_textContent r s) (λ _, True).
Proof.
  intros Hr. unfold set_textContent. eapply stays_bind; [apply stays_deref|].
  intros [id n] [-> Hn]. destruct (kind n) as [s'|tag attrs cs] eqn:Hk.
  - eapply stays_bind; [apply stays_get|]. intros σ Hσ.
    apply stays_seq.
    + apply stays_put_nodes, closed_insert; [done|]. intros _ c Hc. by apply elem_of_nil in Hc.
    + intros _. apply stays_record. intros x [= <-]. by apply Hr.
  - eapply stays_bind; [apply stays_get|]. intros σ Hσ.
    apply stays_seq.
    { apply stays_put_nodes, closed_set_children; [by apply closed_orphans|].
      intros cs' c Hc. by apply elem_of_nil in Hc. }
    intros _. apply stays_seq.
    { destruct (String.eqb s ""); [by apply stays_ret|].
      eapply stays_bind; [by apply stays_alloc|]. intros t Ht.
      eapply stays_bind; [apply stays_get|]. intros σ' Hσ'.
      apply stays_put_nodes, closed_set_children; [done|].
      intros cs' c Hc%list_elem_of_singleton. rewrite Hc. by right. }
    intros _. apply stays_record. intros x [= <-]. by apply Hr.
Qed.

Lemma stays_appendChild p c :
  within l (next σ0) c → stays l σ0 (appendChild p c) (λ _, True).
Proof.
  intros Hc. unfold appendChild. eapply stays_bind; [apply stays_deref|].
  intros [pid pn] _. destruct (kind pn); [apply stays_throw|].
  eapply stays_bind; [apply stays_deref|]. intros _ _.
  eapply stays_bind; [apply stays_get|]. intros σ Hσ.
  apply stays_seq.
  - apply stays_put_nodes, closed_set_parent, closed_set_children; [by apply closed_detach|].
    intros cs c' [?|Hc'%list_elem_of_singleton]%elem_of_app; [by left|]. subst c'. by right.
  - intros _. by apply stays_record.
Qed.

Lemma stays_removeChild p c : stays l σ0 (removeChild p c) (λ _, True).
Proof.
  unfold removeChild. eapply stays_bind; [apply stays_deref|].
  intros [pid pn] _. eapply stays_bind; [apply stays_deref|]. intros [cid cn] _.
  destruct (kind pn); [apply stays_throw|].
  destruct (bool_decide _); [|apply stays_throw].
  eapply stays_bind; [apply stays_get|]. intros σ Hσ.
  apply stays_seq.
  - apply stays_put_nodes, closed_set_parent, closed_set_children; [done|].
    intros cs c' [_ ?]%list_elem_of_filter. by left.
  - intros _. by apply stays_record.
Qed.

Lemma stays_replaceChild p newChild oldChild :
  within l (next σ0) newChild →
  stays l σ0 (replaceChild p newChild oldChild) (λ _, True).
Proof.
  intros Hc. unfold replaceChild. eapply stays_bind; [apply stays_deref|].
  intros [pid pn] _. eapply stays_bind; [apply stays_deref|]. intros [oid on] _.
  destruct (kind pn); [apply stays_throw|].
  destruct (bool_decide _); [|apply stays_throw].
  eapply stays_bind; [apply stays_deref|]. intros _ _.
  eapply stays_bind; [apply stays_get|]. intros σ Hσ.
  apply stays_seq.
  - apply stays_put_nodes. do 2 apply closed_set_parent.
    apply closed_set_children; [by apply closed_detach|].
    intros cs c' (x & -> & Hx)%list_elem_of_fmap.
    destruct (decide (x = oid)); [by right | by left].
  - intros _. by apply stays_record.
Qed.

Lemma stays_get_parentNode r : stays l σ0 (get_parentNode r) (λ _, True).
Proof.
  unfold get_parentNode. eapply stays_bind; [apply stays_deref|].
  intros [id n] _. by apply stays_ret.
Qed.

Lemma stays_childNodes_length r : stays l σ0 (childNodes_length r) (λ _, True).
Proof.
  unfold childNodes_length. eapply stays_bind; [apply stays_deref|].
  intros [id n] _. by apply stays_ret.
Qed.

Lemma stays_lastChild r : stays l σ0 (lastChild r) (λ _, True).
Proof.
  unfold lastChild. eapply stays_bind; [apply stays_deref|].
  intros [id n] _. by apply stays_ret.
Qed.

Lemma stays_childNodes_item r i :
  (∀ d, r = Some d → within l (next σ0) d) →
  stays l σ0 (childNodes_item r i) (λ c, ∀ x, c = Some x → within l (next σ0) x).
Proof.
  intros Hr. unfold childNodes_item. eapply stays_bind; [apply stays_deref|].
  intros [id n] [-> Hn]. apply stays_ret. intros x Hx. apply Hn; [by apply Hr|].
  by eapply list_elem_of_lookup_2.
Qed.

Lemma stays_createElement tag : stays l σ0 (createElement tag) (within l (next σ0)).
Proof.
  unfold createElement. destruct (valid_tag tag); [by apply stays_alloc | apply stays_throw].
Qed.

(** *** createTree and diff *)

Lemma stays_createTree v : stays l σ0 (createTree v) (within l (next σ0)).
Proof.
  induction v as [| s | ty props cs IH] using vnode_nested_ind.
  - apply stays_throw.
  - by apply stays_alloc.
  - rewrite createTree_elem. eapply stays_bind; [apply stays_createElement|].
    intros el Hel. apply stays_seq.
    { apply stays_for_each. intros [k v] _. apply stays_setAttribute. by intros d [= <-]. }
    intros _. apply stays_seq.
    { apply stays_for_each. intros c Hc. rewrite Forall_forall in IH.
      eapply stays_bind; [by apply IH|]. intros x Hx. by apply stays_appendChild. }
    intros _. by apply stays_ret.
Qed.

Lemma stays_adjust_tail oldVNode newVNode domNode :
  stays l σ0 (adjust_tail oldVNode newVNode domNode) (λ _, True).
Proof.
  unfold adjust_tail. apply stays_seq.
  { destruct (bool_decide _); [|by apply stays_ret].
    unfold append_new_children. apply stays_for_each. intros c _.
    eapply stays_bind; [apply stays_createTree|]. intros x Hx. by apply stays_appendChild. }
  intros _. destruct (bool_decide _); [|by apply stays_ret].
  unfold remove_extra_children. eapply stays_bind; [apply stays_childNodes_length|].
  intros len _. apply stays_while.
  - eapply stays_bind; [apply stays_childNodes_length|]. intros n _. by apply stays_ret.
  - eapply stays_bind; [apply stays_lastChild|]. intros c _. apply stays_removeChild.
Qed.

Lemma stays_diff oldVNode :
  ∀ newVNode domNode,
    (∀ d, domNode = Some d → within l (next σ0) d) →
    stays l σ0 (diff oldVNode newVNode domNode) (λ _, True).
Proof.
  induction oldVNode as [| s | ty props cs IH] using vnode_nested_ind;
    intros newVNode domNode Hdom.
  - rewrite diff_unfold. cbn [is_string is_nullish andb].
    eapply stays_bind; [apply stays_createTree|]. intros x Hx. by apply stays_appendChild.
  - rewrite diff_unfold. cbn [is_string is_nullish andb].
    destruct (is_string newVNode).
    + destruct (text_neq _ _); [by apply stays_set_textContent|].
      unfold diff_children. cbn [children_of]. apply stays_seq; [by apply stays_ret|].
      intros _. apply stays_adjust_tail.
    + destruct (is_nullish newVNode).
      { eapply stays_bind; [apply stays_get_parentNode|]. intros p _. apply stays_removeChild. }
      destruct (negb _).
      { unfold rebuild_and_replace. eapply stays_bind; [apply stays_createTree|].
        intros x Hx. eapply stays_bind; [apply stays_get_parentNode|].
        intros p _. by apply stays_replaceChild. }
      apply stays_seq.
      { unfold remove_old_attributes. apply stays_for_each. intros [k v] _.
        destruct (negb _); [by apply stays_removeAttribute | by apply stays_ret]. }
      intros _. apply stays_seq.
      { unfold update_new_attributes. apply stays_for_each. intros [k v] _.
        destruct (_ || _); [by apply stays_setAttribute | by apply stays_ret]. }
      intros _. unfold diff_children. cbn [children_of].
      apply stays_seq; [by apply stays_ret|]. intros _. apply stays_adjust_tail.
  - rewrite diff_unfold. cbn [is_string is_nullish andb].
    assert (Hchildren : stays l σ0 (diff_children (VElem ty props cs) newVNode domNode)
                          (λ _, True)).
    { unfold diff_children.
      replace (children_of (VElem ty props cs)) with (default [] cs) by (by destruct cs).
      apply stays_seq; [|intros _; apply stays_adjust_tail].
      apply stays_for_both. intros j o n Ho. rewrite Forall_forall in IH.
      eapply stays_bind; [by apply stays_childNodes_item|]. intros c Hc. by apply IH. }
    destruct (is_nullish newVNode).
    { eapply stays_bind; [apply stays_get_parentNode|]. intros p _. apply stays_removeChild. }
    destruct (negb _).
    { unfold rebuild_and_replace. eapply stays_bind; [apply stays_createTree|].
      intros x Hx. eapply stays_bind; [apply stays_get_parentNode|].
      intros p _. by apply stays_replaceChild. }
    apply stays_seq.
    { unfold remove_old_attributes. apply stays_for_each. intros [k v] _.
      destruct (negb _); [by apply stays_removeAttribute | by apply stays_ret]. }
    intros _. apply stays_seq; [|intros _; exact Hchildren].
    unfold update_new_attributes. apply stays_for_each. intros [k v] _.
    destruct (_ || _); [by apply stays_setAttribute | by apply stays_ret].
Qed.

End footprint.

Section writes.
Context {host : name_rules}.

Lemma holds_closed h par t n0 :
  holds h par t → (∀ x, n0 ≤ x → h !! x = None) → closed (ids t) n0 h.
Proof.
  intros Hh Hfree x n c [Hx|Hx] Hn Hc; [|by rewrite Hfree in Hn].
  left. revert par Hh x n c Hx Hn Hc.
  induction t as [id s | id tag attrs kids IH] using ltree_nested_ind;
    intros par Hh x n c Hx Hn Hc.
  - inversion Hh; subst. cbn [ids] in Hx. apply list_elem_of_singleton in Hx as ->.
    simplify_eq. by apply elem_of_nil in Hc.
  - inversion Hh as [|? ? ? ? ? Hid Hkids]; subst. cbn [ids] in *.
    apply elem_of_cons in Hx as [->|Hx].
    + rewrite Hid in Hn. simplify_eq. unfold child_list in Hc. cbn [kind] in Hc.
      right. by apply roots_in_ids.
    + right. apply list_elem_of_join in Hx as (ks & Hx & Hks).
      apply list_elem_of_fmap in Hks as (k & -> & Hk).
      rewrite Forall_forall in IH, Hkids.
      eapply ids_kid; [exact Hk|]. by eapply (IH k Hk (Some id)); [apply Hkids|..].
Qed.

(** Whatever [diff] does and however it ends, each write it logs is on
    a node of the live tree or on a new node. *)
Lemma diff_writes_within oldVNode newVNode par t σ :
  live σ par t →
  ∃ evs, log (diff oldVNode newVNode (Some (root t)) σ).2 = log σ ++ evs ∧
         writes_within (ids t) (next σ) evs.
Proof.
  intros (Hh & _ & Hok).
  destruct (stays_diff (ids t) σ oldVNode newVNode (Some (root t))) with (σ := σ)
    as [(_ & _ & Hlog) _]; [| |done].
  - intros d [= <-]. left. apply root_in_ids.
  - split_and!; [done | |].
    + eapply holds_closed; [done|]. intros x Hx.
      destruct (nodes σ !! x) eqn:Hn; [|done]. pose proof (Hok _ _ Hn) as Hlt. simpl in Hlt. lia.
    + exists []. split; [by rewrite app_nil_r|]. by intros e x ?%elem_of_nil.
Qed.

End writes.


(** * The claims *)

(** ** C1 *)


Section C1.
Context {host : name_rules}.


End C1.


(** ** C2 *)

(** C2, at the input on which the code misses a removal. The old element
    has the attribute [constructor], the new mapping is empty;
    ["constructor" in {}] is true because of the prototype, so line 77
    skips the removal: [diff] returns with the document unchanged, and the
    live node still has the attribute. *)
Theorem C2_inherited_name_not_removed :
  props_of div_constructor !! "constructor" = Some "x" ∧
  props_of div_no_attributes !! "constructor" = None ∧
  js_in "constructor" (props_of div_no_attributes) = true ∧
  diff div_constructor div_no_attributes (Some 0) (document_of div_constructor)
  = (Ok (), document_of div_constructor) ∧
  attributes_of (document_of div_constructor) 0 = Some {["constructor" := "x"]}.
Proof. split_and!; vm_compute; reflexivity. Qed.

(** ** C3 *)


Section C3.
Context {host : name_rules}.


End C3.


(** ** C4 *)

Section C4.
Context {host : name_rules}.

(** C4. Whenever [createTree d] returns a node, reconciling [d] with
    itself on that node returns normally and leaves the whole document as
    it was: the same nodes, no new handle, and no call added to the log.
    [createTree d] does return a node when [d] holds no [null] and the
    host accepts its names. *)
Theorem C4_same_description_no_mutation d σ :
  heap_ok σ →
  (buildable d = true → ∃ n σ1, createTree d σ = (Ok n, σ1)) ∧
  ∀ n σ1, createTree d σ = (Ok n, σ1) → diff d d (Some n) σ1 = (Ok (), σ1).
Proof.
  intros Hok.
  destruct (createTree_outcome_all d σ Hok) as (r & σ' & Hrun & _ & _ & _ & Hr). split.
  - intros Hb. destruct r as [n|e|]; [by eauto | | done].
    destruct Hr as [Hr _]. congruence.
  - intros n σ1 Hrun1. rewrite Hrun in Hrun1. simplify_eq.
    destruct Hr as (_ & _ & _ & Hm). by eapply diff_same_mirrors.
Qed.

End C4.

Lemma C4_same_description_no_mutation_witness :
  ∃ n σ1, createTree div_hi empty_document = (Ok n, σ1) ∧
          diff div_hi div_hi (Some n) σ1 = (Ok (), σ1).
Proof.
  destruct (C4_same_description_no_mutation div_hi empty_document) as [Hbuilt Hsame].
  - compute_done.
  - destruct Hbuilt as (n & σ1 & Hrun); [vm_compute; reflexivity|].
    exists n, σ1. exact (conj Hrun (Hsame n σ1 Hrun)).
Defined.

(** ** C5 *)

(** C5, at the input on which the round trip fails, by the same missed
    removal as in C2. From [<div>] to [<div constructor="x">] and back:
    both calls return normally, and the live node ends with the attribute
    [constructor], which the node built for [<div>] does not have. *)
Theorem C5_round_trip_keeps_inherited_name :
  ∃ σ1 σ2,
    diff div_bare div_constructor (Some 0) (document_of div_bare) = (Ok (), σ1) ∧
    diff div_constructor div_bare (Some 0) σ1 = (Ok (), σ2) ∧
    attributes_of σ2 0 = Some {["constructor" := "x"]} ∧
    attributes_of (document_of div_bare) 0 = Some ∅.
Proof. eexists _, _. split_and!; vm_compute; reflexivity. Qed.

(** ** C6 *)


Section C6.
Context {host : name_rules}.


End C6.


(** ** C7 *)

Section C7.
Context {host : name_rules}.

(** C7. Two text descriptions against the live text node: equal strings
    leave the document as it is (no call is logged); different strings set
    the content of that same node, and nothing else changes. *)
Theorem C7_text_in_place s1 s2 id par σ :
  nodes σ !! id = Some (Node par (Text s1)) →
  diff (VText s1) (VText s2) (Some id) σ
  = (Ok (), if decide (s1 = s2) then σ
            else with_nodes σ (<[id := Node par (Text s2)]> (nodes σ))
                   [SetTextContent id s2]).
Proof.
  intros Hid. rewrite diff_unfold. cbn [is_string andb text_neq].
  destruct (String.eqb_spec s1 s2) as [->|Hne]; cbn [negb].
  - by rewrite decide_True.
  - rewrite decide_False by done. by eapply set_textContent_run.
Qed.

End C7.

Lemma C7_text_in_place_witness :
  diff (VText "hi") (VText "bye") (Some 0) (document_of (VText "hi"))
  = (Ok (), Document {[0 := Node None (Text "bye")]} 1 [SetTextContent 0 "bye"]).
Proof.
  rewrite (C7_text_in_place "hi" "bye" 0 None (document_of (VText "hi")));
    vm_compute; reflexivity.
Defined.

(** ** C8 *)

(** C8, as stated, fails on names the host does not take as they are:
    on an HTML document, building an element named [bad name] throws in
    [createElement] and allocates nothing, and the attribute [Class] is
    stored as [class], not verbatim. *)
Lemma C8_counterexample :
  well_formed bad_name = true ∧
  createTree bad_name empty_document = (Throw InvalidCharacterError, empty_document) ∧
  well_formed div_Class = true ∧
  (createTree div_Class empty_document).1 = Ok 0 ∧
  props_of div_Class = {["Class" := "a"]} ∧
  attributes_of (document_of div_Class) 0 = Some {["class" := "a"]}.
Proof. split_and!; vm_compute; reflexivity. Qed.

Section C8.
Context {host : name_rules}.

(** C8, amended. On a well-formed description whose tag and attribute
    names the host accepts and keeps as they are, [createTree] returns
    normally with the root of one fresh live tree that the description
    describes: a text node with that string; an element with that tag,
    exactly the given attributes, and the children in order. The new
    handles are exactly a fresh range, every node that existed before is
    untouched, and every logged call mentions new nodes only. *)
Theorem C8_createTree_builds d σ :
  well_formed d = true → host_names d = true → heap_ok σ →
  ∃ t σ',
    createTree d σ = (Ok (root t), σ') ∧
    describes t d ∧
    live σ' None t ∧
    (∀ x, x ∈ ids t ↔ next σ ≤ x < next σ') ∧
    (∀ x, x < next σ → nodes σ' !! x = nodes σ !! x) ∧
    (∃ evs, log σ' = log σ ++ evs ∧ only_touches_from (next σ) evs) ∧
    (∀ s, d = VText s → nodes σ' !! root t = Some (Node None (Text s))) ∧
    (∀ tag props cs, d = VElem (Some tag) props cs →
       ∃ kids, nodes σ' !! root t
               = Some (Node None (Element tag (default ∅ props) (root <$> kids))) ∧
               Forall2 describes kids (default [] cs) ∧
               Forall (holds (nodes σ') (Some (root t))) kids).
Proof.
  intros Hwf Hhn Hok.
  destruct (createTree_spec d (well_formed_null_free _ Hwf) Hhn σ Hok)
    as (t & σ' & Hrun & Hroot & Hdesc & Hh & Hnd & Hrange & Hframe & Hok' & Hlog).
  exists t, σ'. rewrite Hroot. split_and!; try done.
  - intros s ->. inversion Hdesc; subst. inversion Hh; subst.
    simpl in Hroot. by rewrite <- Hroot.
  - intros tag props cs ->.
    inversion Hdesc as [|id ty props' cs' kids Hkids]; subst.
    inversion Hh as [|? ? ? ? ? Hid Hall]; subst.
    simpl in Hroot. subst id. by exists kids.
Qed.

End C8.

Lemma C8_createTree_builds_witness :
  ∃ t σ', createTree div_hi empty_document = (Ok (root t), σ') ∧ describes t div_hi.
Proof.
  destruct (C8_createTree_builds div_hi empty_document) as (t & σ' & H1 & H2 & _).
  - vm_compute; reflexivity.
  - vm_compute; reflexivity.
  - compute_done.
  - exists t, σ'. exact (conj H1 H2).
Defined.

(** ** C9 *)

(** C9, as stated, fails: two element descriptions without a tag name are
    reconciled without any fault ([undefined !== undefined] is false, so
    the same-type case runs), and the live node gets the new attribute. *)
Lemma C9_counterexample :
  well_formed untagged_a1 = false ∧
  well_formed untagged_a2 = false ∧
  (diff untagged_a1 untagged_a2 (Some 0) (document_of div_a1)).1 = Ok () ∧
  attributes_of (diff untagged_a1 untagged_a2 (Some 0) (document_of div_a1)).2 0
  = Some {["a" := "2"]}.
Proof. split_and!; vm_compute; reflexivity. Qed.

Section C9.
Context {host : name_rules}.

(** C9, amended. Building [null] throws a TypeError before any mutation.
    With a null new description, a non-null old one and a null live node,
    [diff] throws a TypeError before any mutation. With a null old
    description and a null live node (the missing parent), [diff] never
    returns normally, whatever the new description: it throws a TypeError
    or, when the host rejects a name, an InvalidCharacterError, and every
    node that existed before is unchanged. A description that lacks a tag
    name is not rejected: it is built as the description with the tag
    name [undefined]. *)
Theorem C9_null_dereference_faults oldVNode newVNode σ :
  heap_ok σ → is_nullish oldVNode = false →
  createTree VNull σ = (Throw TypeError, σ) ∧
  diff oldVNode VNull None σ = (Throw TypeError, σ) ∧
  (∃ e σ', diff VNull newVNode None σ = (Throw e, σ') ∧
           (e = TypeError ∨ e = InvalidCharacterError) ∧
           (∀ x, x < next σ → nodes σ' !! x = nodes σ !! x)) ∧
  (∀ props cs, createTree (VElem None props cs) σ
               = createTree (VElem (Some "undefined") props cs) σ).
Proof.
  intros Hok Hold. split_and!.
  - done.
  - rewrite diff_unfold. rewrite Hold. cbn [is_string is_nullish]. by rewrite andb_false_r.
  - destruct (createTree_outcome_all newVNode σ Hok) as (r & σ' & Hrun & _ & _ & Hframe & Hr).
    rewrite diff_unfold. cbn [is_string is_nullish andb]. unfold bind. rewrite Hrun.
    destruct r as [n|e|]; [|by destruct Hr as [_ ?]; eauto|done].
    exists TypeError, σ'. split_and!; [done | by left | done].
  - done.
Qed.

End C9.

Lemma C9_null_dereference_faults_witness :
  diff (VText "x") VNull None empty_document = (Throw TypeError, empty_document).
Proof.
  destruct (C9_null_dereference_faults (VText "x") (VText "y") empty_document)
    as (_ & H & _).
  - compute_done.
  - reflexivity.
  - exact H.
Defined.

(** ** C10 *)

Section C10.
Context {host : name_rules}.

(** C10. [diff(null, null, p)] takes the old-is-null branch, and building
    the null description throws before anything is appended: the document
    is exactly as before. *)
Theorem C10_null_null_throws p σ :
  diff VNull VNull p σ = (Throw TypeError, σ) ∧
  createTree VNull σ = (Throw TypeError, σ).
Proof. by split. Qed.

End C10.

(** * Further properties of diff.js *)

(** ** The old description is null (lines 49-54) *)

Section X1.
Context {host : name_rules}.

(** X1. With a null old description the live node is the parent: when it
    is an element and the host keeps the names of the new description,
    [diff] builds the new subtree and puts its root after the children the
    element already has; the children keep their places, and no other node
    that existed before is changed. *)
Theorem old_null_appends_last newVNode p pp tag attrs ks σ :
  null_free newVNode = true → host_names newVNode = true → heap_ok σ →
  nodes σ !! p = Some (Node pp (Element tag attrs ks)) →
  ∃ σ1 t k,
    createTree newVNode σ = (Ok (next σ), σ1) ∧ built σ σ1 t newVNode ∧
    nodes σ1 !! next σ = Some (Node None k) ∧
    diff VNull newVNode (Some p) σ
    = (Ok (), with_nodes σ1
                (<[next σ := Node (Some p) k]>
                   (<[p := Node pp (Element tag attrs (ks ++ [next σ]))]> (nodes σ1)))
                [AppendChild p (next σ)]).
Proof.
  intros Hnf Hhn Hok Hp.
  destruct (createTree_spec _ Hnf Hhn σ Hok) as (t & σ1 & Hrun & Hb).
  pose proof Hb as (Hroot & _ & Hht & _ & _ & Hframe & _).
  destruct (holds_root _ _ _ Hht) as [k Hk]. rewrite Hroot in Hk.
  assert (p < next σ) by (by eapply Hok).
  exists σ1, t, k. split_and!; try done.
  rewrite diff_unfold. cbn [is_string is_nullish andb].
  rewrite (bind_ok _ _ _ _ _ Hrun).
  apply appendChild_run; [by rewrite Hframe | done | lia].
Qed.

End X1.

Lemma old_null_appends_last_witness :
  ∃ σ', diff VNull p_empty (Some 0) (document_of ul_abc) = (Ok (), σ') ∧
        children_at σ' 0 = [1; 2; 3; 4].
Proof.
  destruct (old_null_appends_last p_empty 0 None "ul" ∅ [1; 2; 3] (document_of ul_abc))
    as (σ1 & t & k & H1 & _ & _ & H2).
  - vm_compute; reflexivity.
  - vm_compute; reflexivity.
  - compute_done.
  - vm_compute; reflexivity.
  - eexists. split; [exact H2|].
    unfold children_at, with_nodes. cbn [nodes].
    rewrite lookup_insert_ne by (vm_compute; discriminate).
    rewrite lookup_insert_eq. reflexivity.
Defined.

(** ** The new description is null (lines 57-61) *)

Section X2.
Context {host : name_rules}.

Lemma filter_ne_id (l : list nat) c : c ∉ l → filter (λ x, x ≠ c) l = l.
Proof.
  induction l as [|a l IH]; intros Hc; [done|].
  rewrite filter_cons_True.
  - f_equal. apply IH. intros ?. apply Hc. by right.
  - intros ->. apply Hc. by left.
Qed.

Lemma remove_from_delete (ks : list nat) i c :
  ks !! i = Some c → NoDup ks → remove_from c ks = delete i ks.
Proof.
  unfold remove_from. revert i. induction ks as [|a ks IH]; intros i Hi Hnd; [done|].
  apply NoDup_cons in Hnd as [Ha Hnd]. destruct i as [|i]; simpl in Hi.
  - simplify_eq. rewrite filter_cons_False by (intros ?; done). by apply filter_ne_id.
  - rewrite filter_cons_True.
    + simpl. f_equal. by apply IH.
    + intros ->. apply Ha. by eapply list_elem_of_lookup_2.
Qed.

Lemma removeChild_run σ p pp tag attrs cs i c cpar k :
  nodes σ !! p = Some (Node pp (Element tag attrs cs)) →
  cs !! i = Some c → NoDup cs →
  nodes σ !! c = Some (Node cpar k) →
  c ≠ p →
  removeChild (Some p) (Some c) σ
  = (Ok (), with_nodes σ (<[c := Node None k]>
                           (<[p := Node pp (Element tag attrs (delete i cs))]> (nodes σ)))
              [RemoveChild p c]).
Proof.
  intros Hp Hi Hnd Hc Hne. unfold removeChild, bind, deref. rewrite Hp. simpl. rewrite Hc. simpl.
  rewrite bool_decide_eq_true_2 by (by eapply list_elem_of_lookup_2).
  unfold with_nodes, set_children, set_parent. simpl. rewrite Hp.
  rewrite lookup_insert_ne by done. rewrite Hc. simpl.
  by rewrite (remove_from_delete cs i c).
Qed.

(** X2. With a null new description and any non-null old one, [diff]
    takes the live node out of the child list of its parent, whatever the
    node holds: the other children keep their order, the node keeps its
    content and only loses its parent, and nothing else changes. *)
Theorem new_null_removes_node oldVNode o p ko pn tag attrs ks i σ :
  is_nullish oldVNode = false →
  nodes σ !! o = Some (Node (Some p) ko) →
  nodes σ !! p = Some (Node pn (Element tag attrs ks)) →
  ks !! i = Some o → NoDup ks → o ≠ p →
  diff oldVNode VNull (Some o) σ
  = (Ok (), with_nodes σ
              (<[o := Node None ko]>
                 (<[p := Node pn (Element tag attrs (delete i ks))]> (nodes σ)))
              [RemoveChild p o]).
Proof.
  intros Hold Ho Hp Hi Hnd Hne. rewrite diff_unfold. rewrite Hold.
  cbn [is_string is_nullish]. rewrite andb_false_r.
  rewrite (bind_ok _ _ _ _ _ (get_parentNode_run _ _ _ Ho)). cbn [parentNode].
  by eapply removeChild_run.
Qed.

End X2.

Lemma new_null_removes_node_witness :
  ∃ σ', diff (VText "b") VNull (Some 2) (document_of ul_abc) = (Ok (), σ') ∧
        children_at σ' 0 = [1; 3].
Proof.
  eexists. split.
  - apply (new_null_removes_node (VText "b") 2 0 (Text "b") None "ul" ∅ [1; 2; 3] 1
             (document_of ul_abc)).
    + reflexivity.
    + vm_compute; reflexivity.
    + vm_compute; reflexivity.
    + reflexivity.
    + compute_done.
    + discriminate.
  - unfold children_at, with_nodes. cbn [nodes].
    rewrite lookup_insert_ne by discriminate. rewrite lookup_insert_eq. reflexivity.
Defined.

(** ** Two descriptions of different type (lines 64-69) *)

Section X3.
Context {host : name_rules}.

(** X3. Whenever the [type]s of two well-formed descriptions differ (two
    elements with different tag names as well as a string against an
    element) and the host keeps the names of the new one, [diff] builds a
    fresh subtree for the new description and puts its root at the
    position of the live node in the parent; the old node keeps its
    content and only loses its parent. *)
Theorem other_type_replaces oldVNode newVNode o p ko pn tag attrs ks i σ :
  well_formed oldVNode = true → well_formed newVNode = true →
  host_names newVNode = true →
  same_type oldVNode newVNode = false →
  heap_ok σ →
  nodes σ !! o = Some (Node (Some p) ko) →
  nodes σ !! p = Some (Node pn (Element tag attrs ks)) →
  ks !! i = Some o → NoDup ks → o ≠ p →
  ∃ σ1 tn kn,
    createTree newVNode σ = (Ok (next σ), σ1) ∧ built σ σ1 tn newVNode ∧
    nodes σ1 !! next σ = Some (Node None kn) ∧
    diff oldVNode newVNode (Some o) σ
    = (Ok (), with_nodes σ1
                (<[o := Node None ko]>
                   (<[next σ := Node (Some p) kn]>
                      (<[p := Node pn (Element tag attrs (<[i := next σ]> ks))]> (nodes σ1))))
                [ReplaceChild p (next σ) o]).
Proof.
  intros Hwo Hwn Hhn Hty Hok Ho Hp Hi Hnd Hne.
  rewrite (diff_other_type _ _ _ Hwo Hwn Hty).
  destruct (rebuild_and_replace_spec newVNode σ o p ko pn tag attrs ks i)
    as (σ1 & tn & kn & ? & ? & ? & ?); try done; [by apply well_formed_null_free|].
  by exists σ1, tn, kn.
Qed.

End X3.

Lemma other_type_replaces_witness :
  ∃ σ', diff div_a1 span_empty (Some 1) (document_of section_div) = (Ok (), σ') ∧
        children_at σ' 0 = [2].
Proof.
  destruct (other_type_replaces div_a1 span_empty 1 0 (Element "div" {["a" := "1"]} [])
              None "section" ∅ [1] 0 (document_of section_div))
    as (σ1 & tn & kn & _ & _ & _ & H).
  - vm_compute; reflexivity.
  - vm_compute; reflexivity.
  - vm_compute; reflexivity.
  - vm_compute; reflexivity.
  - compute_done.
  - vm_compute; reflexivity.
  - vm_compute; reflexivity.
  - reflexivity.
  - compute_done.
  - discriminate.
  - eexists. split; [exact H|].
    unfold children_at, with_nodes. cbn [nodes].
    rewrite !lookup_insert_ne by (vm_compute; discriminate).
    rewrite lookup_insert_eq. reflexivity.
Defined.

Section X4.
Context {host : name_rules}.

(** X4. A live node that has no parent cannot be replaced or removed:
    when the [type]s differ and the host keeps the names of the new
    description, [diff] first builds the new subtree, which stays
    unattached, and then throws a TypeError on [null.replaceChild]; when
    the new description is null it throws on [null.removeChild] at once.
    In both cases no node that existed before is changed. *)
Theorem no_parent_throws oldVNode newVNode o ko σ :
  well_formed oldVNode = true → well_formed newVNode = true →
  host_names newVNode = true →
  same_type oldVNode newVNode = false →
  heap_ok σ →
  nodes σ !! o = Some (Node None ko) →
  (∃ σ1 tn,
     built σ σ1 tn newVNode ∧
     diff oldVNode newVNode (Some o) σ = (Throw TypeError, σ1)) ∧
  diff oldVNode VNull (Some o) σ = (Throw TypeError, σ).
Proof.
  intros Hwo Hwn Hhn Hty Hok Ho. split.
  - rewrite (diff_other_type _ _ _ Hwo Hwn Hty).
    destruct (createTree_spec _ (well_formed_null_free _ Hwn) Hhn σ Hok)
      as (tn & σ1 & Hrun & Hb).
    exists σ1, tn. split; [done|].
    unfold rebuild_and_replace. rewrite (bind_ok _ _ _ _ _ Hrun).
    assert (Ho1 : nodes σ1 !! o = Some (Node None ko)).
    { destruct Hb as (_ & _ & _ & _ & _ & Hframe & _). rewrite Hframe; [done|]. by eapply Hok. }
    by rewrite (bind_ok _ _ _ _ _ (get_parentNode_run _ _ _ Ho1)).
  - rewrite diff_unfold. rewrite (well_formed_not_null _ Hwo).
    cbn [is_string is_nullish]. rewrite andb_false_r.
    by rewrite (bind_ok _ _ _ _ _ (get_parentNode_run _ _ _ Ho)).
Qed.

End X4.

Lemma no_parent_throws_witness :
  diff div_a1 VNull (Some 0) (document_of div_a1) = (Throw TypeError, document_of div_a1).
Proof.
  apply (no_parent_throws div_a1 span_empty 0 (Element "div" {["a" := "1"]} [])
           (document_of div_a1)).
  - vm_compute; reflexivity.
  - vm_compute; reflexivity.
  - vm_compute; reflexivity.
  - vm_compute; reflexivity.
  - compute_done.
  - vm_compute; reflexivity.
Defined.

(** ** The outcome of createTree *)

Section X5.
Context {host : name_rules}.

(** X5. [createTree] returns normally exactly on the descriptions that
    hold no [null] and whose tag and attribute names the host accepts; on
    any other it throws a TypeError or an InvalidCharacterError, nothing
    else. Either way the nodes that existed before are unchanged and no
    handle is taken back. *)
Theorem createTree_returns_iff_buildable v σ :
  heap_ok σ →
  ∃ r σ',
    createTree v σ = (r, σ') ∧
    (if buildable v then r = Ok (next σ)
     else r = Throw TypeError ∨ r = Throw InvalidCharacterError) ∧
    heap_ok σ' ∧ next σ ≤ next σ' ∧
    (∀ x, x < next σ → nodes σ' !! x = nodes σ !! x).
Proof.
  intros Hok.
  destruct (createTree_outcome_all v σ Hok) as (r & σ' & Hrun & Hok' & Hnext & Hframe & Hr).
  exists r, σ'. split_and!; try done.
  destruct r as [n|e|]; [| |done].
  - destruct Hr as (-> & -> & _). done.
  - destruct Hr as (-> & [-> | ->]); [by left | by right].
Qed.

End X5.

Lemma createTree_returns_iff_buildable_witness :
  ∃ r σ', createTree ul_li_bad empty_document = (r, σ') ∧
          (r = Throw TypeError ∨ r = Throw InvalidCharacterError) ∧
          next empty_document ≤ next σ'.
Proof.
  destruct (createTree_returns_iff_buildable ul_li_bad empty_document)
    as (r & σ' & H1 & H2 & _ & H3 & _).
  - compute_done.
  - exists r, σ'. exact (conj H1 (conj H2 H3)).
Defined.

(** ** How many nodes createTree allocates *)

Section X6.
Context {host : name_rules}.

Lemma range_length (l : list nat) a b :
  NoDup l → (∀ x, x ∈ l ↔ a ≤ x < b) → length l = b - a.
Proof.
  intros Hnd Hl. transitivity (length (seq a (b - a))); [|apply length_seq].
  apply Permutation_length, NoDup_Permutation; [done | apply NoDup_seq |].
  intros x. rewrite Hl, elem_of_seq. lia.
Qed.

Lemma describes_node_count t :
  ∀ v, describes t v → length (ids t) = node_count v.
Proof.
  induction t as [id s | id tag attrs kids IH] using ltree_nested_ind;
    intros v Hd; inversion Hd as [|? ty props cs ? Hkids]; subst; [done|].
  cbn [ids length].
  assert (Hsum : length (mjoin (ids <$> kids)) = list_sum (map node_count (default [] cs))).
  { clear Hd. induction Hkids as [|k c kids cs' Hkc Hrest IHrest]; [done|].
    apply Forall_cons in IH as [IHk IHks]. simpl. rewrite length_app.
    rewrite (IHk c Hkc). f_equal. by apply IHrest. }
  rewrite Hsum. by destruct cs.
Qed.

Lemma holds_is_Some h par t x : holds h par t → x ∈ ids t → is_Some (h !! x).
Proof.
  revert par x. induction t as [id s | id tag attrs kids IH] using ltree_nested_ind;
    intros par x Hh Hin; inversion Hh as [? ? ? Hid | ? ? ? ? ? Hid Hkids]; subst;
    simpl in Hin.
  - apply list_elem_of_singleton in Hin as ->. by eexists.
  - apply elem_of_cons in Hin as [->|Hin]; [by eexists|].
    apply list_elem_of_join in Hin as (l & Hx & (k & -> & Hk)%list_elem_of_fmap).
    rewrite Forall_forall in IH, Hkids. eapply (IH k Hk); [by apply Hkids | done].
Qed.

(** X6. On a description without null whose names the host keeps,
    [createTree] allocates exactly one live node per node of the
    description, with consecutive handles starting at the root it
    returns. *)
Theorem createTree_allocates_node_count v σ :
  null_free v = true → host_names v = true → heap_ok σ →
  ∃ σ', createTree v σ = (Ok (next σ), σ') ∧
        next σ' = next σ + node_count v ∧
        (∀ x, next σ ≤ x < next σ + node_count v → is_Some (nodes σ' !! x)) ∧
        (∀ x, next σ + node_count v ≤ x → nodes σ' !! x = None).
Proof.
  intros Hnf Hhn Hok.
  destruct (createTree_spec v Hnf Hhn σ Hok)
    as (t & σ' & Hrun & Hroot & Hdesc & Hh & Hnd & Hrange & _ & Hok' & _).
  assert (Hlen : next σ' - next σ = node_count v).
  { rewrite <- (describes_node_count t v Hdesc). symmetry. by apply range_length. }
  assert (next σ < next σ').
  { apply (Hrange (next σ)). rewrite <- Hroot. apply root_in_ids. }
  exists σ'. split_and!; [done | lia | |].
  - intros x Hx. eapply holds_is_Some; [done|]. apply Hrange. lia.
  - intros x Hx. destruct (nodes σ' !! x) as [n|] eqn:Hn; [|done].
    apply Hok' in Hn. lia.
Qed.

End X6.

Lemma createTree_allocates_node_count_witness :
  ∃ σ', createTree ul_abc empty_document = (Ok 0, σ') ∧ next σ' = 4.
Proof.
  destruct (createTree_allocates_node_count ul_abc empty_document) as (σ' & H1 & H2 & _).
  - vm_compute; reflexivity.
  - vm_compute; reflexivity.
  - compute_done.
  - exists σ'. exact (conj H1 H2).
Defined.

(** ** Reconciling in sequence *)

Lemma div_hi_reconcilable :
  reconcilable div_hi div_bye None 0
    (LElem 0 "div" {["class" := "a"]} [LText 1 "hi"]) (document_of div_hi).
Proof.
  split_and!.
  - vm_compute; reflexivity.
  - vm_compute; reflexivity.
  - change (describes (LElem 0 (tag_string (Some "div")) (default ∅ (Some {["class" := "a"]}))
                         [LText 1 "hi"])
              (VElem (Some "div") (Some {["class" := "a"]}) (Some [VText "hi"]))).
    repeat constructor.
  - split_and!; [|compute_done|compute_done].
    constructor; [vm_compute; reflexivity|].
    constructor; [constructor; vm_compute; reflexivity | constructor].
  - intros p [=].
  - intros H. vm_compute in H. discriminate.
Qed.

Lemma round_trip_plain_names_witness :
  ∃ σ1 t1 σ2 t2,
    diff div_hi div_bye (Some 0) (document_of div_hi) = (Ok (), σ1) ∧
    diff div_bye div_hi (Some (root t1)) σ1 = (Ok (), σ2) ∧
    live σ2 None t2 ∧ describes t2 div_hi.
Proof.
  destruct (round_trip_plain_names div_hi div_bye None 0
              (LElem 0 "div" {["class" := "a"]} [LText 1 "hi"]) (document_of div_hi))
    as (σ1 & t1 & σ2 & t2 & H1 & _ & _ & H2 & H3 & H4 & _).
  - compute_done.
  - compute_done.
  - vm_compute; reflexivity.
  - vm_compute; reflexivity.
  - exact div_hi_reconcilable.
  - intros p [=].
  - exists σ1, t1, σ2, t2. exact (conj H1 (conj H2 (conj H3 H4))).
Defined.

Section X8.
Context {host : name_rules}.

(** X8. After [diff] has reconciled a live tree from [a] to [b] (the
    attribute names of [a] in folded form, the names of [b] names the host
    keeps), a second pass with [b] as both descriptions, on the node that
    is now at that place, changes nothing at all: no node, no new handle,
    no logged call. *)
Theorem second_pass_changes_nothing a b par i t σ :
  plain_names a = true →
  folded_names a = true → host_names b = true →
  reconcilable a b par i t σ →
  ∃ σ' t',
    diff a b (Some (root t)) σ = (Ok (), σ') ∧
    live σ' par t' ∧ describes t' b ∧
    diff b b (Some (root t')) σ' = (Ok (), σ').
Proof.
  intros Hplain Hfo Hhn Hpre.
  destruct (diff_spec a b par i t σ Hpre Hfo Hhn)
    as (σ' & t' & Hrun & Hl & _ & _ & _ & _ & _ & _ & Hdesc).
  specialize (Hdesc Hplain). destruct Hpre as (_ & Hwb & _).
  exists σ', t'. split_and!; try done.
  destruct Hl as (Hh & _). eapply diff_same; [by apply well_formed_null_free | done | done].
Qed.

End X8.

Lemma second_pass_changes_nothing_witness :
  ∃ σ' t',
    diff div_hi div_bye (Some 0) (document_of div_hi) = (Ok (), σ') ∧
    diff div_bye div_bye (Some (root t')) σ' = (Ok (), σ').
Proof.
  destruct (second_pass_changes_nothing div_hi div_bye None 0
              (LElem 0 "div" {["class" := "a"]} [LText 1 "hi"]) (document_of div_hi))
    as (σ' & t' & H1 & _ & _ & H2).
  - compute_done.
  - vm_compute; reflexivity.
  - vm_compute; reflexivity.
  - exact div_hi_reconcilable.
  - exists σ', t'. exact (conj H1 H2).
Defined.

(** ** What diff leaves alone *)

Section X11.
Context {host : name_rules}.

(** X11. On a well-formed pair and the live tree of the old description
    (its attribute names in folded form, the names of the new description
    names the host keeps), [diff] returns normally, and every node that
    existed before, other than the nodes of that live tree and its parent,
    is exactly as it was: siblings and their subtrees, and the rest of the
    document, are never touched. *)
Theorem diff_is_local oldVNode newVNode par i t σ :
  reconcilable oldVNode newVNode par i t σ →
  folded_names oldVNode = true → host_names newVNode = true →
  ∃ σ',
    diff oldVNode newVNode (Some (root t)) σ = (Ok (), σ') ∧
    heap_ok σ' ∧ next σ ≤ next σ' ∧
    ∀ x, x < next σ → x ∉ ids t → Some x ≠ par → nodes σ' !! x = nodes σ !! x.
Proof.
  intros Hpre Hfo Hhn.
  destruct (diff_spec oldVNode newVNode par i t σ Hpre Hfo Hhn)
    as (σ' & t' & Hrun & (_ & _ & Hok) & _ & _ & _ & Hnext & Hframe & _).
  by exists σ'.
Qed.

End X11.

Lemma diff_is_local_witness :
  ∃ σ', diff div_hi div_bye (Some 0) (document_of div_hi) = (Ok (), σ') ∧
        next (document_of div_hi) ≤ next σ'.
Proof.
  destruct (diff_is_local div_hi div_bye None 0
              (LElem 0 "div" {["class" := "a"]} [LText 1 "hi"]) (document_of div_hi))
    as (σ' & H1 & _ & H2 & _).
  - exact div_hi_reconcilable.
  - vm_compute; reflexivity.
  - vm_compute; reflexivity.
  - exists σ'. exact (conj H1 H2).
Defined.

(** ** A string against an element without a tag name *)

Section X12.
Context {host : name_rules}.

(** X12. A string and an element description that lacks [type] have the
    same [type] ([undefined]), so the live text node is not replaced: with
    no attributes and no children in the element description [diff]
    returns without touching anything; with an attribute it throws a
    TypeError, since a text node has no [setAttribute]; with a child whose
    names the host keeps, and no attribute, it builds the child and then
    throws a HierarchyRequestError on appending it to the text node. *)
Theorem text_against_untagged_element s props cs id par σ :
  heap_ok σ →
  nodes σ !! id = Some (Node par (Text s)) →
  (default ∅ props = ∅ → default [] cs = [] →
     diff (VText s) (VElem None props cs) (Some id) σ = (Ok (), σ)) ∧
  (default ∅ props ≠ ∅ →
     diff (VText s) (VElem None props cs) (Some id) σ = (Throw TypeError, σ)) ∧
  (default ∅ props = ∅ → ∀ c rest, default [] cs = c :: rest →
     null_free c = true → host_names c = true →
     ∃ σ', diff (VText s) (VElem None props cs) (Some id) σ
           = (Throw HierarchyRequestError, σ') ∧
           ∀ x, x < next σ → nodes σ' !! x = nodes σ !! x).
Proof.
  intros Hok Hid.
  assert (Hunfold : diff (VText s) (VElem None props cs) (Some id) σ
                    = (update_new_attributes (VText s) (VElem None props cs) (Some id) >>
                       diff_children (VText s) (VElem None props cs) (Some id)) σ).
  { rewrite diff_unfold. cbn [is_string is_nullish andb type_of].
    rewrite bool_decide_eq_true_2 by done. cbn [negb].
    unfold remove_old_attributes. cbn [props_of]. by rewrite map_to_list_empty. }
  rewrite Hunfold. unfold update_new_attributes, diff_children, adjust_tail.
  replace (props_of (VElem None props cs)) with (default ∅ props) by (by destruct props).
  replace (children_of (VElem None props cs)) with (default [] cs) by (by destruct cs).
  cbn [children_of props_of length]. split_and!.
  - intros -> ->. by rewrite map_to_list_empty.
  - intros Hne. destruct (map_to_list (default ∅ props)) as [|[k v] l] eqn:Hl.
    { by apply map_to_list_empty_iff in Hl. }
    apply bind_throw. rewrite for_each_cons. apply bind_throw.
    unfold js_in, js_get. rewrite lookup_empty.
    replace (negb _ || _) with true by (by destruct (is_inherited k)).
    unfold setAttribute, bind, deref. by rewrite Hid.
  - intros -> c rest Hcs Hnf Hhn. rewrite Hcs. rewrite map_to_list_empty.
    destruct (createTree_spec c Hnf Hhn σ Hok)
      as (t & σ' & Hrun & _ & _ & _ & _ & _ & Hframe & _).
    exists σ'. split; [|done].
    rewrite (bind_ok _ _ σ () σ) by done. rewrite (bind_ok _ _ σ () σ) by done.
    cbn [length]. rewrite bool_decide_eq_true_2 by lia.
    apply bind_throw. unfold append_new_children.
    replace (children_of (VElem None props cs)) with (c :: rest)
      by (destruct cs; simpl in *; congruence).
    cbn [drop]. rewrite for_each_cons. apply bind_throw. rewrite (bind_ok _ _ _ _ _ Hrun).
    unfold appendChild, bind, deref.
    assert (Hid' : nodes σ' !! id = Some (Node par (Text s))).
    { rewrite Hframe; [done|]. by eapply Hok. }
    by rewrite Hid'.
Qed.

End X12.

Lemma text_against_untagged_element_witness :
  diff (VText "hi") untagged_a1 (Some 0) (document_of (VText "hi"))
  = (Throw TypeError, document_of (VText "hi")).
Proof.
  apply (text_against_untagged_element "hi" (Some {["a" := "1"]}) None 0 None
           (document_of (VText "hi"))).
  - compute_done.
  - vm_compute; reflexivity.
  - vm_compute. discriminate.
Defined.

Lemma same_type_attributes_witness :
  ∃ σ' (attrs' : gmap string string),
    diff div_hi div_bye (Some 0) (document_of div_hi) = (Ok (), σ') ∧
    (∃ n, nodes σ' !! 0 = Some n ∧ parentNode n = None ∧
          ∃ cs, kind n = Element "div" attrs' cs) ∧
    attrs' !! "class" = Some "b".
Proof.
  destruct (same_type_attributes div_hi div_bye None 0 "div" {["class" := "a"]}
              [LText 1 "hi"] (document_of div_hi))
    as (σ' & attrs' & H1 & Hnode & H2).
  - vm_compute; reflexivity.
  - vm_compute; reflexivity.
  - vm_compute; reflexivity.
  - vm_compute; reflexivity.
  - vm_compute; reflexivity.
  - apply div_hi_reconcilable.
  - apply div_hi_reconcilable.
  - exists σ', attrs'. split; [exact H1|]. split; [exact Hnode|].
    rewrite H2. vm_compute. reflexivity.
Defined.

(** ** The calls diff logs *)

Section X10.
Context {host : name_rules}.

Lemma written_touches e x : written e = Some x → x ∈ touches e.
Proof. destruct e; simpl; intros [= ->]; by left. Qed.

Lemma writes_within_app l n evs1 evs2 :
  writes_within l n evs1 → writes_within l n evs2 → writes_within l n (evs1 ++ evs2).
Proof. intros H1 H2 e x [?|?]%elem_of_app; [by apply H1 | by apply H2]. Qed.

Lemma writes_within_mono l l' n n' evs :
  writes_within l n evs → (∀ x, x ∈ l → x ∈ l' ∨ n' ≤ x) → n' ≤ n →
  writes_within l' n' evs.
Proof.
  intros H Hl Hn e x He Hw. destruct (H e x He Hw) as [?|?]; [by apply Hl | right; lia].
Qed.

Lemma built_writes σ σ' t v :
  built σ σ' t v → ∃ evs, log σ' = log σ ++ evs ∧ writes_within [] (next σ) evs.
Proof.
  intros (_ & _ & _ & _ & _ & _ & _ & evs & Hlog & Hevs). exists evs. split; [done|].
  intros e x He Hw. right. eapply Hevs; [done|]. by apply written_touches.
Qed.

Lemma child_reconcilable par id tag attrs before t todo o n σ :
  live σ par (LElem id tag attrs (before ++ t :: todo)) →
  well_formed o = true → well_formed n = true → describes t o →
  reconcilable o n (Some id) (length before) t σ.
Proof.
  intros Hl Hwo Hwn Hdt.
  destruct (live_elem_inv _ _ _ _ _ _ Hl) as (Hid & Hkids & Hnotin & Hnd & Hlt).
  assert (Hin : t ∈ before ++ t :: todo) by (apply elem_of_app; right; by left).
  split_and!; try done.
  - by eapply live_kid.
  - intros p [= <-] Hp. apply Hnotin. by eapply ids_kid.
  - intros _. exists id, par, tag, attrs, (root <$> (before ++ t :: todo)).
    split_and!; [done | done | | by apply NoDup_roots].
    rewrite fmap_app, fmap_cons, <- (length_fmap root before). apply lookup_middle.
Qed.

Lemma diff_loop_writes par id tag attrs os :
  ∀ ns todo before σ,
    Forall (λ o, well_formed o = true) os →
    Forall (λ n, well_formed n = true) ns →
    Forall (λ o, folded_names o = true) os →
    Forall (λ n, host_names n = true) ns →
    Forall2 describes todo os →
    live σ par (LElem id tag attrs (before ++ todo)) →
    ∃ evs,
      log (for_both (λ i o n, let* c := childNodes_item (Some id) i in diff o n c)
             (length before) os ns σ).2 = log σ ++ evs ∧
      writes_within (mjoin (ids <$> todo)) (next σ) evs.
Proof.
  induction os as [|o os IH]; intros ns todo before σ Hwo Hwn Hfo Hhn Hdesc Hl.
  { exists []. rewrite app_nil_r. split; [done|]. intros e x He. by apply elem_of_nil in He. }
  destruct ns as [|n ns].
  { exists []. rewrite for_both_nil_r, app_nil_r. split; [done|].
    intros e x He. by apply elem_of_nil in He. }
  apply Forall2_cons_inv_r in Hdesc as (t & todo' & Hdt & Hdesc & ->).
  apply Forall_cons in Hwo as [Hwo1 Hwo]. apply Forall_cons in Hwn as [Hwn1 Hwn].
  apply Forall_cons in Hfo as [Hfo1 Hfo]. apply Forall_cons in Hhn as [Hhn1 Hhn].
  pose proof (child_reconcilable _ _ _ _ _ _ _ _ n _ Hl Hwo1 Hwn1 Hdt) as Hpre.
  destruct (diff_spec o n (Some id) (length before) t σ Hpre Hfo1 Hhn1)
    as (σ1 & t1 & Hrun1 & Hrec).
  destruct (diff_writes_within o n (Some id) t σ) as (evs1 & Hlog1 & Hw1).
  { by destruct Hpre as (_ & _ & _ & ? & _). }
  rewrite Hrun1 in Hlog1. cbn [snd] in Hlog1.
  pose proof (diff_child_step _ _ _ _ _ _ _ _ _ _ _ _ Hl Hrec) as Hl1.
  destruct Hrec as (_ & _ & _ & _ & Hnext1 & _).
  destruct (IH ns todo' (before ++ [t1]) σ1) as (evs & Hlog & Hw); try done.
  { by rewrite <- app_assoc. }
  destruct (live_elem_inv _ _ _ _ _ _ Hl) as (Hid & _).
  exists (evs1 ++ evs). split.
  - rewrite for_both_cons. rewrite (bind_ok _ _ σ () σ1).
    + rewrite length_app in Hlog. simpl in Hlog. rewrite Nat.add_1_r in Hlog.
      rewrite Hlog, Hlog1. by rewrite app_assoc.
    + rewrite (bind_ok _ _ _ _ _ (childNodes_item_run _ _ _ _ Hid)).
      unfold child_list. cbn [kind].
      rewrite fmap_app, fmap_cons, <- (length_fmap root before), lookup_middle. done.
  - apply writes_within_app.
    + eapply writes_within_mono; [exact Hw1 | | done].
      intros x Hx. left. simpl. apply elem_of_app. by left.
    + eapply writes_within_mono; [exact Hw | | done].
      intros x Hx. left. simpl. apply elem_of_app. by right.
Qed.

Lemma append_new_children_writes σ par id tag attrs kids (added : list vnode) :
  Forall (λ c, null_free c = true) added →
  Forall (λ c, host_names c = true) added →
  live σ par (LElem id tag attrs kids) →
  ∃ evs,
    log (for_each added
           (λ child, let* newElement := createTree child in appendChild (Some id) newElement)
           σ).2 = log σ ++ evs ∧
    writes_within [] (next σ) evs.
Proof.
  intros Hnf. revert σ kids. induction Hnf as [|c added Hc Hnf IH]; intros σ kids Hhn Hl.
  { exists []. rewrite app_nil_r. split; [done|]. intros e x He. by apply elem_of_nil in He. }
  apply Forall_cons in Hhn as [Hhc Hhn].
  pose proof Hl as (_ & _ & Hok).
  destruct (createTree_spec c Hc Hhc σ Hok) as (t & σ1 & Hrun & Hb).
  destruct (append_built_child _ _ _ _ _ _ _ _ _ Hl Hrun Hb)
    as (σ2 & Hrun2 & Hl2 & Hnext2 & _ & Hlog2).
  destruct (built_writes _ _ _ _ Hb) as (evs1 & Hlog1 & Hw1).
  destruct (IH σ2 (kids ++ [t]) Hhn Hl2) as (evs & Hlog & Hw).
  exists (evs1 ++ [AppendChild id (next σ)] ++ evs). split.
  - rewrite for_each_cons, (bind_ok _ _ _ _ _ Hrun2). rewrite Hlog, Hlog2, Hlog1.
    by rewrite <- !app_assoc.
  - apply writes_within_app; [done|]. apply writes_within_app.
    + intros e x ->%list_elem_of_singleton. done.
    + eapply writes_within_mono; [exact Hw | by left | done].
Qed.

Lemma adjust_tail_writes oldVNode newVNode σ par id tag attrs front rest :
  well_formed newVNode = true → host_names newVNode = true →
  live σ par (LElem id tag attrs (front ++ rest)) →
  length front = min (length (children_of oldVNode)) (length (children_of newVNode)) →
  length (front ++ rest) = length (children_of oldVNode) →
  ∃ evs, log (adjust_tail oldVNode newVNode (Some id) σ).2 = log σ ++ evs ∧
         writes_within [] (next σ) evs.
Proof.
  intros Hwn Hhn Hl Hfront Hlen. unfold adjust_tail. rewrite length_app in Hlen.
  set (oldLen := length (children_of oldVNode)) in *.
  set (newLen := length (children_of newVNode)) in *.
  destruct (decide (oldLen < newLen)) as [Hgrow|Hngrow].
  - rewrite bool_decide_eq_true_2 by done.
    rewrite (bool_decide_eq_false_2 (newLen < oldLen)) by lia.
    assert (rest = []) as -> by (apply length_zero_iff_nil; lia).
    rewrite app_nil_r in Hl.
    assert (Hnf : Forall (λ c, null_free c = true) (drop oldLen (children_of newVNode)))
      by (apply Forall_drop; by apply children_of_null_free).
    assert (Hhc : Forall (λ c, host_names c = true) (drop oldLen (children_of newVNode)))
      by (apply Forall_drop; by apply host_names_children).
    destruct (append_new_children_run σ par id tag attrs front _ Hnf Hhc Hl)
      as (σ' & extra & Hrun & _).
    destruct (append_new_children_writes σ par id tag attrs front _ Hnf Hhc Hl)
      as (evs & Hlog & Hw).
    rewrite Hrun in Hlog. cbn [snd] in Hlog.
    exists evs. split; [|done].
    unfold append_new_children. by rewrite (bind_ok _ _ _ _ _ Hrun).
  - rewrite bool_decide_eq_false_2 by done.
    rewrite (bind_ok _ _ σ () σ) by done.
    destruct (decide (newLen < oldLen)) as [Hshrink|Hnshrink].
    + rewrite bool_decide_eq_true_2 by done.
      assert (Hnl : newLen = length front) by lia. rewrite Hnl.
      destruct (remove_extra_children_spec _ _ _ _ _ _ _ Hl)
        as (σ' & Hrun & _ & _ & _ & _ & Hlog).
      rewrite Hrun. cbn [snd]. eexists. split; [exact Hlog|].
      intros e x (c & -> & _)%list_elem_of_fmap. done.
    + rewrite bool_decide_eq_false_2 by done.
      exists []. rewrite app_nil_r. split; [done|].
      intros e x He. by apply elem_of_nil in He.
Qed.

(** On two elements of the same type the log grows by the calls of the
    attribute loops, followed by calls that write only below the children
    or on new nodes. *)
Lemma diff_elem_writes oldVNode newVNode par id tag attrs kids σ :
  well_formed oldVNode = true → well_formed newVNode = true →
  folded_names oldVNode = true → host_names newVNode = true →
  is_string oldVNode = false →
  same_type oldVNode newVNode = true →
  describes (LElem id tag attrs kids) oldVNode →
  live σ par (LElem id tag attrs kids) →
  ∃ evs,
    log (diff oldVNode newVNode (Some id) σ).2
    = log σ ++ attr_events id (props_of oldVNode) (props_of newVNode) ++ evs ∧
    writes_within (mjoin (ids <$> kids)) (next σ) evs.
Proof.
  intros Hwo Hwn Hfo Hhn Hstr Hty Hdesc Hl.
  assert (Hkids : Forall2 describes kids (children_of oldVNode)).
  { inversion Hdesc; subst. by destruct cs. }
  pose proof (Forall2_length _ _ _ Hkids) as Hlen.
  destruct (live_elem_inv _ _ _ _ _ _ Hl) as (Hid & _).
  rewrite diff_unfold. rewrite Hstr. cbn [andb].
  rewrite (well_formed_not_null _ Hwo), (well_formed_not_null _ Hwn).
  unfold same_type in Hty. rewrite Hty. cbn [negb].
  rewrite <- bind_assoc.
  rewrite (bind_ok _ _ _ _ _ (diff_attributes_run oldVNode newVNode _ _ _ _ _ _ Hid
                                (folded_names_props _ Hfo) (host_names_props_of _ Hhn))).
  set (attrs' := diffed_attrs _ _ _).
  pose proof (live_set_attrs _ _ _ _ _ attrs' _
                (attr_events id (props_of oldVNode) (props_of newVNode)) Hl) as Hla.
  set (σa := with_nodes σ _ _) in *.
  unfold diff_children.
  assert (Hall : Forall diff_correct (children_of oldVNode))
    by (apply Forall_forall; intros c _; apply diff_spec).
  destruct (diff_loop_spec par id tag attrs' (children_of oldVNode) Hall
              (children_of newVNode) kids [] σa)
    as (σl & front & Hrunl & Hlenf & Hll & Hnextl & Hidsl & _);
    [by apply well_formed_children | by apply well_formed_children
     | by apply folded_names_children | by apply host_names_children | done | done |].
  destruct (diff_loop_writes par id tag attrs' (children_of oldVNode)
              (children_of newVNode) kids [] σa)
    as (evs1 & Hlog1 & Hw1);
    [by apply well_formed_children | by apply well_formed_children
     | by apply folded_names_children | by apply host_names_children | done | done |].
  cbn [app length] in Hrunl, Hll, Hlog1. rewrite Hrunl in Hlog1. cbn [snd] in Hlog1.
  rewrite (bind_ok _ _ _ _ _ Hrunl).
  destruct (adjust_tail_writes oldVNode newVNode σl par id tag attrs' front
              (drop (length front) kids)) as (evs2 & Hlog2 & Hw2); try done.
  { rewrite length_app, length_drop. lia. }
  exists (evs1 ++ evs2). split.
  - rewrite Hlog2, Hlog1. unfold σa, with_nodes. cbn [log]. by rewrite <- !app_assoc.
  - apply writes_within_app; [done|].
    eapply writes_within_mono; [exact Hw2 | by intros x ?%elem_of_nil |].
    unfold σa, with_nodes in Hnextl. cbn [next] in Hnextl. done.
Qed.

(** X10. On two well-formed elements of the same type, the attribute
    names of the old one in folded form and the names of the new one names
    the host keeps, the attribute calls [diff] logs on the live node are
    exactly these: [setAttribute] with a name and value for the entries of
    the new mapping that the old mapping does not hold with that value,
    and [removeAttribute] for the names of the old mapping that the new
    mapping lacks and that an object literal does not inherit. An
    attribute equal in both mappings gets no call. *)
Theorem attribute_calls_on_live_node oldVNode newVNode par id tag attrs kids σ :
  well_formed oldVNode = true → well_formed newVNode = true →
  folded_names oldVNode = true → host_names newVNode = true →
  is_string oldVNode = false →
  same_type oldVNode newVNode = true →
  describes (LElem id tag attrs kids) oldVNode →
  live σ par (LElem id tag attrs kids) →
  ∃ evs,
    log (diff oldVNode newVNode (Some id) σ).2 = log σ ++ evs ∧
    (∀ k v, SetAttribute id k v ∈ evs
            ↔ props_of newVNode !! k = Some v ∧ props_of oldVNode !! k ≠ Some v) ∧
    (∀ k, RemoveAttribute id k ∈ evs
          ↔ is_Some (props_of oldVNode !! k) ∧ props_of newVNode !! k = None ∧
            is_inherited k = false).
Proof.
  intros Hwo Hwn Hfo Hhn Hstr Hty Hdesc Hl.
  destruct (diff_elem_writes oldVNode newVNode par id tag attrs kids σ)
    as (evs & Hlog & Hw); try done.
  destruct (live_elem_inv _ _ _ _ _ _ Hl) as (Hid & _ & Hnotin & _ & Hlt).
  assert (Hrest : ∀ e, e ∈ evs → written e ≠ Some id).
  { intros e He Hx. destruct (Hw e id He Hx) as [Hin|Hge]; [by apply Hnotin | lia]. }
  eexists. split; [exact Hlog|]. split.
  - intros k v. rewrite elem_of_app, set_call_iff. split; [|by left].
    intros [?|He]; [done|]. by destruct (Hrest _ He).
  - intros k. rewrite elem_of_app, remove_call_iff. unfold js_in.
    rewrite orb_false_iff, bool_decide_eq_false, <- eq_None_not_Some.
    split; [|by left]. intros [?|He]; [done|]. by destruct (Hrest _ He).
Qed.

End X10.

Lemma attribute_calls_on_live_node_witness :
  ∃ evs,
    log (diff div_hi div_bye (Some 0) (document_of div_hi)).2
    = log (document_of div_hi) ++ evs ∧
    (∀ k v, SetAttribute 0 k v ∈ evs
            ↔ props_of div_bye !! k = Some v ∧ props_of div_hi !! k ≠ Some v) ∧
    (∀ k, RemoveAttribute 0 k ∈ evs
          ↔ is_Some (props_of div_hi !! k) ∧ props_of div_bye !! k = None ∧
            is_inherited k = false).
Proof.
  destruct div_hi_reconcilable as (Hwo & Hwn & Hdesc & Hl & _).
  apply (attribute_calls_on_live_node div_hi div_bye None 0 "div" {["class" := "a"]}
           [LText 1 "hi"]);
    [done | done | vm_compute; reflexivity | vm_compute; reflexivity
     | reflexivity | vm_compute; reflexivity | done | done].
Defined.

Section X13.
Context {host : name_rules}.

(** X13. Every call of [setAttribute], [removeAttribute] and every write
    of [textContent] that [diff] logs is on a node of the live tree it was
    given or on a node it has just created; no other node is written, not
    even with the value it already has. This holds however the call ends,
    also when the host rejects a name and [diff] throws half-way. *)
Theorem diff_writes_are_local oldVNode newVNode par i t σ :
  reconcilable oldVNode newVNode par i t σ →
  ∃ evs, log (diff oldVNode newVNode (Some (root t)) σ).2 = log σ ++ evs ∧
         ∀ e x, e ∈ evs → written e = Some x → x ∈ ids t ∨ next σ ≤ x.
Proof. intros (_ & _ & _ & Hl & _). by eapply diff_writes_within. Qed.

End X13.

Lemma diff_writes_are_local_witness :
  ∃ evs, log (diff div_hi div_bye (Some 0) (document_of div_hi)).2
         = log (document_of div_hi) ++ evs ∧
         ∀ e x, e ∈ evs → written e = Some x
                → x ∈ ids (LElem 0 "div" {["class" := "a"]} [LText 1 "hi"])
                  ∨ next (document_of div_hi) ≤ x.
Proof.
  exact (diff_writes_are_local div_hi div_bye None 0
           (LElem 0 "div" {["class" := "a"]} [LText 1 "hi"]) (document_of div_hi)
           div_hi_reconcilable).
Defined.

(** * Properties of e3.js *)

(** ** split and join *)

Lemma split_nonempty sep s : split sep s ≠ [].
Proof.
  destruct s as [|c s]; simpl; [done|].
  destruct (Ascii.eqb c sep); [done|]. by destruct (split sep s).
Qed.

Lemma join_cons_cons sep w w' ws :
  join sep (w :: w' :: ws) = w +:+ sep +:+ join sep (w' :: ws).
Proof. done. Qed.

Lemma join_split a b s : join (String b "") (split a s) = replace_char a b s.
Proof.
  induction s as [|c s IH]; [done|]. cbn [split replace_char].
  pose proof (split_nonempty a s) as Hne.
  destruct (Ascii.eqb c a).
  - destruct (split a s) as [|w ws] eqn:Hs; [done|].
    rewrite join_cons_cons, IH. done.
  - destruct (split a s) as [|w ws] eqn:Hs; [done|].
    rewrite <- IH. destruct ws as [|w' ws]; [done|].
    by rewrite !join_cons_cons.
Qed.

Lemma replace_char_length a b s : String.length (replace_char a b s) = String.length s.
Proof. induction s; simpl; congruence. Qed.

Lemma replace_char_get a b s n :
  a ≠ b → String.get n (replace_char a b s) ≠ Some a.
Proof.
  intros Hab. revert n. induction s as [|c s IH]; intros n; [done|]. simpl.
  destruct n as [|n]; [|apply IH].
  destruct (Ascii.eqb_spec c a); congruence.
Qed.

Lemma startsWith_spec p s : startsWith p s = true ↔ ∃ post, s = p +:+ post.
Proof.
  revert s. induction p as [|a p IH]; intros s; simpl.
  - split; [by exists s | done].
  - destruct s as [|b s].
    + split; [done | by intros [? ?]].
    + rewrite andb_true_iff, IH. split.
      * intros [->%Ascii.eqb_eq [post ->]]. by exists post.
      * intros [post [= -> ->]]. split; [apply Ascii.eqb_refl | by exists post].
Qed.

Lemma includes_spec sub s :
  includes sub s = true ↔ ∃ pre post, s = pre +:+ sub +:+ post.
Proof.
  induction s as [|c s IH].
  - cbn [includes]. rewrite orb_false_r, startsWith_spec. split.
    + intros [post ->]. by exists "", post.
    + intros ([|? pre] & post & H); [by exists post | done].
  - cbn [includes]. rewrite orb_true_iff, startsWith_spec, IH. split.
    + intros [[post ->] | (pre & post & ->)];
        [by exists "", post | by exists (String c pre), post].
    + intros ([|c' pre] & post & H); [left; by exists post|].
      right. injection H as -> ->. by exists pre, post.
Qed.

Section E3_properties.
Variable toLowerCase : string → string.

(** X14. [generateIds] returns one id for each title, in order: the
    lower-cased title with every space replaced by a hyphen, so an id is as
    long as the lower-cased title and holds no space. *)
Theorem generateIds_replaces_spaces titles :
  generateIds toLowerCase titles
  = (λ title, replace_char " "%char "-"%char (toLowerCase title)) <$> titles
  ∧ length (generateIds toLowerCase titles) = length titles
  ∧ ∀ i id, generateIds toLowerCase titles !! i = Some id →
      ∃ title, titles !! i = Some title
               ∧ String.length id = String.length (toLowerCase title)
               ∧ ∀ n, String.get n id ≠ Some " "%char.
Proof.
  assert (Heq : generateIds toLowerCase titles
                = (λ title, replace_char " "%char "-"%char (toLowerCase title)) <$> titles).
  { unfold generateIds, slug. apply list_fmap_ext. intros _ title _. apply join_split. }
  split_and!; [done | by rewrite Heq, length_fmap |].
  intros i id. rewrite Heq, list_lookup_fmap.
  destruct (titles !! i) as [title|]; [|done]. intros [= <-].
  exists title. split_and!; [done | apply replace_char_length |].
  intros n. by apply replace_char_get.
Qed.

(** X15. [highlightImportant] returns, in the order of the titles, the ids
    of exactly the titles that contain ["Important"] as written (the test
    is made before lower-casing); they are a sublist of all the ids. *)
Theorem highlightImportant_selects titles :
  sublist (highlightImportant toLowerCase titles) (generateIds toLowerCase titles)
  ∧ ∀ id, id ∈ highlightImportant toLowerCase titles
          ↔ ∃ title pre post, title ∈ titles
                              ∧ title = pre +:+ "Important" +:+ post
                              ∧ id = slug toLowerCase title.
Proof.
  unfold highlightImportant, generateIds. split.
  - apply fmap_sublist, sublist_filter.
  - intros id. rewrite list_elem_of_fmap. split.
    + intros (title & -> & [Hinc Hin]%list_elem_of_filter).
      apply includes_spec in Hinc as (pre & post & Heq). by exists title, pre, post.
    + intros (title & pre & post & Hin & Heq & ->). exists title. split; [done|].
      apply list_elem_of_filter. split; [|done]. apply includes_spec. by exists pre, post.
Qed.

End E3_properties.

(** ** Word counts *)

Lemma count_step wc word w n :
  is_inherited w = false → wc !! w = counted n →
  write_tally wc word (or_zero_plus_one (read_tally wc word)) !! w
  = counted (if decide (word = w) then S n else n).
Proof.
  intros Hw Hn. unfold write_tally.
  destruct (String.eqb_spec word "__proto__") as [->|Hproto].
  - destruct (decide ("__proto__" = w)) as [<-|?]; [done|]. done.
  - destruct (decide (word = w)) as [->|Hne].
    + rewrite lookup_insert_eq. unfold read_tally. rewrite Hn, Hw.
      destruct n as [|n]; cbn [or_zero_plus_one counted]; [done|]. by rewrite Nat.add_1_r.
    + by rewrite lookup_insert_ne.
Qed.

Lemma count_fold words : ∀ wc w n,
  is_inherited w = false → wc !! w = counted n →
  foldl (λ wc word, write_tally wc word (or_zero_plus_one (read_tally wc word))) wc words
    !! w
  = counted (n + length (filter (λ x, x = w) words)).
Proof.
  induction words as [|word words IH]; intros wc w n Hw Hn.
  { simpl. by rewrite Nat.add_0_r. }
  cbn [foldl]. rewrite filter_cons.
  erewrite IH; [|done|by apply count_step].
  destruct (decide (word = w)); cbn [length]; f_equal; lia.
Qed.

Lemma inherited_fold words : ∀ wc w,
  is_inherited w = true → w ≠ "__proto__" →
  wc !! w = None ∨ wc !! w = Some Concatenated →
  foldl (λ wc word, write_tally wc word (or_zero_plus_one (read_tally wc word))) wc words
    !! w
  = if decide (w ∈ words) then Some Concatenated else wc !! w.
Proof.
  induction words as [|word words IH]; intros wc w Hw Hproto Hwc.
  { cbn [foldl]. rewrite decide_False; [done|]. apply not_elem_of_nil. }
  cbn [foldl].
  assert (Hstep : write_tally wc word (or_zero_plus_one (read_tally wc word)) !! w
                  = if decide (word = w) then Some Concatenated else wc !! w).
  { unfold write_tally. destruct (decide (word = w)) as [->|Hne].
    - rewrite (proj2 (String.eqb_neq _ _)) by done. rewrite lookup_insert_eq.
      unfold read_tally. rewrite Hw. by destruct Hwc as [-> | ->].
    - destruct (String.eqb word "__proto__"); [done|]. by rewrite lookup_insert_ne. }
  rewrite IH; [|done|done|].
  - rewrite Hstep. destruct (decide (w ∈ words)) as [Hin|Hnotin].
    + rewrite decide_True; [done|]. by right.
    + destruct (decide (word = w)) as [->|Hne].
      * rewrite decide_True; [done|]. by left.
      * rewrite decide_False; [done|]. intros [->|?]%elem_of_cons; done.
  - rewrite Hstep. destruct (decide (word = w)); [by right | done].
Qed.

Lemma proto_fold words : ∀ wc,
  wc !! "__proto__" = None →
  foldl (λ wc word, write_tally wc word (or_zero_plus_one (read_tally wc word)))
    wc words !! "__proto__" = None.
Proof.
  induction words as [|word words IH]; intros wc Hwc; [done|].
  cbn [foldl]. apply IH. unfold write_tally.
  destruct (String.eqb_spec word "__proto__") as [->|Hproto]; [done|].
  by rewrite lookup_insert_ne.
Qed.

Section wordFrequency_properties.
Variable toLowerCase : string → string.

(** X16. For a word that an object literal does not inherit,
    [wordFrequency] stores the exact number of its occurrences among the
    space-separated words of the lower-cased titles, and nothing when it
    does not occur. *)
Theorem wordFrequency_counts titles w :
  is_inherited w = false →
  wordFrequency toLowerCase titles !! w
  = match occurrences toLowerCase w titles with
    | 0 => None
    | S n => Some (Count (S n))
    end.
Proof.
  intros Hw. unfold wordFrequency, occurrences.
  rewrite (count_fold _ ∅ w 0 Hw) by done. cbn [Nat.add]. by destruct (length _).
Qed.

(** X17. For a word that an object literal inherits from
    [Object.prototype] ([constructor], [__proto__], ...) the result never
    holds a count: [wc[word] || 0] finds the inherited function or object,
    and [+ 1] makes a string of it, which is stored at the first occurrence
    and lengthened at every further one. [__proto__] never becomes a
    property of the result. *)
Theorem wordFrequency_inherited_word titles w :
  is_inherited w = true →
  wordFrequency toLowerCase titles !! w
  = if decide (w ≠ "__proto__" ∧ 0 < occurrences toLowerCase w titles)
    then Some Concatenated else None.
Proof.
  intros Hw. unfold wordFrequency, occurrences.
  set (words := titles ≫= _).
  destruct (decide (w = "__proto__")) as [->|Hproto].
  - rewrite proto_fold by done. rewrite decide_False; [done|]. by intros [? _].
  - rewrite inherited_fold; [|done|done|by left]. rewrite lookup_empty.
    destruct (decide (w ∈ words)) as [Hin|Hnotin].
    + rewrite decide_True; [done|]. split; [done|].
      assert (w ∈ filter (λ x, x = w) words) as Hf by (by apply list_elem_of_filter).
      destruct (filter (λ x, x = w) words); [by apply elem_of_nil in Hf | simpl; lia].
    + rewrite decide_False; [done|]. intros [_ Hocc].
      destruct (filter (λ x, x = w) words) as [|x l] eqn:Hf; [simpl in Hocc; lia|].
      assert (x ∈ filter (λ x, x = w) words) as [-> ?]%list_elem_of_filter
        by (rewrite Hf; by left). done.
Qed.
End wordFrequency_properties.

Lemma wordFrequency_counts_witness :
  wordFrequency ascii_toLowerCase
    ["About Us"; "Our Projects"; "Important Projects"; "Contact Us"] !! "us"
  = Some (Count 2).
Proof.
  refine (eq_trans (wordFrequency_counts ascii_toLowerCase
                      ["About Us"; "Our Projects"; "Important Projects"; "Contact Us"]
                      "us" _) _); vm_compute; reflexivity.
Defined.

Lemma wordFrequency_inherited_word_witness :
  wordFrequency ascii_toLowerCase ["Constructor Notes"; "Our Constructor"] !! "constructor"
  = Some Concatenated.
Proof.
  refine (eq_trans (wordFrequency_inherited_word ascii_toLowerCase
                      ["Constructor Notes"; "Our Constructor"] "constructor" _) _);
    vm_compute; reflexivity.
Defined.

(** ** Profiles *)

Section Profiles_properties.
Context {value : Type}.

(** X18. [updateUser] never throws, also on [null]: the result holds
    the entries of [updates] and, for the other keys, those of [user].
    [removeSensitive] of the result returns the same entries without
    [password], which is what [updateUser] gives on the two objects
    stripped first; on [null], [removeSensitive] throws a TypeError. *)
Theorem removeSensitive_updateUser (user updates : option (gmap string value)) :
  (∀ k, updateUser user updates !! k
        = match default ∅ updates !! k with
          | Some v => Some v
          | None => default ∅ user !! k
          end)
  ∧ removeSensitive (Some (updateUser user updates))
    = Ok (updateUser (Some (delete "password" (default ∅ user)))
                     (Some (delete "password" (default ∅ updates))))
  ∧ (∀ m, removeSensitive (Some (updateUser user updates)) = Ok m →
          m !! "password" = None)
  ∧ removeSensitive (None : option (gmap string value)) = Throw TypeError.
Proof.
  split_and!.
  - intros k. unfold updateUser. rewrite lookup_union.
    destruct (default ∅ updates !! k), (default ∅ user !! k); done.
  - unfold removeSensitive, updateUser. cbn [default]. f_equal.
    apply delete_union.
  - intros m [= <-]. apply lookup_delete_eq.
  - done.
Qed.
End Profiles_properties.
